(** * Loop closing of stereo_slam: a shallow embedding of
      [src/src/loop_closing.cpp] and the properties of its specification.

    The file follows the source: the data the loop-closing thread owns
    ([LoopClosing]), the cluster store under [execution_dir_], the two
    candidate searches, the geometric verifier [closeLoopWithCluster] and
    the driver [run].  What the source calls but does not define (the pose
    graph, OpenCV, the haloc hash, the constants of the headers) is a field
    of [External]; every definition is a function of it. *)

From Stdlib Require Import ZArith QArith Qround Qabs Lia List Permutation Sorted Ascii.
From stdpp Require Import base numbers option list sorting gmap strings.

Open Scope Z_scope.

(** ** Values of the external libraries *)

(** [float] and [double] values are the rationals they denote; no
    computation below produces a NaN from finite inputs except the division
    of [m_percentage], which is discussed there. *)
Record Point2f := mkPoint2f { p2_x : Q; p2_y : Q }.
Record Point3f := mkPoint3f { p3_x : Q; p3_y : Q; p3_z : Q }.

(** [cv::KeyPoint]; the source reads its [pt] only. *)
Record KeyPoint := mkKeyPoint { pt : Point2f }.

(** A descriptor matrix [cv::Mat], row by row. *)
Abbreviation Mat := (list (list Z)).

Definition rows (m : Mat) : Z := Z.of_nat (length m).

(** [cv::DMatch]. *)
Record DMatch := mkDMatch { queryIdx : Z; trainIdx : Z; distance : Q }.

(** [v[i]] on a [std::vector] with an [int] index: outside [0, size) the
    C++ behaviour is undefined, which is [None] here. *)
Definition at_ {A : Type} (v : list A) (i : Z) : option A :=
  if i <? 0 then None else v !! Z.to_nat i.

(** C's [round]: to the nearest integer, halves away from zero. *)
Definition c_round (x : Q) : Z :=
  if Qle_bool 0 x then Qfloor (x + (1 # 2)) else - Qfloor (- x + (1 # 2)).

(** ** The cluster *)

(** Modelled from the spec: the class [Cluster] (cluster.h is not under
    src/).  The fields are the arguments of the constructor call in
    [readCluster], in its order: id, frame id, camera pose, keypoints, the
    descriptors [getLdb] matches on, the descriptors [getSift] hashes, and
    the 3D points, "row-aligned with keypoints". *)
Record Cluster (T : Type) := mkCluster {
  getId : Z;
  getFrameId : Z;
  getCameraPose : T;
  getKp : list KeyPoint;
  getLdb : Mat;
  getSift : Mat;
  getPoints : list Point3f
}.
Arguments mkCluster {T}.
Arguments getId {T}.
Arguments getFrameId {T}.
Arguments getCameraPose {T}.
Arguments getKp {T}.
Arguments getLdb {T}.
Arguments getSift {T}.
Arguments getPoints {T}.

(** Modelled from the spec: [Cluster::getWorldPoints] (cluster.h is not
    under src/).  The spec gives a cluster one sequence of 3D points, its
    [world_points], which the store writes under the key [points]. *)
Definition getWorldPoints {T : Type} (c : Cluster T) : list Point3f :=
  getPoints c.

(** ** The files of the cluster store *)

(** A node of a [cv::FileStorage]. *)
Inductive FileNode :=
| NInt (n : Z)
| NKeyPoints (kp : list KeyPoint)
| NMat (m : Mat)
| NPoints (p : list Point3f).

(** A file [<id>.yml] of [execution_dir_]: either it cannot be opened, or
    it holds named nodes. *)
Inductive File :=
| Unreadable
| Yaml (nodes : gmap string FileNode).

(** [fs[key] >> x] leaves the default of [x]'s type when the node is absent
    or of another type. *)
Definition read_int (nodes : gmap string FileNode) (key : string) : Z :=
  match nodes !! key with Some (NInt n) => n | _ => 0 end.
Definition read_kp (nodes : gmap string FileNode) (key : string) : list KeyPoint :=
  match nodes !! key with Some (NKeyPoints l) => l | _ => [] end.
Definition read_mat (nodes : gmap string FileNode) (key : string) : Mat :=
  match nodes !! key with Some (NMat m) => m | _ => [] end.
Definition read_points (nodes : gmap string FileNode) (key : string) : list Point3f :=
  match nodes !! key with Some (NPoints l) => l | _ => [] end.

(** ** The collaborators *)

(** A mutating call on [graph_]. *)
Inductive GraphCall (T : Type) :=
| addEdge (from to : Z) (edge : T) (weight : Z)
| update.
Arguments addEdge {T}.
Arguments update {T}.

(** What [run] sends out: an error on the ROS log, the image topic, the
    three telemetry topics. *)
Inductive Output :=
| ROS_ERROR (msg : string)
| pub_lc_matchings
| pub_num_keyframes (n : Z)
| pub_num_lc (n : Z)
| pub_queue (n : Z).

(** Everything [loop_closing.cpp] uses and does not define.
    - [Transform] is [tf::Transform] with its product and inverse;
    - the reading half of the [Graph] interface;
    - OpenCV: the descriptor distance of the matcher, [solvePnPRansac]
      (camera matrix, 100 iterations and 5.0 px fixed by the call site; it
      returns [rvec], [tvec] and the inlier indices), [std::sort];
    - [Tools::buildTransformation];
    - the haloc hash object;
    - the constants of the headers;
    - the answer of [fs::create_directory] for a path, once [run] has
      removed what was there, and the subscriber counts of the topics. *)
Record External := {
  Transform : Type;
  tf_mul : Transform → Transform → Transform;
  tf_inverse : Transform → Transform;
  tf_default : Transform;

  findClosestVertices : Z → Z → Z → Z → list Z;
  getFrameVertices : Z → list Z;
  getVertexFrameId : Z → Z;
  getVertexPose : Z → Transform;
  getVertexPoseRelativeToCamera : Z → Transform;
  getVertexCameraPose : Z → Transform;
  getFrameNum : Z;

  norm : list Z → list Z → Q;
  solvePnPRansac : list Point3f → list Point2f → Z → list Q * list Q * list Z;
  buildTransformation : list Q → list Q → Transform;
  std_sort : (Z * Q → Z * Q → bool) → list (Z * Q) → list (Z * Q);

  Hash : Type;
  hash_isInitialized : Hash → bool;
  hash_init : Hash → Mat → Hash;
  hash_getHash : Hash → Mat → list Q;
  hash_match : Hash → list Q → list Q → Q;

  WORKING_DIRECTORY : string;
  LC_DISCARD_WINDOW : Z;
  LC_NEIGHBORS : Z;
  LC_MIN_INLIERS : nat;
  LC_MAX_INLIERS : Z;

  create_directory : string → bool;
  getNumSubscribers : string → Z
}.

(** ** The state of the loop-closing thread *)

(** The members of [LoopClosing] the modelled functions touch, the files
    of [execution_dir_] ([store], keyed by cluster id as the file names
    are), whether that directory exists, and the mutating calls issued on
    the shared graph so far, oldest first. *)
Record LoopClosing (E : External) := mkLoopClosing {
  cluster_queue_ : list (Cluster (Transform E));
  c_cluster_ : Cluster (Transform E);
  hash_ : Hash E;
  hash_table_ : list (Z * list Q);
  lc_found_ : list (Z * Z);
  num_loop_closures_ : Z;
  execution_dir_ok : bool;
  store : gmap Z File;
  graph_log : list (GraphCall (Transform E))
}.
Arguments mkLoopClosing {E}.
Arguments cluster_queue_ {E}.
Arguments c_cluster_ {E}.
Arguments hash_ {E}.
Arguments hash_table_ {E}.
Arguments lc_found_ {E}.
Arguments num_loop_closures_ {E}.
Arguments execution_dir_ok {E}.
Arguments store {E}.
Arguments graph_log {E}.

Section Model.

Variable E : External.

Abbreviation T := (Transform E).

(** ** Tools::ratioMatching *)

Definition Qlt_bool (x y : Q) : bool := negb (Qle_bool y x).

(** The nearest and the second nearest of the distances [ds], scanned from
    index [i]: index and distance of the best so far, and the distance of
    the runner-up once two rows have been seen. *)
Fixpoint two_nearest (ds : list Q) (i : Z) (acc : option (Z * Q * option Q))
  : option (Z * Q * option Q) :=
  match ds with
  | [] => acc
  | d :: ds' =>
      two_nearest ds' (i + 1)
        (match acc with
         | None => Some (i, d, None)
         | Some (bi, bd, sd) =>
             if Qlt_bool d bd then Some (i, d, Some bd)
             else match sd with
                  | None => Some (bi, bd, Some d)
                  | Some s => if Qlt_bool d s then Some (bi, bd, Some d) else acc
                  end
         end)
  end.

(** Modelled from the spec: [Tools::ratioMatching] (tools.h is not under
    src/).  "Ratio-test descriptor matching ... a match is kept only if the
    best match distance is below 0.8x the second-best": every row of
    [desc_1], in order, is a query against the rows of [desc_2]; a query
    with no second-best has no match. *)
Fixpoint ratioMatching_from (i : Z) (desc_1 desc_2 : Mat) (ratio : Q) : list DMatch :=
  match desc_1 with
  | [] => []
  | q :: rest =>
      match two_nearest (map (norm E q) desc_2) 0 None with
      | Some (bi, bd, Some sd) =>
          if Qlt_bool bd (ratio * sd) then [mkDMatch i bi bd] else []
      | _ => []
      end ++ ratioMatching_from (i + 1) rest desc_2 ratio
  end.

Definition ratioMatching (desc_1 desc_2 : Mat) (ratio : Q) : list DMatch :=
  ratioMatching_from 0 desc_1 desc_2 ratio.

(** ** The cluster store: readCluster and processNewCluster *)

(** Modelled from the spec: the default constructor [Cluster()] (cluster.h
    is not under src/) builds "the empty sentinel": no keypoints, no
    descriptor rows, no points.  The two ids of the sentinel are not
    observed by anything below. *)
Definition Cluster_default : Cluster T :=
  mkCluster (-1) (-1) (tf_default E) [] [] [] [].

Definition readCluster (st : LoopClosing E) (id : Z) : Cluster T :=
  match store st !! id with
  | None => Cluster_default
  | Some Unreadable => Cluster_default
  | Some (Yaml fs) =>
      let frame_id := read_int fs "frame_id" in
      let desc := read_mat fs "desc" in
      let points := read_points fs "points" in
      let kp := read_kp fs "kp" in
      mkCluster id frame_id (getVertexCameraPose E id) kp desc [] points
  end.

Definition addClusterToQueue (st : LoopClosing E) (cluster : Cluster T) : LoopClosing E :=
  mkLoopClosing (cluster_queue_ st ++ [cluster]) (c_cluster_ st) (hash_ st)
    (hash_table_ st) (lc_found_ st) (num_loop_closures_ st)
    (execution_dir_ok st) (store st) (graph_log st).

Definition checkNewClusterInQueue (st : LoopClosing E) : bool :=
  match cluster_queue_ st with [] => false | _ => true end.

(** The file [processNewCluster] writes for a cluster. *)
Definition cluster_file (c : Cluster T) : File :=
  Yaml (<["points" := NPoints (getPoints c)]>
       (<["desc" := NMat (getLdb c)]>
       (<["kp" := NKeyPoints (getKp c)]>
       (<["frame_id" := NInt (getFrameId c)]> ∅)))).

(** [None]: [front()] of an empty queue, or a [cv::FileStorage] that could
    not be opened for writing because [execution_dir_] does not exist (what
    [write] does on it is not this program's to say). *)
Definition processNewCluster (st : LoopClosing E) : option (LoopClosing E) :=
  match cluster_queue_ st with
  | [] => None
  | c :: queue =>
      let hash := if hash_isInitialized E (hash_ st) then hash_ st
                  else hash_init E (hash_ st) (getSift c) in
      let hash_table := hash_table_ st ++ [(getId c, hash_getHash E hash (getSift c))] in
      if execution_dir_ok st then
        Some (mkLoopClosing queue c hash hash_table (lc_found_ st)
                (num_loop_closures_ st) true
                (<[getId c := cluster_file c]> (store st)) (graph_log st))
      else None
  end.

(** ** The geometric verifier: closeLoopWithCluster *)

(** Stage 1.  [round(100.0 * (float) matches / (float) min(size_c, size_n))]
    stored in an [int].  Counts below 2^24 are exact as [float], and the
    [double] quotient of such counts lies on the same side of every
    half-integer as the exact quotient, so the rounded value is the one
    computed here.  With a zero minimum the quotient is 0/0, a NaN, whose
    conversion to [int] is undefined: [None]. *)
Definition m_percentage (n_matches : nat) (size_c size_n : Z) : option Z :=
  if Z.min size_c size_n =? 0 then None
  else Some (c_round (100 * inject_Z (Z.of_nat n_matches)
                      / inject_Z (Z.min size_c size_n))).

(** The enlarged candidate pool and the enlarged current-frame pool of
    stage 2; the fields are the local variables of the source. *)
Record CandidatePool := mkCandidatePool {
  all_candidate_desc : Mat;
  cluster_candidate_list : list Z;
  all_candidate_points : list Point3f;
  all_candidate_kp : list KeyPoint
}.

Record FramePool := mkFramePool {
  all_frame_desc : Mat;
  all_frame_kp : list KeyPoint;
  cluster_frame_list : list Z
}.

(** One round of the loop over [candidate_neighbors]. *)
Definition add_candidate_neighbor (st : LoopClosing E) (acc : CandidatePool) (j : Z)
  : CandidatePool :=
  let candidate_neighbor := readCluster st j in
  let c_n_desc := getLdb candidate_neighbor in
  if rows c_n_desc =? 0 then acc
  else
    let points_tmp := getWorldPoints candidate_neighbor in
    let kp_tmp := getKp candidate_neighbor in
    mkCandidatePool
      (all_candidate_desc acc ++ c_n_desc)
      (cluster_candidate_list acc ++ replicate (length points_tmp) (getId candidate_neighbor))
      (all_candidate_points acc ++ points_tmp)
      (all_candidate_kp acc ++ kp_tmp).

Definition candidate_pool (st : LoopClosing E) (candidate : Cluster T) : CandidatePool :=
  let init :=
    mkCandidatePool (getLdb candidate)
      (replicate (length (getWorldPoints candidate)) (getId candidate))
      (getWorldPoints candidate) (getKp candidate) in
  let candidate_neighbors :=
    findClosestVertices E (getId candidate) (getId (c_cluster_ st))
      (LC_DISCARD_WINDOW E) (LC_NEIGHBORS E) in
  fold_left (add_candidate_neighbor st) candidate_neighbors init.

(** One round of the loop over [frame_clusters]. *)
Definition add_frame_cluster (st : LoopClosing E) (acc : FramePool) (j : Z) : FramePool :=
  if j =? getId (c_cluster_ st) then acc
  else
    let frame_cluster := readCluster st j in
    let f_n_desc := getLdb frame_cluster in
    if rows f_n_desc =? 0 then acc
    else
      let frame_n_kp := getKp frame_cluster in
      mkFramePool
        (all_frame_desc acc ++ f_n_desc)
        (all_frame_kp acc ++ frame_n_kp)
        (cluster_frame_list acc ++ replicate (length frame_n_kp) (getId frame_cluster)).

Definition frame_pool (st : LoopClosing E) : FramePool :=
  let c := c_cluster_ st in
  let init :=
    mkFramePool (getLdb c) (getKp c) (replicate (length (getKp c)) (getId c)) in
  fold_left (add_frame_cluster st) (getFrameVertices E (getFrameId c)) init.

(** "Store matchings": the five vectors filled from [matches_2]. *)
Record Matchings := mkMatchings {
  frame_matchings : list Z;
  candidate_matchings : list Z;
  matched_kp : list Point2f;
  matched_candidate_kp : list Point2f;
  matched_points : list Point3f
}.

Fixpoint store_matchings (fp : FramePool) (cp : CandidatePool) (matches_2 : list DMatch)
  : option Matchings :=
  match matches_2 with
  | [] => Some (mkMatchings [] [] [] [] [])
  | m :: rest =>
      kq ← at_ (all_frame_kp fp) (queryIdx m);
      p ← at_ (all_candidate_points cp) (trainIdx m);
      kt ← at_ (all_candidate_kp cp) (trainIdx m);
      f ← at_ (cluster_frame_list fp) (queryIdx m);
      c ← at_ (cluster_candidate_list cp) (trainIdx m);
      r ← store_matchings fp cp rest;
      Some (mkMatchings (f :: frame_matchings r) (c :: candidate_matchings r)
              (pt kq :: matched_kp r) (pt kt :: matched_candidate_kp r)
              (p :: matched_points r))
  end.

(** Stage 5.  [cluster_pairs] and [inliers_per_pair] grow in lockstep in the
    source; an entry here is a pair (frame cluster, candidate cluster) with
    its count.  [vote] is the body of the loop: the first equal pair is
    incremented, a new pair is pushed at the back with count 1. *)
Fixpoint vote (frame_cluster candidate_cluster : Z) (pairs : list (Z * Z * Z))
  : list (Z * Z * Z) :=
  match pairs with
  | [] => [(frame_cluster, candidate_cluster, 1)]
  | (f, c, n) :: rest =>
      if (f =? frame_cluster) && (c =? candidate_cluster)
      then (f, c, n + 1) :: rest
      else (f, c, n) :: vote frame_cluster candidate_cluster rest
  end.

Fixpoint inliers_per_cluster_pair (m : Matchings) (inliers : list Z)
    (pairs : list (Z * Z * Z)) : option (list (Z * Z * Z)) :=
  match inliers with
  | [] => Some pairs
  | i :: rest =>
      frame_cluster ← at_ (frame_matchings m) i;
      candidate_cluster ← at_ (candidate_matchings m) i;
      inliers_per_cluster_pair m rest (vote frame_cluster candidate_cluster pairs)
  end.

(** Stage 6, "Add the corresponding edges". *)
Definition push_edge (st : LoopClosing E) (frame_cluster candidate_cluster n : Z)
    (edge_1 : T) : LoopClosing E :=
  mkLoopClosing (cluster_queue_ st) (c_cluster_ st) (hash_ st) (hash_table_ st)
    (lc_found_ st ++ [(frame_cluster, candidate_cluster)])
    (num_loop_closures_ st) (execution_dir_ok st) (store st)
    (graph_log st ++ [addEdge candidate_cluster frame_cluster edge_1 n]).

Fixpoint add_edges (estimated_transform : T) (pairs : list (Z * Z * Z))
    (st : LoopClosing E) : LoopClosing E :=
  match pairs with
  | [] => st
  | (f, c, n) :: rest =>
      if 5 <=? n then
        let candidate_cluster_pose := getVertexPose E c in
        let frame_cluster_pose_relative_to_camera := getVertexPoseRelativeToCamera E f in
        let edge_1 :=
          tf_mul E (tf_mul E (tf_inverse E candidate_cluster_pose) estimated_transform)
            frame_cluster_pose_relative_to_camera in
        add_edges estimated_transform rest (push_edge st f c n edge_1)
      else add_edges estimated_transform rest st
  end.

(** The end of a verification that passed the three gates: one more image
    written, and [graph_->update()]. *)
Definition finish_loop (st : LoopClosing E) : LoopClosing E :=
  mkLoopClosing (cluster_queue_ st) (c_cluster_ st) (hash_ st) (hash_table_ st)
    (lc_found_ st) (num_loop_closures_ st + 1) (execution_dir_ok st) (store st)
    (graph_log st ++ [update]).

(** [const float matching_th = 0.8]. *)
Definition matching_th : Q := 8 # 10.

(** The verifier.  The composition of the image of the matchings, between
    the insertion of the edges and [update], reads keyframe images and
    writes to the image sink only; it is left out, and with it the vector
    [candidate_kfs] that stage 5 fills for it.  [None] is a percentage over
    zero rows or an index out of its vector. *)
Definition closeLoopWithCluster (st : LoopClosing E) (candidate : Cluster T)
  : option (bool * LoopClosing E) :=
  let matches_1 := ratioMatching (getLdb (c_cluster_ st)) (getLdb candidate) matching_th in
  let size_c := rows (getLdb (c_cluster_ st)) in
  let size_n := rows (getLdb candidate) in
  m_percentage ← m_percentage (length matches_1) size_c size_n;
  if 35 <? m_percentage then
    let cp := candidate_pool st candidate in
    let fp := frame_pool st in
    let matches_2 := ratioMatching (all_frame_desc fp) (all_candidate_desc cp) matching_th in
    if (LC_MIN_INLIERS E <=? length matches_2)%nat then
      m ← store_matchings fp cp matches_2;
      let '(rvec, tvec, inliers) :=
        solvePnPRansac E (matched_points m) (matched_kp m) (LC_MAX_INLIERS E) in
      if (LC_MIN_INLIERS E <=? length inliers)%nat then
        let estimated_transform := tf_inverse E (buildTransformation E rvec tvec) in
        pairs ← inliers_per_cluster_pair m inliers [];
        Some (true, finish_loop (add_edges estimated_transform pairs st))
      else Some (false, st)
    else Some (false, st)
  else Some (false, st).

(** ** Candidate search *)

(** The loop of [searchByProximity] and of [searchByHash] over the ids of
    their candidates: an empty cluster is skipped, any other is verified. *)
Fixpoint verify_candidates (ids : list Z) (st : LoopClosing E) : option (LoopClosing E) :=
  match ids with
  | [] => Some st
  | id :: rest =>
      let candidate := readCluster st id in
      if rows (getLdb candidate) =? 0 then verify_candidates rest st
      else
        '(valid, st') ← closeLoopWithCluster st candidate;
        verify_candidates rest st'
  end.

Definition searchByProximity (st : LoopClosing E) : option (LoopClosing E) :=
  let candidate_neighbors :=
    findClosestVertices E (getId (c_cluster_ st)) (getId (c_cluster_ st))
      (LC_DISCARD_WINDOW E) 3 in
  verify_candidates candidate_neighbors st.

(** Modelled from the spec: [Tools::sortByMatching] (tools.h is not under
    src/), the comparator of the [sort] in [getCandidates]: "rank descending
    by similarity". *)
Definition sortByMatching (d1 d2 : Z * Q) : bool := Qlt_bool (d2.2) (d1.2).

(** The ids [getCandidates] will not propose again for [cluster_id]. *)
Definition no_candidates_of (lc_found : list (Z * Z)) (cluster_id : Z) : list Z :=
  flat_map (fun lc =>
    (if lc.1 =? cluster_id then [lc.2] else []) ++
    (if lc.2 =? cluster_id then [lc.1] else [])) lc_found.

(** One round of the loop over [hash_table_]. *)
Definition hash_matching (st : LoopClosing E) (cluster_id : Z) (no_candidates : list Z)
    (hash_q : list Q) (entry : Z * list Q) : list (Z * Q) :=
  if (cluster_id - LC_DISCARD_WINDOW E <? entry.1) && (entry.1 <? cluster_id + LC_DISCARD_WINDOW E)
  then []
  else if entry.1 =? cluster_id then []
  else if bool_decide (entry.1 ∈ no_candidates) then []
  else [(entry.1, hash_match E (hash_ st) hash_q entry.2)].

(** [None]: [hash_table_[cluster_id]] is outside the table. *)
Definition getCandidates (st : LoopClosing E) (cluster_id : Z) : option (list (Z * Q)) :=
  if Z.of_nat (length (hash_table_ st)) <=? LC_DISCARD_WINDOW E then Some []
  else
    let no_candidates := no_candidates_of (lc_found_ st) cluster_id in
    q ← at_ (hash_table_ st) cluster_id;
    let hash_q := q.2 in
    let all_matchings :=
      flat_map (hash_matching st cluster_id no_candidates hash_q) (hash_table_ st) in
    let sorted := std_sort E sortByMatching all_matchings in
    Some (take 5 sorted).

Definition searchByHash (st : LoopClosing E) : option (LoopClosing E) :=
  hash_matching ← getCandidates st (getId (c_cluster_ st));
  verify_candidates (map fst hash_matching) st.

(** ** The driver: run *)

Definition create_directory_error : string :=
  "[Localization:] ERROR -> Impossible to create the loop_closing directory.".

Definition execution_dir : string := WORKING_DIRECTORY E +:+ "haloc".
Definition loop_closures_dir : string := WORKING_DIRECTORY E +:+ "loop_closures".

(** "Init": the two directories, the counter, the first image. *)
Definition run_init (st : LoopClosing E) : LoopClosing E * list Output :=
  let created_1 := create_directory E execution_dir in
  let out_1 := if negb created_1 then [ROS_ERROR create_directory_error] else [] in
  let created_2 := create_directory E loop_closures_dir in
  let out_2 := if negb created_2 then [ROS_ERROR create_directory_error] else [] in
  (mkLoopClosing (cluster_queue_ st) (c_cluster_ st) (hash_ st) (hash_table_ st)
     (lc_found_ st) 0 created_1 ∅ (graph_log st),
   out_1 ++ out_2 ++ [pub_lc_matchings]).

(** "Process new frame". *)
Definition process_new_frame (st : LoopClosing E) : option (LoopClosing E) :=
  if checkNewClusterInQueue st then
    st1 ← processNewCluster st;
    st2 ← searchByProximity st1;
    searchByHash st2
  else Some st.

(** "Publish loop closing information". *)
Definition publish_info (st : LoopClosing E) : list Output :=
  (if 0 <? getNumSubscribers E "keyframes"
   then [pub_num_keyframes (getFrameNum E)] else []) ++
  (if 0 <? getNumSubscribers E "loop_closings"
   then [pub_num_lc (Z.of_nat (length (lc_found_ st)))] else []) ++
  (if 0 <? getNumSubscribers E "loop_closing_queue"
   then [pub_queue (Z.of_nat (length (cluster_queue_ st)))] else []).

(** The loop, one round per time [ros::ok()] holds.  [arrivals] gives, for
    each round, the clusters the producer thread has pushed since the
    round before; the mutex makes each push atomic. *)
Fixpoint run_loop (arrivals : list (list (Cluster T))) (st : LoopClosing E)
    (out : list Output) : option (LoopClosing E * list Output) :=
  match arrivals with
  | [] => Some (st, out)
  | pushed :: later =>
      st1 ← process_new_frame (fold_left addClusterToQueue pushed st);
      run_loop later st1 (out ++ publish_info st1)
  end.

Definition run (arrivals : list (list (Cluster T))) (st : LoopClosing E)
  : option (LoopClosing E * list Output) :=
  let '(st0, out) := run_init st in
  run_loop arrivals st0 out.

End Model.

Arguments readCluster {E}.
Arguments addClusterToQueue {E}.
Arguments checkNewClusterInQueue {E}.
Arguments processNewCluster {E}.
Arguments cluster_file {E}.
Arguments candidate_pool {E}.
Arguments frame_pool {E}.
Arguments add_edges {E}.
Arguments push_edge {E}.
Arguments finish_loop {E}.
Arguments closeLoopWithCluster {E}.
Arguments verify_candidates {E}.
Arguments searchByProximity {E}.
Arguments hash_matching {E}.
Arguments getCandidates {E}.
Arguments searchByHash {E}.
Arguments run_init {E}.
Arguments process_new_frame {E}.
Arguments publish_info {E}.
Arguments run_loop {E}.
Arguments run {E}.

(** ** What the program expects of its collaborators *)

(** [std::sort] with a comparator: a rearrangement of its input in which
    no element must come before one that precedes it.  The order of
    equivalent elements is left open, as in C++. *)
Definition std_sort_spec (E : External) (comp : Z * Q → Z * Q → bool) : Prop :=
  ∀ l, std_sort E comp l ≡ₚ l ∧
       StronglySorted (λ a b, comp b a = false) (std_sort E comp l).

(** Cluster ids are the positions of their entries in [hash_table_]. *)
Definition dense (hash_table : list (Z * list Q)) : Prop :=
  ∀ i e, hash_table !! i = Some e → e.1 = Z.of_nat i.

(** The discard window around [cluster_id], as [getCandidates] tests it. *)
Definition in_discard_window (E : External) (cluster_id id : Z) : Prop :=
  cluster_id - LC_DISCARD_WINDOW E < id ∧ id < cluster_id + LC_DISCARD_WINDOW E.

(** [a] and [b] are recorded as a loop closure, in either order. *)
Definition recorded (lc_found : list (Z * Z)) (a b : Z) : Prop :=
  (a, b) ∈ lc_found ∨ (b, a) ∈ lc_found.

(** The number of inliers of [m] that pair frame cluster [f] with candidate
    cluster [c]; an inlier outside the matchings supports no pair. *)
Definition supports (m : Matchings) (f c : Z) (i : Z) : bool :=
  match at_ (frame_matchings m) i, at_ (candidate_matchings m) i with
  | Some f', Some c' => (f' =? f) && (c' =? c)
  | _, _ => false
  end.

Definition supporting_inliers (m : Matchings) (inliers : list Z) (f c : Z) : Z :=
  Z.of_nat (length (filter (λ i, supports m f c i = true) inliers)).

(** ** The stages of a verification, named *)

Section Stages.

Variable E : External.

Implicit Types (st : LoopClosing E) (candidate : Cluster (Transform E)).

(** [m_percentage] of stage 1. *)
Definition stage1_percentage st candidate : option Z :=
  m_percentage
    (length (ratioMatching E (getLdb (c_cluster_ st)) (getLdb candidate) matching_th))
    (rows (getLdb (c_cluster_ st))) (rows (getLdb candidate)).

(** [matches_2] of stage 3, and the vectors stored from it. *)
Definition stage3_matches st candidate : list DMatch :=
  ratioMatching E (all_frame_desc (frame_pool st))
    (all_candidate_desc (candidate_pool st candidate)) matching_th.

Definition stage3_matchings st candidate : option Matchings :=
  store_matchings (frame_pool st) (candidate_pool st candidate)
    (stage3_matches st candidate).

(** The call of stage 4. *)
Definition stage4_ransac (m : Matchings) : list Q * list Q * list Z :=
  solvePnPRansac E (matched_points m) (matched_kp m) (LC_MAX_INLIERS E).

Definition passes_stage1 st candidate : Prop :=
  ∃ p, stage1_percentage st candidate = Some p ∧ 35 < p.

(** The verification passes its three gates, with these matchings, this
    RANSAC output and these votes. *)
Definition reaches_stage6 st candidate (m : Matchings) (rvec tvec : list Q)
    (inliers : list Z) (pairs : list (Z * Z * Z)) : Prop :=
  passes_stage1 st candidate ∧
  (LC_MIN_INLIERS E ≤ length (stage3_matches st candidate))%nat ∧
  stage3_matchings st candidate = Some m ∧
  stage4_ransac m = (rvec, tvec, inliers) ∧
  (LC_MIN_INLIERS E ≤ length inliers)%nat ∧
  inliers_per_cluster_pair m inliers [] = Some pairs.

(** The verification stops at one of its three gates. *)
Definition abandons st candidate : Prop :=
  (∃ p, stage1_percentage st candidate = Some p ∧ p ≤ 35) ∨
  (passes_stage1 st candidate ∧
   (length (stage3_matches st candidate) < LC_MIN_INLIERS E)%nat) ∨
  (passes_stage1 st candidate ∧
   (LC_MIN_INLIERS E ≤ length (stage3_matches st candidate))%nat ∧
   ∃ m, stage3_matchings st candidate = Some m ∧
        (length (stage4_ransac m).2 < LC_MIN_INLIERS E)%nat).

(** The percentage is taken over zero rows, or a match or an inlier points
    outside the vectors it indexes. *)
Definition undefined_behaviour st candidate : Prop :=
  stage1_percentage st candidate = None ∨
  (passes_stage1 st candidate ∧
   (LC_MIN_INLIERS E ≤ length (stage3_matches st candidate))%nat ∧
   (stage3_matchings st candidate = None ∨
    ∃ m, stage3_matchings st candidate = Some m ∧
         (LC_MIN_INLIERS E ≤ length (stage4_ransac m).2)%nat ∧
         inliers_per_cluster_pair m (stage4_ransac m).2 [] = None)).

(** The edge of stage 6 between frame cluster [f] and candidate cluster
    [c]. *)
Definition edge_transform (estimated_transform : Transform E) (f c : Z) : Transform E :=
  tf_mul E (tf_mul E (tf_inverse E (getVertexPose E c)) estimated_transform)
    (getVertexPoseRelativeToCamera E f).

(** The calls and the records of stage 6 for the votes [pairs]. *)
Definition new_edges (estimated_transform : Transform E) (pairs : list (Z * Z * Z))
  : list (GraphCall (Transform E)) :=
  flat_map (λ p, if 5 <=? p.2
                 then [addEdge p.1.2 p.1.1 (edge_transform estimated_transform p.1.1 p.1.2) p.2]
                 else []) pairs.

Definition new_records (pairs : list (Z * Z * Z)) : list (Z * Z) :=
  flat_map (λ p, if 5 <=? p.2 then [p.1] else []) pairs.

(** The votes a list of pairs holds for the pair [(f, c)]. *)
Definition tally (pairs : list (Z * Z * Z)) (f c : Z) : Z :=
  foldr (λ p acc, (if (p.1.1 =? f) && (p.1.2 =? c) then p.2 else 0) + acc) 0 pairs.

End Stages.

Arguments stage1_percentage {E}.
Arguments stage3_matches {E}.
Arguments stage3_matchings {E}.
Arguments reaches_stage6 {E}.
Arguments abandons {E}.
Arguments undefined_behaviour {E}.
Arguments passes_stage1 {E}.

(** A message on the queue-depth topic. *)
Definition is_pub_queue (o : Output) : bool :=
  match o with pub_queue _ => true | _ => false end.

(** ** A small world to run the program in *)

(** Descriptors are rows of bits under the Hamming distance, transforms
    are translations along a line, RANSAC accepts every correspondence,
    the hash of a cluster is the number of rows hashed and two hashes are
    the more similar the closer they are. *)
Definition hamming (a b : list Z) : Q :=
  inject_Z (Z.of_nat (length (filter (λ p, negb (p.1 =? p.2)) (zip a b)))).

Fixpoint insert_by {A : Type} (comp : A → A → bool) (x : A) (l : list A) : list A :=
  match l with
  | [] => [x]
  | y :: l' => if comp x y then x :: y :: l' else y :: insert_by comp x l'
  end.

Definition insertion_sort {A : Type} (comp : A → A → bool) (l : list A) : list A :=
  foldr (insert_by comp) [] l.

Definition demo_match (a b : list Q) : Q :=
  match a, b with
  | x :: _, y :: _ => - Qabs (x - y)
  | _, _ => 0
  end.

Definition demo (W : Z) (min_inliers : nat) (closest : Z → list Z) (created : bool)
  : External :=
  {| Transform := Z;
     tf_mul := Z.add;
     tf_inverse := Z.opp;
     tf_default := 0;
     findClosestVertices := λ v _ _ _, closest v;
     getFrameVertices := λ _, [];
     getVertexFrameId := λ v, v;
     getVertexPose := λ v, 10 * v;
     getVertexPoseRelativeToCamera := λ _, 1;
     getVertexCameraPose := λ v, 10 * v - 1;
     getFrameNum := 0;
     norm := hamming;
     solvePnPRansac := λ points _ _, ([], [], seqZ 0 (Z.of_nat (length points)));
     buildTransformation := λ _ _, 3;
     std_sort := insertion_sort;
     Hash := bool;
     hash_isInitialized := λ h, h;
     hash_init := λ _ _, true;
     hash_getHash := λ _ m, [inject_Z (rows m)];
     hash_match := λ _, demo_match;
     WORKING_DIRECTORY := "/tmp/";
     LC_DISCARD_WINDOW := W;
     LC_NEIGHBORS := 2;
     LC_MIN_INLIERS := min_inliers;
     LC_MAX_INLIERS := 100;
     create_directory := λ _, created;
     getNumSubscribers := λ _, 1 |}.

(** Row [i] of the 12-bit identity: distinct rows are at distance 2. *)
Definition bit_row (i : nat) : list Z := <[i := 1]> (replicate 12 0).

Definition demo_kp (i : nat) : KeyPoint :=
  mkKeyPoint (mkPoint2f (inject_Z (Z.of_nat i)) 0).
Definition demo_point (i : nat) : Point3f :=
  mkPoint3f (inject_Z (Z.of_nat i)) 0 1.

(** The cluster [id] of frame [frame] that saw the features [features]. *)
Definition demo_cluster (id frame : Z) (features : list nat) : Cluster Z :=
  mkCluster id frame (10 * id - 1) (map demo_kp features) (map bit_row features)
    (map bit_row features) (map demo_point features).

(** A thread that has [c] as current cluster and the files of [stored]. *)
Definition demo_state (E : External) (c : Cluster (Transform E)) (hash : Hash E)
    (hash_table : list (Z * list Q)) (lc_found : list (Z * Z))
    (stored : list (Cluster (Transform E))) : LoopClosing E :=
  mkLoopClosing [] c hash hash_table lc_found 0 true
    (list_to_map (map (λ s, (getId s, cluster_file s)) stored)) [].

(** A revisit.  Cluster 12, of frame 7, sees ten features; half of them
    were seen by cluster 0 and the other half by cluster 1, long before.
    The graph finds 0 and 1 close to 12 and close to each other; the table
    holds the hashes of clusters 0 to 12; nothing is recorded yet. *)
Definition revisit_closest (v : Z) : list Z :=
  if v =? 12 then [0; 1] else if v =? 0 then [1] else if v =? 1 then [0] else [].

Definition revisit_world : External := demo 10 6 revisit_closest true.

Definition cluster_12 : Cluster Z := demo_cluster 12 7 [0; 1; 2; 3; 4; 5; 6; 7; 8; 9]%nat.
Definition cluster_0 : Cluster Z := demo_cluster 0 0 [0; 1; 2; 3; 4]%nat.
Definition cluster_1 : Cluster Z := demo_cluster 1 0 [5; 6; 7; 8; 9]%nat.

Definition demo_table (n : nat) : list (Z * list Q) :=
  map (λ i, (Z.of_nat i, [inject_Z (Z.of_nat (i mod 7))])) (seq 0 n).

Definition revisit : LoopClosing revisit_world :=
  demo_state revisit_world cluster_12 true (demo_table 13) [] [cluster_0; cluster_1].

(** The same place seen with six features only, three in each old
    cluster. *)
Definition faint_revisit : LoopClosing revisit_world :=
  demo_state revisit_world (demo_cluster 12 7 [0; 1; 2; 3; 4; 5]%nat) true (demo_table 13) []
    [demo_cluster 0 0 [0; 1; 2]%nat; demo_cluster 1 0 [3; 4; 5]%nat].

(** A current cluster whose three rows all match the first of the two rows
    of the candidate. *)
Definition repetitive : LoopClosing revisit_world :=
  demo_state revisit_world (demo_cluster 12 7 [0; 0; 0]%nat) true (demo_table 13) [] [].

Definition two_rows : Cluster Z := demo_cluster 0 0 [0; 1]%nat.

(** Scenario C of the spec: cluster 500 of 600, window 50, two pairs
    already recorded with 500. *)
Definition scenario_C_world : External := demo 50 6 (λ _, []) true.

Definition scenario_C : LoopClosing scenario_C_world :=
  demo_state scenario_C_world (demo_cluster 500 250 [0]%nat) true (demo_table 600)
    [(500, 3); (7, 500)] [].

(** Two clusters processed, window 2. *)
Definition short_history_world : External := demo 2 6 (λ _, []) true.

Definition short_history : LoopClosing short_history_world :=
  demo_state short_history_world (demo_cluster 1 1 [1]%nat) true (demo_table 2) [] [].

(** A start on storage where no directory can be created. *)
Definition read_only_world : External := demo 10 6 (λ _, []) false.

Definition fresh_start (E : External) (c : Cluster (Transform E)) (hash : Hash E)
  : LoopClosing E :=
  mkLoopClosing [] c hash [] [] 0 false ∅ [].

(** Cluster 12 arrives: twelve clusters are in the table, it is queued. *)
Definition arrival : LoopClosing revisit_world :=
  addClusterToQueue
    (demo_state revisit_world (demo_cluster 11 6 [0]%nat) true (demo_table 12) [] [])
    cluster_12.

(** Cluster 13, the next one the producer pushes. *)
Definition cluster_13 : Cluster Z := demo_cluster 13 8 [1]%nat.

(** A revisit where the six features of cluster 12 were all seen by
    cluster 0, the only cluster on file. *)
Definition plain_revisit : LoopClosing revisit_world :=
  demo_state revisit_world (demo_cluster 12 7 [0; 1; 2; 3; 4; 5]%nat) true (demo_table 13) []
    [demo_cluster 0 0 [0; 1; 2; 3; 4; 5]%nat].

(** ** The rest of loop_closing.cpp *)

(** What [isInFrustum] asks of the camera: [camera_model_.fullResolution()]
    (width, height), [Tools::transformPoint] and
    [camera_model_.project3dToPixel], for points whose pixel coordinates
    are finite. *)
Record Camera (E : External) := mkCamera {
  fullResolution : Z * Z;
  transformPoint : Point3f → Transform E → Point3f;
  project3dToPixel : Point3f → Q * Q
}.
Arguments fullResolution {E}.
Arguments transformPoint {E}.
Arguments project3dToPixel {E}.

Section Frustum.

Variable E : External.
Variable camera_model_ : Camera E.

Definition isInFrustum (point : Point3f) (camera_pose : Transform E) : bool :=
  let res := fullResolution camera_model_ in
  let p_camera := transformPoint camera_model_ point (tf_inverse E camera_pose) in
  let pixels := project3dToPixel camera_model_ p_camera in
  if Qlt_bool pixels.1 0 || Qlt_bool (inject_Z res.1) pixels.1 then false
  else if Qlt_bool pixels.2 0 || Qlt_bool (inject_Z res.2) pixels.2 then false
  else true.

(** The loop of [filterByFrustum] from index [i] on, with the outputs
    filled so far.  [None]: [desc.row(i)] past the last row. *)
Fixpoint filterByFrustum_from (i : Z) (desc : Mat) (points : list Point3f)
    (camera_pose : Transform E) (out_desc : Mat) (out_points : list Point3f)
  : option (Mat * list Point3f) :=
  match points with
  | [] => Some (out_desc, out_points)
  | p :: rest =>
      if isInFrustum p camera_pose then
        row ← at_ desc i;
        filterByFrustum_from (i + 1) desc rest camera_pose
          (out_desc ++ [row]) (out_points ++ [p])
      else filterByFrustum_from (i + 1) desc rest camera_pose out_desc out_points
  end.

Definition filterByFrustum (desc : Mat) (points : list Point3f)
    (camera_pose : Transform E) : option (Mat * list Point3f) :=
  filterByFrustum_from 0 desc points camera_pose [] [].

End Frustum.

Arguments isInFrustum {E}.
Arguments filterByFrustum_from {E}.
Arguments filterByFrustum {E}.

(** [finalize]: the scratch directory, when it is there, goes with its
    files. *)
Definition finalize {E : External} (st : LoopClosing E) : LoopClosing E :=
  if execution_dir_ok st then
    mkLoopClosing (cluster_queue_ st) (c_cluster_ st) (hash_ st) (hash_table_ st)
      (lc_found_ st) (num_loop_closures_ st) false ∅ (graph_log st)
  else st.

(** The clusters [cs] carry the ids [start], [start + 1], ... in order. *)
Definition numbered_from {T : Type} (start : nat) (cs : list (Cluster T)) : Prop :=
  ∀ i c, cs !! i = Some c → getId c = Z.of_nat (start + i).

(** Readings of the log of graph calls. *)
Definition is_addEdge {T : Type} (call : GraphCall T) : bool :=
  match call with addEdge _ _ _ _ => true | update => false end.

Definition call_weight {T : Type} (call : GraphCall T) : Z :=
  match call with addEdge _ _ _ weight => weight | update => 0 end.

(** The sum of the votes of a list of pairs. *)
Definition total_votes (pairs : list (Z * Z * Z)) : Z :=
  foldr (λ p acc, p.2 + acc) 0 pairs.

(** The sum of the weights of the edges in a list of graph calls. *)
Definition total_weight {T : Type} (calls : list (GraphCall T)) : Z :=
  foldr (λ call acc, call_weight call + acc) 0 calls.

(** A camera for the small world: a point is seen at its x and y. *)
Definition demo_camera (E : External) : Camera E :=
  mkCamera E (640, 480) (λ p _, p) (λ p, (p3_x p, p3_y p)).

(** ** stereo_slam_base.cpp *)

Module Base.

(** The fields of [Params] the modelled functions read. *)
Record Params := mkParams {
  update_rate : Q;
  g2o_algorithm : Z;
  g2o_opt_max_iter : Z;
  g2o_verbose : bool;
  min_displacement : Q;
  matches_threshold : Z;
  files_path : string;
  save_graph_to_file : bool;
  save_graph_images : bool;
  map_frame_id : string
}.

(** An edge of the optimizer: an [EdgeSE3] between two vertex ids, or an
    edge the [dynamic_cast] of [saveGraph] turns down. *)
Inductive Edge :=
| EdgeSE3 (v0 v1 : Z)
| OtherEdge.

(** What the node does to the outside. *)
Inductive Action :=
| ROS_ERROR (msg : string)
| ROS_WARN (msg : string)
| ROS_INFO (msg : string)
| registerCallback
| advertise (topic : string)
| setAlgorithm (g2o_algorithm : Z)
| setVerbose (verbose : bool)
| PQexec (query : string)
| createWallTimer (period : Q)
| system (command : string)
| open_trunc (file : string)
| remove (file : string).

(** A line of graph_vertices.txt and a line of graph_edges.txt, as the
    values streamed into them; the printing of the numbers is left out. *)
Record VertexLine (T : Type) := mkVertexLine {
  vl_timestamp : Q;
  vl_index : Z;
  vl_frame_id : string;
  vl_pose : T
}.
Arguments mkVertexLine {T}.
Arguments vl_timestamp {T}.
Arguments vl_index {T}.
Arguments vl_frame_id {T}.
Arguments vl_pose {T}.

Record EdgeLine (T : Type) := mkEdgeLine {
  el_counter : Z;
  el_pose_0 : T;
  el_pose_1 : T
}.
Arguments mkEdgeLine {T}.
Arguments el_counter {T}.
Arguments el_pose_0 {T}.
Arguments el_pose_1 {T}.

(** The members of [StereoSlamBase] the modelled functions touch.  The
    vertices of [graph_optimizer_] are a map from vertex id to the pose
    [Utils::getVertexPose] reads off the vertex; its edges come in the
    order the edge set is iterated in. *)
Record Node (T : Type) := mkNode {
  params_ : Params;
  first_message_ : bool;
  first_vertex_ : bool;
  block_update_ : bool;
  block_insertion_ : bool;
  pose_history_ : list T;
  pose_history_stamp_ : list Q;
  vertices : gmap Z T;
  edges : list Edge
}.
Arguments mkNode {T}.
Arguments params_ {T}.
Arguments first_message_ {T}.
Arguments first_vertex_ {T}.
Arguments block_update_ {T}.
Arguments block_insertion_ {T}.
Arguments pose_history_ {T}.
Arguments pose_history_stamp_ {T}.
Arguments vertices {T}.
Arguments edges {T}.

(** What stereo_slam_base.cpp uses and does not define: the answers of the
    database, of the file system and of the publisher; [cv_bridge::toCvCopy]
    on the two images of a message ([false]: it throws); the member
    function [vertexInsertion], defined elsewhere, which may change the
    node; and [Utils::poseDiff]. *)
Record World (T : Type) := mkWorld {
  isConnected : bool;
  connection_ok : bool;
  PQerrorMessage : string;
  file_exists : string → bool;
  remove_fails : string → bool;
  getNumSubscribers : Z;
  toCvCopy_ok : bool;
  vertexInsertion : Node T → T → bool * Node T;
  poseDiff : T → T → Q
}.
Arguments mkWorld {T}.
Arguments isConnected {T}.
Arguments connection_ok {T}.
Arguments PQerrorMessage {T}.
Arguments file_exists {T}.
Arguments remove_fails {T}.
Arguments getNumSubscribers {T}.
Arguments toCvCopy_ok {T}.
Arguments vertexInsertion {T}.
Arguments poseDiff {T}.

(** [s[s.length() - 1]]; on the empty string the index is out of the
    string: [None]. *)
Definition last_char (s : string) : option ascii :=
  match String.length s with
  | O => None
  | S n => String.get n s
  end.

Section Functions.

Variable E : External.
Variable w : World (Transform E).

Abbreviation T := (Transform E).

Definition set_params (s : Node T) (p : Params) : Node T :=
  mkNode p (first_message_ s) (first_vertex_ s) (block_update_ s) (block_insertion_ s)
    (pose_history_ s) (pose_history_stamp_ s) (vertices s) (edges s).

Definition set_matches_threshold (p : Params) (n : Z) : Params :=
  mkParams (update_rate p) (g2o_algorithm p) (g2o_opt_max_iter p) (g2o_verbose p)
    (min_displacement p) n (files_path p) (save_graph_to_file p) (save_graph_images p)
    (map_frame_id p).

Definition set_files_path (p : Params) (path : string) : Params :=
  mkParams (update_rate p) (g2o_algorithm p) (g2o_opt_max_iter p) (g2o_verbose p)
    (min_displacement p) (matches_threshold p) path (save_graph_to_file p)
    (save_graph_images p) (map_frame_id p).

(** "Database initialization": whether the function goes on, and what it
    did. *)
Definition database_initialization : bool * list Action :=
  if negb (isConnected w) then
    (true, [ROS_ERROR "[StereoSlam:] Database failed to connect"])
  else if negb (connection_ok w) then
    (false,
     [ROS_INFO "[StereoSlam:] Database connected successfully!";
      ROS_ERROR ("[StereoSlam:] Database connection failed with error message: "
                 +:+ PQerrorMessage w)])
  else
    (true,
     [ROS_INFO "[StereoSlam:] Database connected successfully!";
      PQexec "DROP TABLE IF EXISTS graph";
      ROS_INFO "[StereoSlam:] graph table dropped successfully!";
      PQexec ("CREATE TABLE IF NOT EXISTS graph"
              +:+ "( " +:+ "id bigserial primary key, "
              +:+ "keypoints double precision[][], "
              +:+ "descriptors double precision[][], "
              +:+ "points3d double precision[][] " +:+ ")");
      ROS_INFO "[StereoSlam:] graph table created successfully!"]).

(** [initializeStereoSlam]: its return value, the node and what it did.
    [None]: the last character of an empty [files_path]. *)
Definition initializeStereoSlam (s : Node T) : option (bool * Node T * list Action) :=
  let p := params_ s in
  let s1 := mkNode p true true false false (pose_history_ s) (pose_history_stamp_ s)
              (vertices s) (edges s) in
  let acts1 := [registerCallback; advertise "slam_pose"] in
  if negb ((g2o_algorithm p =? 0) || (g2o_algorithm p =? 1)) then
    Some (false, s1,
          acts1 ++ [ROS_ERROR "[StereoSlam:] g2o_algorithm parameter must be 0 or 1."])
  else
    let acts2 := acts1 ++ [setAlgorithm (g2o_algorithm p); setVerbose (g2o_verbose p)] in
    let '(go_on, acts_db) := database_initialization in
    if negb go_on then Some (false, s1, acts2 ++ acts_db)
    else
      let acts3 := acts2 ++ acts_db ++ [createWallTimer (update_rate p)] in
      if matches_threshold p <? 5 then
        Some (false, set_params s1 (set_matches_threshold p 6),
              acts3 ++ [ROS_WARN
                "[StereoSlam:] Parameter 'matches_threshold' must be greater than 5. Set to 6."])
      else
        c ← last_char (files_path p);
        let path := if negb (Ascii.eqb c "/"%char) then files_path p +:+ "/" else files_path p in
        let graph_image_dir := path +:+ "img/" in
        let acts_img :=
          if save_graph_images p then
            (if file_exists w graph_image_dir
             then [system ("rm -rf " +:+ graph_image_dir)] else []) ++
            [system ("mkdir " +:+ graph_image_dir)]
          else [] in
        Some (true, set_params s1 (set_files_path p path),
              acts3 ++ acts_img ++
              [remove (path +:+ "graph_vertices.txt"); remove (path +:+ "graph_edges.txt")]).

(** The loop of [saveGraph] over the vertices.  [None]:
    [pose_history_stamp_.at(i)] past the stamps, or a vertex id with no
    vertex. *)
Definition vertex_lines (s : Node T) : option (list (VertexLine T)) :=
  mapM (λ i,
          timestamp ← at_ (pose_history_stamp_ s) i;
          pose ← vertices s !! i;
          Some (mkVertexLine timestamp i (map_frame_id (params_ s)) pose))
       (seqZ 0 (Z.of_nat (size (vertices s)))).

(** The loop of [saveGraph] over the edges, with its [counter]. *)
Fixpoint edge_lines (vs : gmap Z T) (es : list Edge) (counter : Z)
  : option (list (EdgeLine T)) :=
  match es with
  | [] => Some []
  | OtherEdge :: rest => edge_lines vs rest counter
  | EdgeSE3 v0 v1 :: rest =>
      if 1 <? Z.abs (v0 - v1) then
        pose_0 ← vs !! v0;
        pose_1 ← vs !! v1;
        lines ← edge_lines vs rest (counter + 1);
        Some (mkEdgeLine counter pose_0 pose_1 :: lines)
      else edge_lines vs rest counter
  end.

(** [saveGraph]: the content of the two files and what else it did; it
    returns [true] whenever it returns. *)
Definition saveGraph (s : Node T)
  : option (bool * list (VertexLine T) * list (EdgeLine T) * list Action) :=
  let vertices_file := files_path (params_ s) +:+ "graph_vertices.txt" in
  let edges_file := files_path (params_ s) +:+ "graph_edges.txt" in
  let block_file := files_path (params_ s) +:+ ".block.txt" in
  f_vertices ← vertex_lines s;
  f_edges ← edge_lines (vertices s) (edges s) 0;
  Some (true, f_vertices, f_edges,
        [open_trunc block_file; open_trunc vertices_file; open_trunc edges_file;
         remove block_file] ++
        (if remove_fails w block_file
         then [ROS_ERROR "[StereoSlam:] Error deleting the blocking file."] else [])).

(** The pose [msgsCallback] corrects the odometry to.  [None]:
    [pose_history_.at] past the history, or no vertex with the last id. *)
Definition corrected_pose (s : Node T) (current_pose : T) : option (T * Q) :=
  let last_vertex_idx := Z.of_nat (size (vertices s)) - 1 in
  if (0 <? Z.of_nat (length (pose_history_ s))) && (0 <=? last_vertex_idx) then
    last_original_pose ← at_ (pose_history_ s) last_vertex_idx;
    let diff := tf_mul E (tf_inverse E last_original_pose) current_pose in
    last_optimized_pose ← vertices s !! last_vertex_idx;
    Some (tf_mul E last_optimized_pose diff, poseDiff w last_original_pose current_pose)
  else Some (current_pose, (-1)%Q).

(** [msgsCallback] on an odometry pose with its stamp: the node after it,
    what it logged and the pose it published, if any.  The camera model
    read from the first message is not among the members kept here. *)
Definition msgsCallback (s : Node T) (current_pose : T) (stamp : Q)
  : option (Node T * list Action * option T) :=
  if block_insertion_ s then Some (s, [], None)
  else
    '(corrected, pose_diff) ← corrected_pose s current_pose;
    let published := if 0 <? getNumSubscribers w then Some corrected else None in
    if Qlt_bool (min_displacement (params_ s)) pose_diff || first_message_ s then
      if negb (toCvCopy_ok w) then
        Some (s, [ROS_ERROR "[StereoSlam:] cv_bridge exception"], None)
      else
        let '(inserted, s1) := vertexInsertion w s corrected in
        if inserted then
          Some (mkNode (params_ s1) (first_message_ s1) (first_vertex_ s1) (block_update_ s1)
                  (block_insertion_ s1) (pose_history_ s1 ++ [current_pose])
                  (pose_history_stamp_ s1 ++ [stamp]) (vertices s1) (edges s1),
                [], published)
        else Some (s1, [], published)
    else Some (s, [], published).

End Functions.

(** The edges [saveGraph] writes: the [EdgeSE3] between vertices whose ids
    differ by more than 1. *)
Definition long_edges (es : list Edge) : list (Z * Z) :=
  flat_map (λ e, match e with
                 | EdgeSE3 v0 v1 => if 1 <? Z.abs (v0 - v1) then [(v0, v1)] else []
                 | OtherEdge => []
                 end) es.

(** A node of the small world after three keyframes and one loop closure,
    on a machine with no database. *)
Definition demo_params : Params :=
  mkParams 1 1 20 false (1 # 2) 10 "/tmp/slam" true false "map".

Definition demo_node : Node Z :=
  mkNode demo_params false false false false [0; 10; 20] [1; 2; 3]%Q
    (list_to_map [(0, 0); (1, 10); (2, 20)])
    [EdgeSE3 0 1; EdgeSE3 1 2; OtherEdge; EdgeSE3 2 0].

Definition demo_world : World Z :=
  mkWorld false false "" (λ _, false) (λ _, false) 1 true
    (λ s pose,
       (true,
        mkNode (params_ s) false false (block_update_ s) (block_insertion_ s)
          (pose_history_ s) (pose_history_stamp_ s)
          (<[Z.of_nat (size (vertices s)) := pose]> (vertices s)) (edges s)))
    (λ a b, inject_Z (Z.abs (a - b))).

(** The same node asked for a solver that does not exist. *)
Definition solver_2_node : Node Z :=
  mkNode (mkParams 1 2 20 false (1 # 2) 10 "/tmp/slam" true false "map")
    false false false false [0; 10; 20] [1; 2; 3]%Q
    (list_to_map [(0, 0); (1, 10); (2, 20)])
    [EdgeSE3 0 1; EdgeSE3 1 2; OtherEdge; EdgeSE3 2 0].

(** A node past its first message whose graph has no vertex yet. *)
Definition empty_node : Node Z :=
  mkNode demo_params false false false false [] [] ∅ [].

End Base.

(** * Properties *)

Section Properties.

Variable E : External.

Implicit Types (st : LoopClosing E) (candidate : Cluster (Transform E)).

(** ** The cluster store *)

Lemma processNewCluster_inv st st' :
  processNewCluster st = Some st' →
  ∃ c queue,
    cluster_queue_ st = c :: queue ∧ execution_dir_ok st = true ∧
    c_cluster_ st' = c ∧ cluster_queue_ st' = queue ∧
    store st' = <[getId c := cluster_file c]> (store st) ∧
    hash_table_ st' =
      hash_table_ st ++ [(getId c, hash_getHash E (hash_ st') (getSift c))] ∧
    lc_found_ st' = lc_found_ st ∧ graph_log st' = graph_log st.
Proof.
  unfold processNewCluster. intros H.
  destruct (cluster_queue_ st) as [|c queue] eqn:Hq; [discriminate|].
  destruct (execution_dir_ok st) eqn:Hok; [|discriminate].
  inversion H; subst; clear H. exists c, queue. cbn. repeat split; reflexivity.
Qed.

Lemma processNewCluster_defined st (c : Cluster (Transform E)) queue :
  cluster_queue_ st = c :: queue → execution_dir_ok st = true →
  ∃ st', processNewCluster st = Some st'.
Proof.
  intros Hq Hok. unfold processNewCluster. rewrite Hq, Hok. eauto.
Qed.

Lemma readCluster_cluster_file st (c : Cluster (Transform E)) :
  store st !! getId c = Some (cluster_file c) →
  readCluster st (getId c) =
    mkCluster (getId c) (getFrameId c) (getVertexCameraPose E (getId c))
      (getKp c) (getLdb c) [] (getPoints c).
Proof.
  intros H. unfold readCluster. rewrite H. unfold cluster_file.
  unfold read_int, read_mat, read_points, read_kp.
  rewrite lookup_insert_eq.
  rewrite (lookup_insert_ne _ "points" "desc") by done. rewrite lookup_insert_eq.
  do 2 (rewrite (lookup_insert_ne _ _ "kp") by done). rewrite lookup_insert_eq.
  do 3 (rewrite (lookup_insert_ne _ _ "frame_id") by done). rewrite lookup_insert_eq.
  reflexivity.
Qed.

Lemma readCluster_absent st id :
  store st !! id = None ∨ store st !! id = Some Unreadable →
  readCluster st id = Cluster_default E.
Proof. intros [H|H]; unfold readCluster; rewrite H; reflexivity. Qed.

(** C9.  A cluster at the head of the queue, with the scratch directory in
    place, is written by [processNewCluster], and [readCluster] on its id
    right after returns a cluster with the same frame id, as many
    keypoints, as many descriptor rows and as many world points. *)
Theorem C9_store_round_trip st (c : Cluster (Transform E)) queue :
  cluster_queue_ st = c :: queue →
  execution_dir_ok st = true →
  ∃ st', processNewCluster st = Some st' ∧
    c_cluster_ st' = c ∧
    let read := readCluster st' (getId c) in
    getId read = getId c ∧
    getFrameId read = getFrameId c ∧
    length (getKp read) = length (getKp c) ∧
    rows (getLdb read) = rows (getLdb c) ∧
    length (getWorldPoints read) = length (getWorldPoints c).
Proof.
  intros Hq Hok.
  destruct (processNewCluster_defined st c queue Hq Hok) as [st' Hst'].
  exists st'. split; [exact Hst'|].
  apply processNewCluster_inv in Hst' as (c' & queue' & Hq' & _ & Hc & _ & Hstore & _).
  rewrite Hq in Hq'. injection Hq' as <- <-.
  split; [exact Hc|]. cbn zeta.
  rewrite readCluster_cluster_file.
  - cbn. repeat split; reflexivity.
  - rewrite Hstore. apply lookup_insert_eq.
Qed.

(** ** Voting and edge insertion *)

Lemma tally_cons p pairs f c :
  tally (p :: pairs) f c =
  (if (p.1.1 =? f) && (p.1.2 =? c) then p.2 else 0) + tally pairs f c.
Proof. reflexivity. Qed.

Lemma tally_vote f c pairs f' c' :
  tally (vote f c pairs) f' c' =
  tally pairs f' c' + (if (f =? f') && (c =? c') then 1 else 0).
Proof.
  induction pairs as [|[[f0 c0] n] rest IH]; cbn [vote].
  - rewrite tally_cons. cbn. lia.
  - destruct ((f0 =? f) && (c0 =? c)) eqn:Hhead; rewrite !tally_cons; cbn [fst snd].
    + apply andb_true_iff in Hhead as [->%Z.eqb_eq ->%Z.eqb_eq].
      destruct ((f =? f') && (c =? c')); lia.
    + rewrite IH. lia.
Qed.

Lemma vote_keys f c pairs k :
  k ∈ (vote f c pairs).*1 → k ∈ pairs.*1 ∨ k = (f, c).
Proof.
  induction pairs as [|[[f0 c0] n] rest IH]; cbn.
  - intros ->%list_elem_of_singleton. by right.
  - destruct ((f0 =? f) && (c0 =? c)); cbn; [by left|].
    intros [->|Hk]%elem_of_cons; [left; left|].
    destruct (IH Hk) as [?|?]; [left; by right|by right].
Qed.

Lemma vote_NoDup f c pairs : NoDup pairs.*1 → NoDup (vote f c pairs).*1.
Proof.
  induction pairs as [|[[f0 c0] n] rest IH]; cbn.
  - intros _. apply NoDup_singleton.
  - intros [Hnotin Hrest]%NoDup_cons.
    destruct ((f0 =? f) && (c0 =? c)) eqn:Hhead; cbn.
    + by apply NoDup_cons.
    + apply NoDup_cons. split; [|by apply IH].
      intros [?|Heq]%vote_keys; [done|].
      injection Heq as -> ->. by rewrite !Z.eqb_refl in Hhead.
Qed.

Lemma vote_positive f c pairs :
  Forall (λ p, 1 ≤ p.2) pairs → Forall (λ p, 1 ≤ p.2) (vote f c pairs).
Proof.
  induction 1 as [|[[f0 c0] n] rest Hn Hrest IH]; cbn.
  - by repeat constructor.
  - destruct ((f0 =? f) && (c0 =? c)); constructor; cbn in *; auto; lia.
Qed.

Lemma supporting_inliers_cons m i inliers f c :
  supporting_inliers m (i :: inliers) f c =
  (if supports m f c i then 1 else 0) + supporting_inliers m inliers f c.
Proof.
  unfold supporting_inliers. rewrite filter_cons.
  destruct (supports m f c i); case_decide; try done; cbn [length]; lia.
Qed.

Lemma inliers_per_cluster_pair_spec m inliers acc pairs :
  inliers_per_cluster_pair m inliers acc = Some pairs →
  NoDup acc.*1 → Forall (λ p, 1 ≤ p.2) acc →
  NoDup pairs.*1 ∧ Forall (λ p, 1 ≤ p.2) pairs ∧
  ∀ f c, tally pairs f c = tally acc f c + supporting_inliers m inliers f c.
Proof.
  revert acc. induction inliers as [|i rest IH]; intros acc; cbn.
  - intros [= <-] ??. repeat split; try done. intros. unfold supporting_inliers. cbn. lia.
  - destruct (at_ (frame_matchings m) i) as [f0|] eqn:Hf; [|done]. cbn.
    destruct (at_ (candidate_matchings m) i) as [c0|] eqn:Hc; [|done]. cbn.
    intros Hrun Hnd Hpos.
    destruct (IH _ Hrun (vote_NoDup _ _ _ Hnd) (vote_positive _ _ _ Hpos))
      as (Hnd' & Hpos' & Htally).
    repeat split; try done. intros f c.
    rewrite Htally, tally_vote, supporting_inliers_cons.
    unfold supports. rewrite Hf, Hc. lia.
Qed.

Lemma tally_absent pairs f c : (f, c) ∉ pairs.*1 → tally pairs f c = 0.
Proof.
  induction pairs as [|[[f0 c0] n] rest IH]; [done|].
  rewrite fmap_cons, tally_cons. cbn [fst snd].
  intros [Hne Hrest]%not_elem_of_cons.
  destruct ((f0 =? f) && (c0 =? c)) eqn:Hhead.
  - apply andb_true_iff in Hhead as [->%Z.eqb_eq ->%Z.eqb_eq]. done.
  - rewrite IH by done. lia.
Qed.

Lemma elem_of_pairs_tally pairs f c n :
  NoDup pairs.*1 → Forall (λ p, 1 ≤ p.2) pairs →
  (f, c, n) ∈ pairs ↔ tally pairs f c = n ∧ 1 ≤ n.
Proof.
  induction pairs as [|[[f0 c0] n0] rest IH].
  - intros _ _. cbn. split; [by intros ?%elem_of_nil|lia].
  - rewrite fmap_cons, tally_cons. cbn [fst snd].
    intros [Hnotin Hnd]%NoDup_cons [Hn0 Hpos]%Forall_cons. cbn in Hn0.
    specialize (IH Hnd Hpos). rewrite elem_of_cons.
    destruct ((f0 =? f) && (c0 =? c)) eqn:Hhead.
    + apply andb_true_iff in Hhead as [->%Z.eqb_eq ->%Z.eqb_eq].
      rewrite (tally_absent rest f c) by done. split.
      * intros [[= ->]|Hin]; [lia|].
        exfalso. apply Hnotin. apply list_elem_of_fmap. by exists (f, c, n).
      * intros [<- _]. left. f_equal. lia.
    + rewrite Z.add_0_l, <- IH. split; [|by right].
      intros [[= -> -> ->]|?]; [|done]. by rewrite !Z.eqb_refl in Hhead.
Qed.

(** The votes of stage 5 are the counts of supporting inliers: each pair
    with at least one inlier appears once, with its count. *)
Lemma votes_are_counts m inliers pairs f c n :
  inliers_per_cluster_pair m inliers [] = Some pairs →
  (f, c, n) ∈ pairs ↔ supporting_inliers m inliers f c = n ∧ 1 ≤ n.
Proof.
  intros Hrun.
  destruct (inliers_per_cluster_pair_spec _ _ _ _ Hrun) as (Hnd & Hpos & Htally);
    [apply NoDup_nil_2|constructor|].
  rewrite elem_of_pairs_tally by done. rewrite Htally. cbn. by rewrite Z.add_0_l.
Qed.

Lemma add_edges_spec est pairs st :
  let st' := add_edges est pairs st in
  graph_log st' = graph_log st ++ new_edges E est pairs ∧
  lc_found_ st' = lc_found_ st ++ new_records pairs ∧
  cluster_queue_ st' = cluster_queue_ st ∧ c_cluster_ st' = c_cluster_ st ∧
  hash_ st' = hash_ st ∧ hash_table_ st' = hash_table_ st ∧
  num_loop_closures_ st' = num_loop_closures_ st ∧
  execution_dir_ok st' = execution_dir_ok st ∧ store st' = store st.
Proof.
  revert st. induction pairs as [|[[f c] n] rest IH]; intros st; cbn.
  - rewrite !app_nil_r. repeat split; reflexivity.
  - destruct (5 <=? n); cbn.
    + destruct (IH (push_edge st f c n (edge_transform E est f c)))
        as (H1 & H2 & H3 & H4 & H5 & H6 & H7 & H8 & H9).
      unfold edge_transform in *. rewrite H1, H2, H3, H4, H5, H6, H7, H8, H9. cbn.
      rewrite <- !app_assoc. repeat split; reflexivity.
    + apply IH.
Qed.

Lemma elem_of_new_edges est pairs call :
  call ∈ new_edges E est pairs ↔
  ∃ f c n, (f, c, n) ∈ pairs ∧ 5 ≤ n ∧ call = addEdge c f (edge_transform E est f c) n.
Proof.
  unfold new_edges. rewrite list_elem_of_In, in_flat_map. split.
  - intros ([[f c] n] & Hin%list_elem_of_In & Hcall). cbn in Hcall.
    destruct (5 <=? n) eqn:Hn; [|by destruct Hcall].
    destruct Hcall as [<-|[]]. exists f, c, n. repeat split; [done|lia].
  - intros (f & c & n & Hin & Hn & ->). exists (f, c, n).
    split; [by apply list_elem_of_In|]. cbn.
    destruct (5 <=? n) eqn:Hn'; [by left|lia].
Qed.

(** ** The verifier *)

Lemma finish_loop_add_edges est pairs st :
  let st' := finish_loop (add_edges est pairs st) in
  graph_log st' = graph_log st ++ new_edges E est pairs ++ [update] ∧
  lc_found_ st' = lc_found_ st ++ new_records pairs ∧
  store st' = store st ∧ c_cluster_ st' = c_cluster_ st ∧
  hash_table_ st' = hash_table_ st ∧ hash_ st' = hash_ st.
Proof.
  destruct (add_edges_spec est pairs st) as (H1 & H2 & _ & H4 & H5 & H6 & _ & _ & H9).
  cbn. rewrite H1, H2, H4, H5, H6, H9, <- app_assoc. repeat split; reflexivity.
Qed.

(** The three ways a verification ends. *)
Lemma closeLoopWithCluster_cases st candidate :
  (abandons st candidate ∧ closeLoopWithCluster st candidate = Some (false, st)) ∨
  (∃ m rvec tvec inliers pairs,
     reaches_stage6 st candidate m rvec tvec inliers pairs ∧
     closeLoopWithCluster st candidate =
       Some (true, finish_loop
                     (add_edges (tf_inverse E (buildTransformation E rvec tvec)) pairs st))) ∨
  (undefined_behaviour st candidate ∧ closeLoopWithCluster st candidate = None).
Proof.
  unfold closeLoopWithCluster, abandons, reaches_stage6, undefined_behaviour, passes_stage1.
  fold (stage1_percentage st candidate). fold (stage3_matches st candidate).
  fold (stage3_matchings st candidate).
  destruct (stage1_percentage st candidate) as [p|] eqn:Hp1; cbn;
    [|right; right; split; [by left|done]].
  destruct (35 <? p) eqn:G1;
    [apply Z.ltb_lt in G1
    |apply Z.ltb_ge in G1; left; split; [left; by exists p|done]].
  assert (∃ p0, Some p = Some p0 ∧ 35 < p0) as Hpass by (by exists p).
  destruct (LC_MIN_INLIERS E <=? length (stage3_matches st candidate))%nat eqn:G2;
    [apply Nat.leb_le in G2
    |apply Nat.leb_gt in G2; left; split; [right; left; done|done]].
  destruct (stage3_matchings st candidate) as [m|] eqn:Hm; cbn;
    [|right; right; split; [right; repeat split; try done; by left|done]].
  fold (stage4_ransac E m).
  destruct (stage4_ransac E m) as [[rvec tvec] inliers] eqn:Hr.
  destruct (LC_MIN_INLIERS E <=? length inliers)%nat eqn:G3;
    [apply Nat.leb_le in G3|apply Nat.leb_gt in G3].
  - destruct (inliers_per_cluster_pair m inliers []) as [pairs|] eqn:Hp; cbn.
    + right; left. exists m, rvec, tvec, inliers, pairs. repeat split; done.
    + right; right. split; [|done]. right. repeat split; try done.
      right. exists m. rewrite Hr. cbn. done.
  - left. split; [|done]. right; right. repeat split; try done.
    exists m. rewrite Hr. cbn. done.
Qed.

Lemma new_edges_NoDup est pairs : NoDup pairs.*1 → NoDup (new_edges E est pairs).
Proof.
  induction pairs as [|[[f c] n] rest IH]; [intros _; apply NoDup_nil_2|].
  rewrite fmap_cons. intros [Hnotin Hnd]%NoDup_cons.
  change (new_edges E est ((f, c, n) :: rest))
    with ((if 5 <=? n then [addEdge c f (edge_transform E est f c) n] else [])
          ++ new_edges E est rest).
  destruct (5 <=? n); cbn [app]; [|by apply IH].
  apply NoDup_cons. split; [|by apply IH].
  intros (f' & c' & n' & Hin & _ & [= -> -> _])%elem_of_new_edges.
  apply Hnotin. apply list_elem_of_fmap. by exists (f', c', n').
Qed.

(** C1, as the code has it.  A verification ends in one of three ways.  It
    abandons at the match-percentage gate, the raw-match minimum or the
    RANSAC inlier minimum: it returns failure and the state, with the log
    of graph calls and the loop-closure records, is the one it started
    from.  Or it passes the three gates: it returns success, whatever the
    votes, having added one edge and one record for each pair with at
    least 5 votes (there may be none) and then called [update] once.  Or
    its behaviour is undefined: a percentage over zero rows, an index out
    of its vector.  So success is returned exactly when the three gates
    are passed. *)
Theorem C1_success_iff_three_gates st candidate :
  (abandons st candidate ∧ closeLoopWithCluster st candidate = Some (false, st)) ∨
  (∃ m rvec tvec inliers pairs st',
     reaches_stage6 st candidate m rvec tvec inliers pairs ∧
     closeLoopWithCluster st candidate = Some (true, st') ∧
     graph_log st' =
       graph_log st ++
       new_edges E (tf_inverse E (buildTransformation E rvec tvec)) pairs ++ [update] ∧
     lc_found_ st' = lc_found_ st ++ new_records pairs ∧
     length (new_records pairs) = length (filter (λ p, 5 ≤ p.2) pairs)) ∨
  (undefined_behaviour st candidate ∧ closeLoopWithCluster st candidate = None).
Proof.
  destruct (closeLoopWithCluster_cases st candidate)
    as [?|[(m & rvec & tvec & inliers & pairs & Hreach & Hrun)|?]];
    [by left| |by right; right].
  right; left. exists m, rvec, tvec, inliers, pairs. eexists.
  split; [exact Hreach|]. split; [exact Hrun|].
  destruct (finish_loop_add_edges (tf_inverse E (buildTransformation E rvec tvec)) pairs st)
    as (H1 & H2 & _).
  split; [exact H1|]. split; [exact H2|].
  clear. induction pairs as [|[[f c] n] rest IH]; [done|].
  rewrite filter_cons. cbn [new_records flat_map snd fst] in *.
  destruct (5 <=? n) eqn:Hn; case_decide; cbn in *; try lia.
  - f_equal. exact IH.
  - exact IH.
Qed.

(** C3.  When a verification reaches stage 6, the calls it adds to the
    graph are, before the closing [update], exactly one [addEdge] for every
    pair (frame cluster f, candidate cluster c) that at least 5 inliers
    support: from c to f, weighted by the number of inliers supporting the
    pair, with the transform pose(c)^-1 * estimated * relative(f), where
    estimated is the inverse of the transform built from the RANSAC output.
    A pair with fewer than 5 supporting inliers gets no edge. *)
Theorem C3_stage6_edges st candidate m rvec tvec inliers pairs :
  reaches_stage6 st candidate m rvec tvec inliers pairs →
  let estimated_transform := tf_inverse E (buildTransformation E rvec tvec) in
  ∃ st' edges,
    closeLoopWithCluster st candidate = Some (true, st') ∧
    graph_log st' = graph_log st ++ edges ++ [update] ∧
    NoDup edges ∧
    ∀ call, call ∈ edges ↔
      ∃ f c, 5 ≤ supporting_inliers m inliers f c ∧
        call = addEdge c f
                 (tf_mul E (tf_mul E (tf_inverse E (getVertexPose E c)) estimated_transform)
                    (getVertexPoseRelativeToCamera E f))
                 (supporting_inliers m inliers f c).
Proof.
  intros Hreach est.
  destruct (closeLoopWithCluster_cases st candidate)
    as [[_ Hrun]|[(m' & rvec' & tvec' & inliers' & pairs' & Hreach' & Hrun)|[Hout Hrun]]].
  - exfalso. destruct Hreach as ((p & Hp1 & G1) & G2 & Hm & Hr & G3 & _).
    unfold closeLoopWithCluster in Hrun.
    fold (stage1_percentage st candidate) in Hrun.
    fold (stage3_matches st candidate) in Hrun.
    fold (stage3_matchings st candidate) in Hrun.
    apply Z.ltb_lt in G1. apply Nat.leb_le in G2. apply Nat.leb_le in G3.
    rewrite Hp1 in Hrun. cbn in Hrun. rewrite G1, G2, Hm in Hrun. cbn in Hrun.
    fold (stage4_ransac E m) in Hrun. rewrite Hr, G3 in Hrun.
    destruct (inliers_per_cluster_pair m inliers []); discriminate.
  - destruct Hreach as (_ & _ & Hm & Hr & _ & Hp).
    destruct Hreach' as (_ & _ & Hm' & Hr' & _ & Hp').
    rewrite Hm in Hm'. injection Hm' as <-.
    rewrite Hr in Hr'. injection Hr' as <- <- <-.
    rewrite Hp in Hp'. injection Hp' as <-.
    destruct (finish_loop_add_edges est pairs st) as (H1 & _).
    destruct (inliers_per_cluster_pair_spec _ _ _ _ Hp) as (Hnd & _);
      [apply NoDup_nil_2|constructor|].
    eexists. exists (new_edges E est pairs).
    split; [exact Hrun|]. split; [exact H1|]. split; [by apply new_edges_NoDup|].
    intros call. rewrite elem_of_new_edges. split.
    + intros (f & c & n & [Hn Hpos]%(votes_are_counts _ _ _ _ _ _ Hp) & H5 & ->).
      exists f, c. rewrite Hn. done.
    + intros (f & c & H5 & ->). exists f, c, (supporting_inliers m inliers f c).
      split; [|done]. apply (votes_are_counts _ _ _ _ _ _ Hp). split; [done|lia].
  - exfalso. destruct Hreach as ((p & Hp1 & _) & _ & Hm & Hr & _ & Hp).
    destruct Hout as [Hn|(_ & _ & [Hn|(m' & Hm' & _ & Hn)])]; [congruence..|].
    rewrite Hm in Hm'. injection Hm' as <-. rewrite Hr in Hn. cbn in Hn. congruence.
Qed.

(** ** Empty clusters *)

Lemma rows_nonneg (m : Mat) : 0 ≤ rows m.
Proof. unfold rows. lia. Qed.

Lemma closeLoopWithCluster_empty st candidate :
  rows (getLdb candidate) = 0 → closeLoopWithCluster st candidate = None.
Proof.
  intros H0. unfold closeLoopWithCluster, m_percentage. rewrite H0.
  pose proof (rows_nonneg (getLdb (c_cluster_ st))).
  replace (Z.min (rows (getLdb (c_cluster_ st))) 0) with 0 by lia. reflexivity.
Qed.

Lemma closeLoopWithCluster_preserves st candidate b st' :
  closeLoopWithCluster st candidate = Some (b, st') →
  store st' = store st ∧ c_cluster_ st' = c_cluster_ st ∧
  hash_table_ st' = hash_table_ st ∧ hash_ st' = hash_ st.
Proof.
  intros Hrun.
  destruct (closeLoopWithCluster_cases st candidate)
    as [[_ H]|[(m & rvec & tvec & inliers & pairs & _ & H)|[_ H]]];
    rewrite H in Hrun; [|  |discriminate].
  - injection Hrun as <- <-. done.
  - injection Hrun as <- <-.
    destruct (finish_loop_add_edges (tf_inverse E (buildTransformation E rvec tvec)) pairs st)
      as (_ & _ & H3 & H4 & H5 & H6). done.
Qed.

Lemma readCluster_store st st' id : store st' = store st → readCluster st' id = readCluster st id.
Proof. intros H. unfold readCluster. by rewrite H. Qed.

Lemma verify_candidates_skip st id rest :
  rows (getLdb (readCluster st id)) = 0 →
  verify_candidates (id :: rest) st = verify_candidates rest st.
Proof. intros H. cbn. rewrite H. reflexivity. Qed.

Lemma verify_candidates_filter st0 ids st :
  store st = store st0 →
  verify_candidates ids st =
  verify_candidates (filter (λ id, rows (getLdb (readCluster st0 id)) ≠ 0) ids) st.
Proof.
  revert st. induction ids as [|id rest IH]; intros st Hstore; [done|].
  rewrite filter_cons. case_decide as Hrows.
  - cbn. rewrite <- (readCluster_store st0 st) in Hrows by done.
    destruct (rows (getLdb (readCluster st id)) =? 0) eqn:Hz; [apply Z.eqb_eq in Hz; done|].
    destruct (closeLoopWithCluster st (readCluster st id)) as [[valid st']|] eqn:Hrun; [|done].
    cbn. apply IH. apply closeLoopWithCluster_preserves in Hrun as [-> _]. done.
  - rewrite verify_candidates_skip; [by apply IH|].
    rewrite (readCluster_store st0 st) by done.
    destruct (decide (rows (getLdb (readCluster st0 id)) = 0)); [done|]. done.
Qed.

Lemma verify_candidates_all_empty st ids :
  Forall (λ id, rows (getLdb (readCluster st id)) = 0) ids →
  verify_candidates ids st = Some st.
Proof.
  induction 1 as [|id rest Hid _ IH]; [done|]. by rewrite verify_candidates_skip.
Qed.

(** C7.  [readCluster] is total; on an id with no file, or with a file
    that cannot be opened, it returns the default cluster, which has no
    descriptor rows.  Both searches step over a candidate that reads with
    zero descriptor rows: each equals its loop run on the candidates with
    rows only, and with no such candidate the state, graph log included,
    is returned as it was.  The verifier on a candidate without rows
    would divide by zero. *)
Theorem C7_empty_cluster_skipped st :
  (∀ id, store st !! id = None ∨ store st !! id = Some Unreadable →
     readCluster st id = Cluster_default E ∧ rows (getLdb (readCluster st id)) = 0) ∧
  (∀ id rest, rows (getLdb (readCluster st id)) = 0 →
     closeLoopWithCluster st (readCluster st id) = None ∧
     verify_candidates (id :: rest) st = verify_candidates rest st) ∧
  searchByProximity st =
    verify_candidates
      (filter (λ id, rows (getLdb (readCluster st id)) ≠ 0)
         (findClosestVertices E (getId (c_cluster_ st)) (getId (c_cluster_ st))
            (LC_DISCARD_WINDOW E) 3)) st ∧
  searchByHash st =
    (hash_matching ← getCandidates st (getId (c_cluster_ st));
     verify_candidates
       (filter (λ id, rows (getLdb (readCluster st id)) ≠ 0) (map fst hash_matching)) st) ∧
  (∀ ids, Forall (λ id, rows (getLdb (readCluster st id)) = 0) ids →
     verify_candidates ids st = Some st).
Proof.
  split; [|split; [|split; [|split]]].
  - intros id H. rewrite (readCluster_absent st id H). done.
  - intros id rest H. split; [by apply closeLoopWithCluster_empty|by apply verify_candidates_skip].
  - unfold searchByProximity. by apply verify_candidates_filter.
  - unfold searchByHash. destruct (getCandidates st (getId (c_cluster_ st))); [|done].
    cbn. by apply verify_candidates_filter.
  - apply verify_candidates_all_empty.
Qed.

(** ** Dense cluster ids *)

Lemma at_lookup {A} (v : list A) (i : nat) : at_ v (Z.of_nat i) = v !! i.
Proof.
  unfold at_. destruct (Z.of_nat i <? 0) eqn:H; [apply Z.ltb_lt in H; lia|].
  by rewrite Nat2Z.id.
Qed.

Lemma at_Some {A} (v : list A) (i : Z) (x : A) :
  at_ v i = Some x ↔ 0 ≤ i ∧ v !! Z.to_nat i = Some x.
Proof.
  unfold at_. destruct (i <? 0) eqn:H; [apply Z.ltb_lt in H|apply Z.ltb_ge in H];
    [split; [done|lia]|].
  split; [done|by intros [_ ?]].
Qed.

Lemma dense_self_index (hash_table : list (Z * list Q)) id h :
  dense hash_table → (id, h) ∈ hash_table → at_ hash_table id = Some (id, h).
Proof.
  intros Hd (i & Hi)%list_elem_of_lookup.
  pose proof (Hd _ _ Hi) as Hid. cbn in Hid. subst id. by rewrite at_lookup.
Qed.

Lemma self_index_dense (hash_table : list (Z * list Q)) :
  NoDup hash_table.*1 →
  (∀ id h, (id, h) ∈ hash_table → ∃ h', at_ hash_table id = Some (id, h')) →
  dense hash_table.
Proof.
  intros Hnd Hself i [id h] Hi. cbn.
  destruct (Hself id h) as (h' & [Hpos Hj]%at_Some); [by eapply list_elem_of_lookup_2|].
  assert (hash_table.*1 !! i = Some id) as Hi1 by (by rewrite list_lookup_fmap, Hi).
  assert (hash_table.*1 !! Z.to_nat id = Some id) as Hj1 by (by rewrite list_lookup_fmap, Hj).
  pose proof (NoDup_lookup _ _ _ _ Hnd Hi1 Hj1). lia.
Qed.

Lemma dense_snoc (hash_table : list (Z * list Q)) h :
  dense hash_table → dense (hash_table ++ [(Z.of_nat (length hash_table), h)]).
Proof.
  intros Hd i e Hi. apply lookup_app_Some in Hi as [Hi|[Hlen Hi]]; [by apply Hd|].
  apply list_lookup_singleton_Some in Hi as [Hi <-]. cbn. lia.
Qed.

(** C10.  [getCandidates] reads the hash of its query at the position the
    cluster id names.  For a table of distinct ids, every stored id finds
    its own entry there exactly when ids are the positions 0, 1, 2, ...
    ([dense]).  [processNewCluster] keeps the table dense when the cluster
    it dequeues carries the next id: it appends one entry, at the position
    of that id, and [getCandidates] on that id then ranks the table against
    the hash just stored. *)
Theorem C10_dense_ids st (c : Cluster (Transform E)) queue :
  (NoDup (hash_table_ st).*1 →
   (∀ id h, (id, h) ∈ hash_table_ st → ∃ h', at_ (hash_table_ st) id = Some (id, h')) ↔
   dense (hash_table_ st)) ∧
  (cluster_queue_ st = c :: queue →
   execution_dir_ok st = true →
   dense (hash_table_ st) →
   getId c = Z.of_nat (length (hash_table_ st)) →
   ∃ st', processNewCluster st = Some st' ∧
     dense (hash_table_ st') ∧
     length (hash_table_ st') = S (length (hash_table_ st)) ∧
     at_ (hash_table_ st') (getId c) =
       Some (getId c, hash_getHash E (hash_ st') (getSift c)) ∧
     (LC_DISCARD_WINDOW E < Z.of_nat (length (hash_table_ st')) →
      getCandidates st' (getId c) =
        Some (take 5 (std_sort E sortByMatching
                (flat_map
                   (hash_matching st' (getId c)
                      (no_candidates_of (lc_found_ st') (getId c))
                      (hash_getHash E (hash_ st') (getSift c)))
                   (hash_table_ st')))))).
Proof.
  split.
  - intros Hnd. split; [by apply self_index_dense|].
    intros Hd id h Hin. exists h. by apply dense_self_index.
  - intros Hq Hok Hd Hid.
    destruct (processNewCluster_defined st c queue Hq Hok) as [st' Hst'].
    exists st'. split; [exact Hst'|].
    apply processNewCluster_inv in Hst' as (c' & queue' & Hq' & _ & _ & _ & _ & Htable & _).
    rewrite Hq in Hq'. injection Hq' as <- <-.
    assert (at_ (hash_table_ st') (getId c) =
            Some (getId c, hash_getHash E (hash_ st') (getSift c))) as Hat.
    { rewrite Htable, Hid, at_lookup. rewrite lookup_app_r by lia.
      by rewrite Nat.sub_diag. }
    split; [|split; [|split; [exact Hat|]]].
    + rewrite Htable, Hid. by apply dense_snoc.
    + rewrite Htable, length_app. cbn. lia.
    + intros HW. unfold getCandidates.
      destruct (Z.of_nat (length (hash_table_ st')) <=? LC_DISCARD_WINDOW E) eqn:G;
        [apply Z.leb_le in G; lia|].
      rewrite Hat. reflexivity.
Qed.

(** ** Hash candidates *)

Lemma no_candidates_of_spec lc_found q id :
  id ∈ no_candidates_of lc_found q ↔ recorded lc_found q id.
Proof.
  unfold no_candidates_of, recorded. rewrite list_elem_of_In, in_flat_map. split.
  - intros ([a b] & Hin%list_elem_of_In & Hx). cbn in Hx.
    apply in_app_or in Hx as [Hx|Hx].
    + destruct (a =? q) eqn:Ha; [|destruct Hx]. apply Z.eqb_eq in Ha as ->.
      destruct Hx as [<-|[]]. by left.
    + destruct (b =? q) eqn:Hb; [|destruct Hx]. apply Z.eqb_eq in Hb as ->.
      destruct Hx as [<-|[]]. by right.
  - intros [Hin|Hin]; [exists (q, id)|exists (id, q)];
      (split; [by apply list_elem_of_In|]); cbn; rewrite Z.eqb_refl;
      apply in_or_app; [left|right]; by left.
Qed.

Lemma elem_of_hash_matching st q nc hash_q entry x :
  x ∈ hash_matching st q nc hash_q entry ↔
  x = (entry.1, hash_match E (hash_ st) hash_q entry.2) ∧
  ¬ in_discard_window E q entry.1 ∧ entry.1 ≠ q ∧ entry.1 ∉ nc.
Proof.
  unfold hash_matching, in_discard_window.
  destruct ((q - LC_DISCARD_WINDOW E <? entry.1) && (entry.1 <? q + LC_DISCARD_WINDOW E))
    eqn:Hw.
  { apply andb_true_iff in Hw as [?%Z.ltb_lt ?%Z.ltb_lt].
    split; [by intros ?%elem_of_nil|]. intros (_ & Hn & _). exfalso. apply Hn. lia. }
  assert (¬ (q - LC_DISCARD_WINDOW E < entry.1 ∧ entry.1 < q + LC_DISCARD_WINDOW E)) as Hout.
  { intros [?%Z.ltb_lt ?%Z.ltb_lt]. rewrite andb_false_iff in Hw. destruct Hw; congruence. }
  destruct (entry.1 =? q) eqn:Hq.
  { apply Z.eqb_eq in Hq. split; [by intros ?%elem_of_nil|]. by intros (_ & _ & ? & _). }
  apply Z.eqb_neq in Hq. case_bool_decide as Hnc.
  { split; [by intros ?%elem_of_nil|]. by intros (_ & _ & _ & ?). }
  rewrite list_elem_of_singleton. split; [intros ->; done|by intros [-> _]].
Qed.

Lemma sortByMatching_false a b : sortByMatching b a = false ↔ (b.2 <= a.2)%Q.
Proof.
  unfold sortByMatching, Qlt_bool. rewrite negb_false_iff. apply Qle_bool_iff.
Qed.

Lemma getCandidates_few st q :
  Z.of_nat (length (hash_table_ st)) ≤ LC_DISCARD_WINDOW E → getCandidates st q = Some [].
Proof.
  intros H. unfold getCandidates.
  destruct (Z.of_nat (length (hash_table_ st)) <=? LC_DISCARD_WINDOW E) eqn:G;
    [done|apply Z.leb_gt in G; lia].
Qed.

Lemma getCandidates_enough st q candidates :
  LC_DISCARD_WINDOW E < Z.of_nat (length (hash_table_ st)) →
  getCandidates st q = Some candidates ↔
  ∃ e, at_ (hash_table_ st) q = Some e ∧
    candidates =
      take 5 (std_sort E sortByMatching
                (flat_map (hash_matching st q (no_candidates_of (lc_found_ st) q) e.2)
                   (hash_table_ st))).
Proof.
  intros H. unfold getCandidates.
  destruct (Z.of_nat (length (hash_table_ st)) <=? LC_DISCARD_WINDOW E) eqn:G;
    [apply Z.leb_le in G; lia|].
  destruct (at_ (hash_table_ st) q) as [e|]; cbn.
  - split.
    + intros Heq. injection Heq as <-. by exists e.
    + intros (e' & Heq & ->). by injection Heq as <-.
  - split; [done|]. by intros (e' & Heq & _).
Qed.

Lemma StronglySorted_weaken {A} (R R' : A → A → Prop) (l : list A) :
  (∀ a b, R a b → R' a b) → StronglySorted R l → StronglySorted R' l.
Proof.
  intros HR. induction 1 as [|a l _ IH Hall]; constructor; [done|].
  eapply Forall_impl; [exact Hall|]. intros b. apply HR.
Qed.

Lemma elem_of_take_1 {A} (x : A) (n : nat) (l : list A) : x ∈ take n l → x ∈ l.
Proof. intros H. rewrite <- (take_drop n l). apply elem_of_app. by left. Qed.

(** The entries of [hash_table_] that pass the three tests of
    [getCandidates], with their similarity to the query. *)
Lemma elem_of_all_matchings st q hash_q x :
  x ∈ flat_map (hash_matching st q (no_candidates_of (lc_found_ st) q) hash_q)
        (hash_table_ st) ↔
  ∃ h, (x.1, h) ∈ hash_table_ st ∧ x.2 = hash_match E (hash_ st) hash_q h ∧
       ¬ in_discard_window E q x.1 ∧ x.1 ≠ q ∧ ¬ recorded (lc_found_ st) q x.1.
Proof.
  rewrite list_elem_of_In, in_flat_map. split.
  - intros ([id h] & Hin%list_elem_of_In & Hx%list_elem_of_In).
    apply elem_of_hash_matching in Hx as (-> & Hw & Hq & Hnc). cbn in *.
    exists h. rewrite <- no_candidates_of_spec. done.
  - intros (h & Hin & Hs & Hw & Hq & Hnc). exists (x.1, h).
    split; [by apply list_elem_of_In|]. apply list_elem_of_In, elem_of_hash_matching.
    cbn. rewrite no_candidates_of_spec. destruct x as [id s]. cbn in *. by subst s.
Qed.

(** C5.  With a [std::sort] that sorts, the list [getCandidates] returns
    for a query id stored in the table holds only ids of the table that lie
    outside the open window (q - W, q + W), differ from q and are not
    recorded with q in either order; it has at most 5 entries, in
    descending order of similarity to the hash read at position q; and,
    once more than W clusters are in the table, every entry that passes the
    three tests is either returned or is no more similar than each of the 5
    returned. *)
Theorem C5_hash_candidates st q :
  std_sort_spec E sortByMatching →
  0 ≤ q < Z.of_nat (length (hash_table_ st)) →
  ∃ candidates e,
    getCandidates st q = Some candidates ∧
    at_ (hash_table_ st) q = Some e ∧
    (∀ id s, (id, s) ∈ candidates →
       ¬ (q - LC_DISCARD_WINDOW E < id ∧ id < q + LC_DISCARD_WINDOW E) ∧
       id ≠ q ∧ ((q, id) ∉ lc_found_ st) ∧ ((id, q) ∉ lc_found_ st) ∧
       ∃ h, (id, h) ∈ hash_table_ st ∧ s = hash_match E (hash_ st) e.2 h) ∧
    (length candidates ≤ 5)%nat ∧
    StronglySorted (λ a b, (b.2 <= a.2)%Q) candidates ∧
    (LC_DISCARD_WINDOW E < Z.of_nat (length (hash_table_ st)) →
     ∀ id h, (id, h) ∈ hash_table_ st →
       ¬ (q - LC_DISCARD_WINDOW E < id ∧ id < q + LC_DISCARD_WINDOW E) →
       id ≠ q → (q, id) ∉ lc_found_ st → (id, q) ∉ lc_found_ st →
       (id, hash_match E (hash_ st) e.2 h) ∈ candidates ∨
       (length candidates = 5%nat ∧
        ∀ a, a ∈ candidates → (hash_match E (hash_ st) e.2 h <= a.2)%Q)).
Proof.
  intros Hsort [Hq0 Hq1].
  assert (∃ e, at_ (hash_table_ st) q = Some e) as [e He].
  { destruct (lookup_lt_is_Some_2 (hash_table_ st) (Z.to_nat q)) as [e He]; [lia|].
    exists e. apply at_Some. done. }
  destruct (decide (Z.of_nat (length (hash_table_ st)) ≤ LC_DISCARD_WINDOW E)) as [Hfew|Hmany].
  { exists [], e. rewrite getCandidates_few by done.
    split; [done|]. split; [done|]. split; [by intros ?? ?%elem_of_nil|].
    split; [cbn; lia|]. split; [constructor|]. intros. lia. }
  set (all := flat_map (hash_matching st q (no_candidates_of (lc_found_ st) q) e.2)
                (hash_table_ st)).
  destruct (Hsort all) as [Hperm Hsorted].
  exists (take 5 (std_sort E sortByMatching all)), e.
  split; [apply getCandidates_enough; [lia|by exists e]|]. split; [exact He|].
  split; [|split; [|split]].
  - intros id s Hin%elem_of_take_1. rewrite Hperm in Hin.
    apply elem_of_all_matchings in Hin as (h & Hin & Hs & Hw & Hne & Hrec). cbn in *.
    unfold recorded in Hrec. repeat split; try done; try tauto. by exists h.
  - rewrite length_take. lia.
  - rewrite <- (take_drop 5 (std_sort E sortByMatching all)) in Hsorted.
    apply StronglySorted_app_1_l in Hsorted.
    eapply StronglySorted_weaken; [|exact Hsorted].
    intros a b H. by apply sortByMatching_false.
  - intros _ id h Hin Hw Hne Hr1 Hr2.
    assert ((id, hash_match E (hash_ st) e.2 h) ∈ std_sort E sortByMatching all) as Hx.
    { rewrite Hperm. apply elem_of_all_matchings. exists h. cbn.
      repeat split; try done. unfold recorded. tauto. }
    rewrite <- (take_drop 5 (std_sort E sortByMatching all)) in Hx, Hsorted.
    apply elem_of_app in Hx as [Hx|Hx]; [by left|right]. split.
    + rewrite length_take. apply list_elem_of_lookup in Hx as [i Hi].
      apply lookup_lt_Some in Hi. rewrite length_drop in Hi. lia.
    + intros a Ha.
      pose proof (StronglySorted_app_1_elem_of _ _ _ _ _ Hsorted Ha Hx) as H.
      by apply sortByMatching_false in H.
Qed.

(** C6, as the code has it.  [getCandidates] returns the empty list, and
    nothing else happens, whenever at most W clusters have been processed:
    with exactly W as with fewer.  With more than W, and a [std::sort] that
    sorts, the list it returns is empty exactly when every stored id is
    inside the discard window, is the query itself or is recorded with the
    query. *)
Theorem C6_insufficient_history st q :
  (Z.of_nat (length (hash_table_ st)) ≤ LC_DISCARD_WINDOW E →
   getCandidates st q = Some [] ∧ searchByHash st = Some st) ∧
  (std_sort_spec E sortByMatching →
   LC_DISCARD_WINDOW E < Z.of_nat (length (hash_table_ st)) →
   ∀ candidates, getCandidates st q = Some candidates →
     candidates = [] ↔
     ∀ id, id ∈ (hash_table_ st).*1 →
       (q - LC_DISCARD_WINDOW E < id ∧ id < q + LC_DISCARD_WINDOW E) ∨ id = q ∨
       (q, id) ∈ lc_found_ st ∨ (id, q) ∈ lc_found_ st).
Proof.
  split.
  - intros Hfew. split; [by apply getCandidates_few|].
    unfold searchByHash. by rewrite getCandidates_few.
  - intros Hsort Hmany candidates (e & He & ->)%getCandidates_enough; [|done].
    set (all := flat_map (hash_matching st q (no_candidates_of (lc_found_ st) q) e.2)
                  (hash_table_ st)).
    destruct (Hsort all) as [Hperm _].
    assert (take 5 (std_sort E sortByMatching all) = [] ↔ all = []) as ->.
    { split.
      - intros Ht. destruct (std_sort E sortByMatching all) eqn:Hs; [|done].
        by apply Permutation_nil_l in Hperm.
      - intros Ha. rewrite Ha in Hperm |- *. apply Permutation_nil_r in Hperm.
        by rewrite Hperm. }
    split.
    + intros Hall id (x & -> & Hin)%list_elem_of_fmap. destruct x as [id h]. cbn.
      destruct (decide (q - LC_DISCARD_WINDOW E < id ∧ id < q + LC_DISCARD_WINDOW E));
        [by left|].
      destruct (decide (id = q)); [by right; left|].
      destruct (decide ((q, id) ∈ lc_found_ st)); [by right; right; left|].
      destruct (decide ((id, q) ∈ lc_found_ st)); [by right; right; right|].
      exfalso. eapply (elem_of_nil (id, hash_match E (hash_ st) e.2 h)).
      rewrite <- Hall. apply elem_of_all_matchings. exists h. cbn.
      repeat split; try done. unfold recorded. tauto.
    + intros Hnone. destruct all as [|x rest] eqn:Hall; [done|]. exfalso.
      assert (x ∈ all) as Hx by (rewrite Hall; by left).
      apply elem_of_all_matchings in Hx as (h & Hin & _ & Hw & Hne & Hrec).
      assert (x.1 ∈ (hash_table_ st).*1) as Hid.
      { apply list_elem_of_fmap. by exists (x.1, h). }
      destruct (Hnone x.1 Hid) as [?|[?|?]]; [done|done|].
      apply Hrec. unfold recorded. tauto.
Qed.

(** ** The match percentage *)

Lemma ratioMatching_from_length i desc_1 desc_2 ratio :
  (length (ratioMatching_from E i desc_1 desc_2 ratio) ≤ length desc_1)%nat.
Proof.
  revert i. induction desc_1 as [|q rest IH]; intros i; cbn; [lia|].
  rewrite length_app. specialize (IH (i + 1)).
  destruct (two_nearest (map (norm E q) desc_2) 0 None) as [[[bi bd] [sd|]]|]; cbn; try lia.
  destruct (Qlt_bool bd (ratio * sd)); cbn; lia.
Qed.

(** Ratio matching keeps at most one match for each row of its first
    argument. *)
Lemma ratioMatching_length desc_1 desc_2 ratio :
  (length (ratioMatching E desc_1 desc_2 ratio) ≤ length desc_1)%nat.
Proof. apply ratioMatching_from_length. Qed.

Lemma inject_Z_pos b : 0 < b → (0 < inject_Z b)%Q.
Proof. intros H. unfold Qlt. cbn. lia. Qed.

Lemma inject_Z_nonneg a : 0 ≤ a → (0 <= inject_Z a)%Q.
Proof. intros H. unfold Qle. cbn. lia. Qed.

(** [round] of a quotient of counts, in integers: the quotient rounded to
    the nearest integer, a half going up. *)
Lemma c_round_quotient (a b : Z) :
  0 ≤ a → 0 < b →
  c_round (100 * inject_Z a / inject_Z b) = (200 * a + b) `div` (2 * b).
Proof.
  intros Ha Hb. unfold c_round.
  pose proof (inject_Z_pos b Hb) as Hb'.
  assert (~ inject_Z b == 0)%Q as Hb0.
  { intros H. rewrite H in Hb'. by apply Qlt_irrefl in Hb'. }
  assert (0 <= 100 * inject_Z a / inject_Z b)%Q as Hpos.
  { apply Qle_shift_div_l; [done|]. rewrite Qmult_0_l.
    apply Qmult_le_0_compat; [done|]. by apply inject_Z_nonneg. }
  apply Qle_bool_iff in Hpos. rewrite Hpos.
  rewrite Zdiv_Qdiv. apply Qfloor_comp.
  rewrite !inject_Z_plus, !inject_Z_mult. field. done.
Qed.

Lemma stage1_percentage_value st candidate :
  0 < rows (getLdb (c_cluster_ st)) → 0 < rows (getLdb candidate) →
  let matches :=
    Z.of_nat (length (ratioMatching E (getLdb (c_cluster_ st)) (getLdb candidate) matching_th)) in
  let smaller := Z.min (rows (getLdb (c_cluster_ st))) (rows (getLdb candidate)) in
  stage1_percentage st candidate = Some ((200 * matches + smaller) `div` (2 * smaller)).
Proof.
  intros Hc Hn matches smaller. unfold stage1_percentage, m_percentage.
  fold smaller. fold matches.
  destruct (smaller =? 0) eqn:H0; [apply Z.eqb_eq in H0; lia|].
  rewrite c_round_quotient by lia. reflexivity.
Qed.

(** C4, as the code has it.  For clusters with descriptor rows, the match
    percentage of stage 1 is 100 * matches / min(rows C, rows N) rounded to
    the nearest integer, a half going up.  The matches are at most the rows
    of the current cluster C, one per query row, so the percentage is at
    most 100 when C has no more rows than the candidate N; in general it is
    bounded by the rounded 100 * rows C / min(rows C, rows N) only. *)
Theorem C4_match_percentage st candidate :
  0 < rows (getLdb (c_cluster_ st)) → 0 < rows (getLdb candidate) →
  let matches :=
    Z.of_nat (length (ratioMatching E (getLdb (c_cluster_ st)) (getLdb candidate) matching_th)) in
  let smaller := Z.min (rows (getLdb (c_cluster_ st))) (rows (getLdb candidate)) in
  ∃ p, stage1_percentage st candidate = Some p ∧
    p = (200 * matches + smaller) `div` (2 * smaller) ∧
    2 * smaller * p - smaller ≤ 200 * matches < 2 * smaller * p + smaller ∧
    matches ≤ rows (getLdb (c_cluster_ st)) ∧
    p ≤ (200 * rows (getLdb (c_cluster_ st)) + smaller) `div` (2 * smaller) ∧
    (rows (getLdb (c_cluster_ st)) ≤ rows (getLdb candidate) → p ≤ 100).
Proof.
  intros Hc Hn matches smaller.
  exists ((200 * matches + smaller) `div` (2 * smaller)).
  split; [by apply stage1_percentage_value|]. split; [done|].
  assert (matches ≤ rows (getLdb (c_cluster_ st))) as Hm.
  { unfold matches, rows. apply inj_le, ratioMatching_length. }
  assert (0 < smaller) as Hs by (unfold smaller; lia).
  pose proof (Z.div_mod (200 * matches + smaller) (2 * smaller)) as Hdm.
  pose proof (Z.mod_pos_bound (200 * matches + smaller) (2 * smaller)) as Hmod.
  split; [lia|]. split; [done|]. split.
  - apply Z.div_le_mono; lia.
  - intros Hle. assert (smaller = rows (getLdb (c_cluster_ st))) as Heq by (unfold smaller; lia).
    clearbody smaller matches.
    assert ((200 * matches + smaller) `div` (2 * smaller) < 101); [|lia].
    apply Z.div_lt_upper_bound; lia.
Qed.

(** ** The driver *)

Lemma run_loop_idle n st out :
  cluster_queue_ st = [] →
  run_loop (replicate n []) st out =
    Some (st, out ++ concat (replicate n (publish_info st))).
Proof.
  intros Hq. revert out. induction n as [|n IH]; intros out; cbn.
  - by rewrite app_nil_r.
  - unfold process_new_frame, checkNewClusterInQueue. rewrite Hq. cbn.
    rewrite IH. by rewrite <- app_assoc.
Qed.

Lemma count_pub_queue_idle n st :
  cluster_queue_ st = [] → 0 < getNumSubscribers E "loop_closing_queue" →
  length (filter (λ o, is_pub_queue o = true) (concat (replicate n (publish_info st)))) = n.
Proof.
  intros Hq Hsub. induction n as [|n IH]; [done|].
  cbn [replicate concat]. rewrite filter_app, length_app, IH.
  unfold publish_info. apply Z.ltb_lt in Hsub. rewrite Hsub, Hq.
  destruct (0 <? getNumSubscribers E "keyframes"),
           (0 <? getNumSubscribers E "loop_closings"); reflexivity.
Qed.


End Properties.

(** * The program at work *)

(** ** The sort of the small world sorts *)

Lemma insert_by_Permutation {A} (comp : A → A → bool) x l :
  insert_by comp x l ≡ₚ x :: l.
Proof.
  induction l as [|y l IH]; cbn; [done|].
  destruct (comp x y); [done|]. rewrite IH. apply Permutation_swap.
Qed.

Lemma insertion_sort_Permutation {A} (comp : A → A → bool) l :
  insertion_sort comp l ≡ₚ l.
Proof.
  induction l as [|x l IH]; cbn; [done|].
  rewrite insert_by_Permutation. by rewrite IH.
Qed.

Lemma insert_by_sorted (x : Z * Q) l :
  StronglySorted (λ a b, sortByMatching b a = false) l →
  StronglySorted (λ a b, sortByMatching b a = false) (insert_by sortByMatching x l).
Proof.
  induction 1 as [|y l Hl IH Hy]; cbn; [by repeat constructor|].
  destruct (sortByMatching x y) eqn:Hxy.
  - constructor; [by constructor|]. constructor.
    + unfold sortByMatching, Qlt_bool in *. apply negb_true_iff in Hxy.
      apply negb_false_iff, Qle_bool_iff.
      destruct (Qlt_le_dec (y.2) (x.2)) as [Hlt|Hle]; [by apply Qlt_le_weak|].
      apply Qle_bool_iff in Hle. congruence.
    + eapply Forall_impl; [exact Hy|]. intros z Hz. cbn in Hz.
      unfold sortByMatching, Qlt_bool in *. apply negb_true_iff in Hxy.
      apply negb_false_iff, Qle_bool_iff. apply negb_false_iff, Qle_bool_iff in Hz.
      destruct (Qlt_le_dec (y.2) (x.2)) as [Hlt|Hle].
      * eapply Qle_trans; [exact Hz|by apply Qlt_le_weak].
      * apply Qle_bool_iff in Hle. congruence.
  - constructor; [exact IH|].
    rewrite insert_by_Permutation. constructor; [exact Hxy|exact Hy].
Qed.

Lemma insertion_sort_sorts W min_inliers closest created :
  std_sort_spec (demo W min_inliers closest created) sortByMatching.
Proof.
  intros l. split; [apply insertion_sort_Permutation|].
  cbn. induction l as [|x l IH]; cbn; [constructor|]. by apply insert_by_sorted.
Qed.

(** ** The verifier on the two revisits *)

(** The faint revisit passes the three gates with six inliers, three for
    each of two pairs: success is returned, [update] is called, and no
    pair has the 5 votes an edge takes. *)
Lemma C1_success_without_surviving_pair :
  ∃ st' m pairs,
    closeLoopWithCluster faint_revisit (readCluster faint_revisit 0) = Some (true, st') ∧
    stage3_matchings faint_revisit (readCluster faint_revisit 0) = Some m ∧
    inliers_per_cluster_pair m (stage4_ransac revisit_world m).2 [] = Some pairs ∧
    pairs = [(12, 0, 3); (12, 1, 3)] ∧
    Forall (λ p, p.2 < 5) pairs ∧
    graph_log st' = [update] ∧
    lc_found_ st' = [].
Proof.
  eexists. eexists. eexists.
  split; [vm_compute; reflexivity|].
  split; [vm_compute; reflexivity|].
  split; [vm_compute; reflexivity|].
  split; [reflexivity|].
  split; [repeat constructor|].
  split; reflexivity.
Qed.

(** The matchings of the revisit: the ten features of cluster 12, the first
    five found in cluster 0 and the last five in its neighbour 1. *)
Lemma revisit_reaches_stage6 :
  reaches_stage6 revisit (readCluster revisit 0)
    (mkMatchings (replicate 10 12) (replicate 5 0 ++ replicate 5 1)
       (map pt (getKp cluster_12)) (map pt (getKp cluster_12))
       (getPoints cluster_12))
    [] [] (seqZ 0 10) [(12, 0, 5); (12, 1, 5)].
Proof.
  split; [exists 100; split; [vm_compute; reflexivity|lia]|].
  split; [vm_compute; lia|].
  split; [vm_compute; reflexivity|].
  split; [vm_compute; reflexivity|].
  split; [vm_compute; lia|].
  vm_compute; reflexivity.
Qed.

Lemma C3_stage6_edges_witness :
  ∃ st' edges,
    closeLoopWithCluster revisit (readCluster revisit 0) = Some (true, st') ∧
    graph_log st' = edges ++ [update] ∧
    addEdge 0 12 (-2) 5 ∈ edges ∧
    addEdge 1 12 (-12) 5 ∈ edges ∧
    addEdge 0 12 (-2) 4 ∉ edges.
Proof.
  destruct (C3_stage6_edges revisit_world revisit (readCluster revisit 0) _ _ _ _ _
              revisit_reaches_stage6) as (st' & edges & Hrun & Hlog & _ & Hedges).
  exists st', edges. split; [exact Hrun|]. split; [exact Hlog|].
  split; [|split].
  - apply Hedges. exists 12, 0. split; [apply Z.leb_le; vm_compute; reflexivity|reflexivity].
  - apply Hedges. exists 12, 1. split; [apply Z.leb_le; vm_compute; reflexivity|reflexivity].
  - intros (f & c & _ & Heq)%Hedges. injection Heq as <- <- _ Hn.
    vm_compute in Hn. discriminate.
Defined.

(** C2, at the revisit.  Verifying candidate 0 pools its neighbour 1 and
    records both (12, 0) and (12, 1).  The proximity search takes its
    candidates from the graph alone: 1 is still among them, is verified
    again, and both pairs get a second edge and a second record.  The hash
    search of the same round no longer proposes 0 or 1. *)
Lemma C2_proximity_repeats_recorded_pair :
  ∃ st1 st2,
    closeLoopWithCluster revisit (readCluster revisit 0) = Some (true, st1) ∧
    recorded (lc_found_ st1) 12 1 ∧
    findClosestVertices revisit_world (getId (c_cluster_ st1)) (getId (c_cluster_ st1))
      (LC_DISCARD_WINDOW revisit_world) 3 = [0; 1] ∧
    searchByProximity revisit = Some st2 ∧
    lc_found_ st2 = [(12, 0); (12, 1); (12, 0); (12, 1)] ∧
    graph_log st2 =
      [addEdge 0 12 (-2) 5; addEdge 1 12 (-12) 5; update;
       addEdge 0 12 (-2) 5; addEdge 1 12 (-12) 5; update] ∧
    getCandidates revisit 12 = Some [(2, (-3)%Q); (1, (-4)%Q); (0, (-5)%Q)] ∧
    getCandidates st2 12 = Some [(2, (-3)%Q)].
Proof.
  eexists. eexists.
  split; [vm_compute; reflexivity|].
  split; [left; right; left|].
  split; [reflexivity|].
  split; [vm_compute; reflexivity|].
  split; [reflexivity|]. split; [reflexivity|].
  split; vm_compute; reflexivity.
Qed.

(** ** The match percentage *)

(** Three rows against two: each of the three finds its match, and the
    percentage over the smaller count is 150. *)
Lemma C4_percentage_above_100 :
  rows (getLdb (c_cluster_ repetitive)) = 3 ∧
  rows (getLdb two_rows) = 2 ∧
  length (ratioMatching revisit_world (getLdb (c_cluster_ repetitive)) (getLdb two_rows)
            matching_th) = 3%nat ∧
  stage1_percentage repetitive two_rows = Some 150 ∧
  ¬ 150 ≤ 100.
Proof.
  split; [reflexivity|]. split; [reflexivity|]. split; [vm_compute; reflexivity|].
  split; [vm_compute; reflexivity|]. lia.
Qed.

Lemma C4_match_percentage_witness :
  0 < rows (getLdb (c_cluster_ revisit)) ∧
  0 < rows (getLdb (readCluster revisit 0)) ∧
  ∃ p, stage1_percentage revisit (readCluster revisit 0) = Some p ∧ p = 100.
Proof.
  assert (0 < rows (getLdb (c_cluster_ revisit))) as Hc by (vm_compute; reflexivity).
  assert (0 < rows (getLdb (readCluster revisit 0))) as Hn by (vm_compute; reflexivity).
  split; [exact Hc|]. split; [exact Hn|].
  destruct (C4_match_percentage revisit_world revisit (readCluster revisit 0) Hc Hn)
    as (p & Hp & Hval & _).
  exists p. split; [exact Hp|]. rewrite Hval. vm_compute. reflexivity.
Defined.

(** ** The hash search *)

Example scenario_C_candidates :
  getCandidates scenario_C 500 =
    Some [(598, 0%Q); (591, 0%Q); (584, 0%Q); (577, 0%Q); (570, 0%Q)].
Proof. vm_compute. reflexivity. Qed.

Lemma C5_hash_candidates_witness :
  ∃ candidates,
    getCandidates scenario_C 500 = Some candidates ∧
    (length candidates ≤ 5)%nat ∧
    ∀ id s, (id, s) ∈ candidates → ¬ (451 ≤ id ≤ 549) ∧ id ≠ 500 ∧ id ≠ 3 ∧ id ≠ 7.
Proof.
  assert (0 ≤ 500 < Z.of_nat (length (hash_table_ scenario_C))) as Hq.
  { split; [lia|]. apply Z.ltb_lt. vm_compute. reflexivity. }
  destruct (C5_hash_candidates scenario_C_world scenario_C 500
              (insertion_sort_sorts 50 6 (λ _, []) true) Hq)
    as (candidates & e & Hrun & _ & Hin & Hlen & _).
  exists candidates. split; [exact Hrun|]. split; [exact Hlen|].
  intros id s H. destruct (Hin id s H) as (Hw & Hne & Hr1 & Hr2 & _).
  change (LC_DISCARD_WINDOW scenario_C_world) with 50 in Hw.
  split; [lia|]. split; [exact Hne|]. split.
  - intros ->. apply Hr1. by left.
  - intros ->. apply Hr2. right. by left.
Defined.

(** Two clusters processed with a window of 2: not fewer than the window,
    and the hash search is skipped all the same. *)
Lemma C6_empty_at_exactly_W :
  length (hash_table_ short_history) = 2%nat ∧
  LC_DISCARD_WINDOW short_history_world = 2 ∧
  ¬ (Z.of_nat (length (hash_table_ short_history)) < LC_DISCARD_WINDOW short_history_world) ∧
  getCandidates short_history 1 = Some [].
Proof.
  split; [reflexivity|]. split; [reflexivity|]. split; [|reflexivity].
  change (LC_DISCARD_WINDOW short_history_world) with 2.
  change (length (hash_table_ short_history)) with 2%nat. lia.
Qed.

Lemma C6_insufficient_history_witness :
  Z.of_nat (length (hash_table_ short_history)) ≤ LC_DISCARD_WINDOW short_history_world ∧
  getCandidates short_history 1 = Some [] ∧
  searchByHash short_history = Some short_history ∧
  (∀ candidates, getCandidates revisit 12 = Some candidates → candidates ≠ []).
Proof.
  assert (Z.of_nat (length (hash_table_ short_history))
          ≤ LC_DISCARD_WINDOW short_history_world) as Hfew.
  { apply Z.leb_le. vm_compute. reflexivity. }
  split; [exact Hfew|].
  destruct (C6_insufficient_history short_history_world short_history 1) as [Hskip _].
  destruct (Hskip Hfew) as [H1 H2]. split; [exact H1|]. split; [exact H2|].
  destruct (C6_insufficient_history revisit_world revisit 12) as [_ Hmany].
  intros candidates Hrun Hnil.
  assert (LC_DISCARD_WINDOW revisit_world < Z.of_nat (length (hash_table_ revisit))) as HW.
  { apply Z.ltb_lt. vm_compute. reflexivity. }
  pose proof (proj1 (Hmany (insertion_sort_sorts 10 6 revisit_closest true) HW
                       candidates Hrun) Hnil 0) as H0.
  destruct H0 as [Hw|[Hq|[Hr|Hr]]].
  - apply list_elem_of_fmap. exists (0, [inject_Z 0]). split; [reflexivity|]. by left.
  - change (LC_DISCARD_WINDOW revisit_world) with 10 in Hw. lia.
  - discriminate Hq.
  - by apply elem_of_nil in Hr.
  - by apply elem_of_nil in Hr.
Defined.

(** ** Empty clusters *)

Lemma C7_empty_cluster_skipped_witness :
  store revisit !! 5 = None ∧
  readCluster revisit 5 = Cluster_default revisit_world ∧
  rows (getLdb (readCluster revisit 5)) = 0 ∧
  verify_candidates [5; 6] revisit = Some revisit.
Proof.
  destruct (C7_empty_cluster_skipped revisit_world revisit) as (Habsent & _ & _ & _ & Hall).
  assert (store revisit !! 5 = None) as H5 by (vm_compute; reflexivity).
  assert (store revisit !! 6 = None) as H6 by (vm_compute; reflexivity).
  destruct (Habsent 5 (or_introl H5)) as [Hread Hrows].
  destruct (Habsent 6 (or_introl H6)) as [_ Hrows6].
  split; [exact H5|]. split; [exact Hread|]. split; [exact Hrows|].
  apply Hall. repeat constructor; assumption.
Defined.

(** ** The driver on read-only storage *)



(** ** The store and the table on an arrival *)

Lemma C9_store_round_trip_witness :
  cluster_queue_ arrival = [cluster_12] ∧
  execution_dir_ok arrival = true ∧
  ∃ st', processNewCluster arrival = Some st' ∧
    getFrameId (readCluster st' 12) = 7 ∧
    length (getKp (readCluster st' 12)) = 10%nat ∧
    rows (getLdb (readCluster st' 12)) = 10 ∧
    length (getWorldPoints (readCluster st' 12)) = 10%nat.
Proof.
  split; [reflexivity|]. split; [reflexivity|].
  destruct (C9_store_round_trip revisit_world arrival cluster_12 [] eq_refl eq_refl)
    as (st' & Hrun & _ & _ & Hframe & Hkp & Hrows & Hpoints).
  exists st'. split; [exact Hrun|]. split; [exact Hframe|]. split; [exact Hkp|].
  split; [exact Hrows|exact Hpoints].
Defined.

Lemma demo_table_dense n : dense (demo_table n).
Proof.
  intros i e Hi. unfold demo_table in Hi. rewrite list_lookup_fmap in Hi.
  destruct (seq 0 n !! i) as [j|] eqn:Hj; [|discriminate].
  apply lookup_seq in Hj as [-> _]. cbn in Hi. by injection Hi as <-.
Qed.

Lemma C10_dense_ids_witness :
  dense (hash_table_ arrival) ∧
  getId cluster_12 = Z.of_nat (length (hash_table_ arrival)) ∧
  ∃ st', processNewCluster arrival = Some st' ∧
    dense (hash_table_ st') ∧
    length (hash_table_ st') = 13%nat ∧
    at_ (hash_table_ st') 12 = Some (12, [inject_Z 10]).
Proof.
  assert (dense (hash_table_ arrival)) as Hd by apply demo_table_dense.
  split; [exact Hd|]. split; [reflexivity|].
  destruct (C10_dense_ids revisit_world arrival cluster_12 []) as [_ Hkeep].
  destruct (Hkeep eq_refl eq_refl Hd eq_refl) as (st' & Hrun & Hd' & Hlen & Hat & _).
  exists st'. split; [exact Hrun|]. split; [exact Hd'|]. split; [exact Hlen|].
  exact Hat.
Defined.

(** * More of the program *)

Section MoreProperties.

Variable E : External.

Implicit Types (st : LoopClosing E) (candidate : Cluster (Transform E)).

(** ** The queue and the table *)

Lemma cluster_queue_pushed st (cs : list (Cluster (Transform E))) :
  cluster_queue_ (fold_left addClusterToQueue cs st) = cluster_queue_ st ++ cs.
Proof.
  revert st. induction cs as [|c cs IH]; intros st; cbn [fold_left].
  - by rewrite app_nil_r.
  - rewrite IH. cbn. by rewrite <- app_assoc.
Qed.

(** X1.  The queue is first in, first out: whatever was pushed, in whatever
    number, [processNewCluster] takes the oldest cluster still waiting and
    leaves the others in their order; and a cluster is reported waiting
    exactly when one is. *)
Theorem queue_first_in_first_out st (cs : list (Cluster (Transform E))) st' :
  processNewCluster (fold_left addClusterToQueue cs st) = Some st' →
  c_cluster_ st' :: cluster_queue_ st' = cluster_queue_ st ++ cs ∧
  checkNewClusterInQueue (fold_left addClusterToQueue cs st) = true ∧
  (checkNewClusterInQueue st' = true ↔ (2 ≤ length (cluster_queue_ st ++ cs))%nat).
Proof.
  intros (c & queue & Hq & _ & Hc & Hq' & _)%processNewCluster_inv.
  rewrite cluster_queue_pushed in Hq. rewrite Hc, Hq', Hq.
  split; [done|]. unfold checkNewClusterInQueue. rewrite cluster_queue_pushed, Hq', Hq.
  split; [done|]. cbn. destruct queue; cbn; split; (done || lia).
Qed.

(** X2.  The hash is initialised by the first cluster and by no other:
    with a hash object that reports itself initialised once [init] has run,
    [processNewCluster] leaves the thread with an initialised object, and
    an object that was initialised already is the one it keeps, and the
    one the new table entry is computed with. *)
Theorem hash_initialised_once st st' :
  (∀ h m, hash_isInitialized E (hash_init E h m) = true) →
  processNewCluster st = Some st' →
  hash_isInitialized E (hash_ st') = true ∧
  (hash_isInitialized E (hash_ st) = true →
   hash_ st' = hash_ st ∧
   hash_table_ st' =
     hash_table_ st ++
     [(getId (c_cluster_ st'), hash_getHash E (hash_ st) (getSift (c_cluster_ st')))]) ∧
  (hash_isInitialized E (hash_ st) = false →
   hash_ st' = hash_init E (hash_ st) (getSift (c_cluster_ st'))).
Proof.
  intros Hinit Hrun. unfold processNewCluster in Hrun.
  destruct (cluster_queue_ st) as [|c queue]; [discriminate|].
  destruct (execution_dir_ok st); [|discriminate].
  injection Hrun as <-. cbn.
  destruct (hash_isInitialized E (hash_ st)) eqn:Hi.
  - split; [exact Hi|]. split; [done|discriminate].
  - split; [apply Hinit|]. split; [discriminate|done].
Qed.

(** X3.  Storing a cluster touches the file of its id only: every other id
    reads after [processNewCluster] as it read before. *)
Theorem processNewCluster_keeps_other_files st st' id :
  processNewCluster st = Some st' →
  id ≠ getId (c_cluster_ st') →
  store st' !! id = store st !! id ∧
  readCluster st' id = readCluster st id.
Proof.
  intros (c & queue & _ & _ & Hc & _ & Hstore & _)%processNewCluster_inv Hne.
  rewrite Hc in Hne. assert (store st' !! id = store st !! id) as Hl.
  { rewrite Hstore. by apply lookup_insert_ne. }
  split; [exact Hl|]. unfold readCluster. by rewrite Hl.
Qed.

(** ** What a search may change *)

Lemma new_edges_records est pairs :
  length (filter (λ call, is_addEdge call = true) (new_edges E est pairs)) =
  length (new_records pairs) ∧
  Forall (λ call, is_addEdge call = true) (new_edges E est pairs).
Proof.
  induction pairs as [|[[f c] n] rest [IH1 IH2]]; [split; [done|constructor]|].
  change (new_edges E est ((f, c, n) :: rest))
    with ((if 5 <=? n then [addEdge c f (edge_transform E est f c) n] else [])
          ++ new_edges E est rest).
  change (new_records ((f, c, n) :: rest))
    with ((if 5 <=? n then [(f, c)] else []) ++ new_records rest).
  destruct (5 <=? n); cbn [app]; [|done].
  split; [|by constructor].
  rewrite filter_cons. cbn [is_addEdge]. case_decide; [|done]. cbn. by rewrite IH1.
Qed.

Lemma closeLoopWithCluster_appends st candidate b st' :
  closeLoopWithCluster st candidate = Some (b, st') →
  ∃ records calls,
    lc_found_ st' = lc_found_ st ++ records ∧
    graph_log st' = graph_log st ++ calls ∧
    length (filter (λ call, is_addEdge call = true) calls) = length records ∧
    (b = false → records = [] ∧ calls = []) ∧
    cluster_queue_ st' = cluster_queue_ st ∧ c_cluster_ st' = c_cluster_ st ∧
    hash_ st' = hash_ st ∧ hash_table_ st' = hash_table_ st ∧
    execution_dir_ok st' = execution_dir_ok st ∧ store st' = store st.
Proof.
  intros Hrun.
  destruct (closeLoopWithCluster_cases E st candidate)
    as [[_ H]|[(m & rvec & tvec & inliers & pairs & _ & H)|[_ H]]];
    rewrite H in Hrun; [| |discriminate].
  - injection Hrun as <- <-. exists [], []. rewrite !app_nil_r. repeat split; done.
  - injection Hrun as <- <-.
    set (est := tf_inverse E (buildTransformation E rvec tvec)).
    destruct (add_edges_spec E est pairs st) as (H1 & H2 & H3 & H4 & H5 & H6 & _ & H8 & H9).
    exists (new_records pairs), (new_edges E est pairs ++ [update]). cbn.
    rewrite H1, H2, H3, H4, H5, H6, H8, H9, <- app_assoc.
    repeat split; try done.
    rewrite filter_app, length_app. cbn. rewrite Nat.add_0_r.
    apply new_edges_records.
Qed.

Lemma verify_candidates_appends ids st st' :
  verify_candidates ids st = Some st' →
  ∃ records calls,
    lc_found_ st' = lc_found_ st ++ records ∧
    graph_log st' = graph_log st ++ calls ∧
    length (filter (λ call, is_addEdge call = true) calls) = length records ∧
    cluster_queue_ st' = cluster_queue_ st ∧ c_cluster_ st' = c_cluster_ st ∧
    hash_ st' = hash_ st ∧ hash_table_ st' = hash_table_ st ∧
    execution_dir_ok st' = execution_dir_ok st ∧ store st' = store st.
Proof.
  revert st. induction ids as [|id rest IH]; intros st; cbn.
  - intros [= <-]. exists [], []. rewrite !app_nil_r. repeat split; done.
  - destruct (rows (getLdb (readCluster st id)) =? 0); [apply IH|].
    destruct (closeLoopWithCluster st (readCluster st id)) as [[valid st1]|] eqn:Hrun;
      [|discriminate]. cbn. intros Hrest.
    destruct (closeLoopWithCluster_appends _ _ _ _ Hrun)
      as (r1 & c1 & A1 & A2 & A3 & _ & A4 & A5 & A6 & A7 & A8 & A9).
    destruct (IH _ Hrest) as (r2 & c2 & B1 & B2 & B3 & B4 & B5 & B6 & B7 & B8 & B9).
    exists (r1 ++ r2), (c1 ++ c2).
    rewrite B1, B2, B4, B5, B6, B7, B8, B9, A1, A2, A4, A5, A6, A7, A8, A9, <- !app_assoc.
    repeat split; try done. rewrite filter_app, !length_app. lia.
Qed.

(** X4.  A search only adds to the graph and to the list of loop closures:
    after [searchByProximity] or [searchByHash] the records and the graph
    calls made before are still there, in their places, followed by the new
    ones, one [addEdge] for each new record; the queue, the current
    cluster, the hash, the table and the files are untouched. *)
Theorem searches_append_only st st' :
  searchByProximity st = Some st' ∨ searchByHash st = Some st' →
  ∃ records calls,
    lc_found_ st' = lc_found_ st ++ records ∧
    graph_log st' = graph_log st ++ calls ∧
    length (filter (λ call, is_addEdge call = true) calls) = length records ∧
    cluster_queue_ st' = cluster_queue_ st ∧ c_cluster_ st' = c_cluster_ st ∧
    hash_ st' = hash_ st ∧ hash_table_ st' = hash_table_ st ∧
    execution_dir_ok st' = execution_dir_ok st ∧ store st' = store st.
Proof.
  intros [H|H].
  - by apply verify_candidates_appends in H.
  - unfold searchByHash in H.
    destruct (getCandidates st (getId (c_cluster_ st))); [|discriminate].
    by apply verify_candidates_appends in H.
Qed.

(** ** The gate of stage 1, in counts *)

(** X7.  With the rounding, the gate of stage 1 opens at 35.5 percent: for
    clusters with rows, the verification goes past stage 1 exactly when
    200 times the matches reach 71 times the smaller row count. *)
Theorem stage1_gate_in_counts st candidate :
  0 < rows (getLdb (c_cluster_ st)) → 0 < rows (getLdb candidate) →
  let matches :=
    Z.of_nat (length (ratioMatching E (getLdb (c_cluster_ st)) (getLdb candidate) matching_th)) in
  let smaller := Z.min (rows (getLdb (c_cluster_ st))) (rows (getLdb candidate)) in
  passes_stage1 st candidate ↔ 71 * smaller ≤ 200 * matches.
Proof.
  intros Hc Hn matches smaller. unfold passes_stage1.
  rewrite (stage1_percentage_value E st candidate Hc Hn).
  fold matches. fold smaller.
  assert (0 < smaller) as Hs by (unfold smaller; lia).
  assert (0 ≤ matches) as Hm by (unfold matches; lia).
  clearbody smaller matches.
  pose proof (Z.div_mod (200 * matches + smaller) (2 * smaller)) as Hdm.
  pose proof (Z.mod_pos_bound (200 * matches + smaller) (2 * smaller)) as Hmod.
  split.
  - intros (p & [= <-] & Hp). nia.
  - intros H. eexists. split; [reflexivity|].
    assert (36 ≤ (200 * matches + smaller) `div` (2 * smaller)); [|lia].
    apply Z.div_le_lower_bound; lia.
Qed.

(** ** Where the edges of a verification can go *)

Lemma at_elem_of {A} (v : list A) (i : Z) (x : A) : at_ v i = Some x → x ∈ v.
Proof. intros [_ H]%at_Some. by eapply list_elem_of_lookup_2. Qed.

Lemma readCluster_id st id :
  rows (getLdb (readCluster st id)) ≠ 0 → getId (readCluster st id) = id.
Proof.
  unfold readCluster. destruct (store st !! id) as [[|fs]|]; cbn; done.
Qed.

Lemma candidate_pool_ids st candidate x :
  x ∈ cluster_candidate_list (candidate_pool st candidate) →
  x = getId candidate ∨
  x ∈ findClosestVertices E (getId candidate) (getId (c_cluster_ st))
        (LC_DISCARD_WINDOW E) (LC_NEIGHBORS E).
Proof.
  unfold candidate_pool.
  set (neighbors := findClosestVertices E _ _ _ _).
  set (init := mkCandidatePool _ _ _ _).
  assert (∀ l acc,
    (∀ y, y ∈ cluster_candidate_list acc → y = getId candidate ∨ y ∈ neighbors) →
    (∀ j, j ∈ l → j ∈ neighbors) →
    ∀ y, y ∈ cluster_candidate_list (fold_left (add_candidate_neighbor E st) l acc) →
         y = getId candidate ∨ y ∈ neighbors) as Hfold.
  { induction l as [|j l IH]; intros acc Hacc Hl; [exact Hacc|].
    cbn [fold_left]. apply IH; [|intros j' Hj'; apply Hl; by right].
    unfold add_candidate_neighbor.
    destruct (rows (getLdb (readCluster st j)) =? 0) eqn:Hz; [exact Hacc|].
    apply Z.eqb_neq in Hz. cbn. intros y [Hy|Hy]%elem_of_app; [by apply Hacc|].
    apply elem_of_replicate in Hy as [-> _]. right.
    rewrite (readCluster_id st j Hz). apply Hl. by left. }
  apply (Hfold neighbors init); [|done].
  intros y Hy. cbn in Hy. apply elem_of_replicate in Hy as [-> _]. by left.
Qed.

Lemma frame_pool_ids st x :
  x ∈ cluster_frame_list (frame_pool st) →
  x = getId (c_cluster_ st) ∨ x ∈ getFrameVertices E (getFrameId (c_cluster_ st)).
Proof.
  unfold frame_pool.
  set (frame_clusters := getFrameVertices E _).
  set (init := mkFramePool _ _ _).
  assert (∀ l acc,
    (∀ y, y ∈ cluster_frame_list acc → y = getId (c_cluster_ st) ∨ y ∈ frame_clusters) →
    (∀ j, j ∈ l → j ∈ frame_clusters) →
    ∀ y, y ∈ cluster_frame_list (fold_left (add_frame_cluster E st) l acc) →
         y = getId (c_cluster_ st) ∨ y ∈ frame_clusters) as Hfold.
  { induction l as [|j l IH]; intros acc Hacc Hl; [exact Hacc|].
    cbn [fold_left]. apply IH; [|intros j' Hj'; apply Hl; by right].
    unfold add_frame_cluster.
    destruct (j =? getId (c_cluster_ st)); [exact Hacc|].
    destruct (rows (getLdb (readCluster st j)) =? 0) eqn:Hz; [exact Hacc|].
    apply Z.eqb_neq in Hz. cbn. intros y [Hy|Hy]%elem_of_app; [by apply Hacc|].
    apply elem_of_replicate in Hy as [-> _]. right.
    rewrite (readCluster_id st j Hz). apply Hl. by left. }
  apply (Hfold frame_clusters init); [|done].
  intros y Hy. cbn in Hy. apply elem_of_replicate in Hy as [-> _]. by left.
Qed.

Lemma store_matchings_ids fp cp matches_2 m :
  store_matchings fp cp matches_2 = Some m →
  (∀ f, f ∈ frame_matchings m → f ∈ cluster_frame_list fp) ∧
  (∀ c, c ∈ candidate_matchings m → c ∈ cluster_candidate_list cp) ∧
  length (frame_matchings m) = length matches_2 ∧
  length (candidate_matchings m) = length matches_2.
Proof.
  revert m. induction matches_2 as [|d rest IH]; intros m; cbn.
  - intros [= <-]. cbn. repeat split; try done; by intros ? ?%elem_of_nil.
  - destruct (at_ (all_frame_kp fp) (queryIdx d)); [|done]. cbn.
    destruct (at_ (all_candidate_points cp) (trainIdx d)); [|done]. cbn.
    destruct (at_ (all_candidate_kp cp) (trainIdx d)); [|done]. cbn.
    destruct (at_ (cluster_frame_list fp) (queryIdx d)) as [f0|] eqn:Hf; [|done]. cbn.
    destruct (at_ (cluster_candidate_list cp) (trainIdx d)) as [c0|] eqn:Hc; [|done]. cbn.
    destruct (store_matchings fp cp rest) as [r|]; [|done]. cbn.
    intros [= <-]. cbn. destruct (IH r eq_refl) as (H1 & H2 & H3 & H4).
    repeat split; try (f_equal; done).
    + intros f [->|Hin]%elem_of_cons; [by eapply at_elem_of|by apply H1].
    + intros c [->|Hin]%elem_of_cons; [by eapply at_elem_of|by apply H2].
Qed.

Lemma inliers_per_cluster_pair_keys m inliers acc pairs :
  inliers_per_cluster_pair m inliers acc = Some pairs →
  ∀ k, k ∈ pairs.*1 →
    k ∈ acc.*1 ∨ (k.1 ∈ frame_matchings m ∧ k.2 ∈ candidate_matchings m).
Proof.
  revert acc. induction inliers as [|i rest IH]; intros acc; cbn.
  - intros [= <-] k Hk. by left.
  - destruct (at_ (frame_matchings m) i) as [f0|] eqn:Hf; [|done]. cbn.
    destruct (at_ (candidate_matchings m) i) as [c0|] eqn:Hc; [|done]. cbn.
    intros Hrun k Hk. destruct (IH _ Hrun k Hk) as [Hv|?]; [|by right].
    apply vote_keys in Hv as [?|Hk']; [by left|right]. subst k.
    split; by eapply at_elem_of.
Qed.

Lemma new_records_keys pairs k : k ∈ new_records pairs → k ∈ pairs.*1.
Proof.
  unfold new_records. rewrite list_elem_of_In, in_flat_map.
  intros (p & Hp%list_elem_of_In & Hk). destruct (5 <=? p.2); [|by destruct Hk].
  destruct Hk as [<-|[]]. apply list_elem_of_fmap. by exists p.
Qed.

(** X5.  A verification ties clusters of the current keyframe to the
    candidate and its neighbours, and to nothing else: in every record it
    appends, as in the edge that goes with it, the first vertex is the
    current cluster or a vertex of its frame, and the second is the
    candidate or one of the vertices the graph found close to it. *)
Theorem records_tie_frame_to_candidate st candidate b st' :
  closeLoopWithCluster st candidate = Some (b, st') →
  ∃ records,
    lc_found_ st' = lc_found_ st ++ records ∧
    ∀ f c, (f, c) ∈ records →
      (f = getId (c_cluster_ st) ∨
       f ∈ getFrameVertices E (getFrameId (c_cluster_ st))) ∧
      (c = getId candidate ∨
       c ∈ findClosestVertices E (getId candidate) (getId (c_cluster_ st))
             (LC_DISCARD_WINDOW E) (LC_NEIGHBORS E)).
Proof.
  intros Hrun.
  destruct (closeLoopWithCluster_cases E st candidate)
    as [[_ H]|[(m & rvec & tvec & inliers & pairs & Hreach & H)|[_ H]]];
    rewrite H in Hrun; [| |discriminate].
  - injection Hrun as <- <-. exists []. rewrite app_nil_r.
    split; [done|]. by intros f c ?%elem_of_nil.
  - injection Hrun as <- <-.
    destruct (finish_loop_add_edges E (tf_inverse E (buildTransformation E rvec tvec)) pairs st)
      as (_ & H2 & _).
    exists (new_records pairs). split; [exact H2|].
    destruct Hreach as (_ & _ & Hm & _ & _ & Hp).
    apply store_matchings_ids in Hm as (Hf & Hc & _).
    intros f c Hin%new_records_keys.
    destruct (inliers_per_cluster_pair_keys _ _ _ _ Hp _ Hin) as [?%elem_of_nil|[H1 H2']];
      [done|]. cbn in H1, H2'.
    split; [by apply frame_pool_ids, Hf|by apply candidate_pool_ids, Hc].
Qed.

(** ** Votes and inliers *)

Lemma total_votes_vote f c pairs : total_votes (vote f c pairs) = total_votes pairs + 1.
Proof.
  induction pairs as [|[[f0 c0] n] rest IH]; cbn; [lia|].
  destruct ((f0 =? f) && (c0 =? c)); cbn; [lia|].
  unfold total_votes in IH. rewrite IH. lia.
Qed.

Lemma inliers_per_cluster_pair_total m inliers acc pairs :
  inliers_per_cluster_pair m inliers acc = Some pairs →
  total_votes pairs = total_votes acc + Z.of_nat (length inliers).
Proof.
  revert acc. induction inliers as [|i rest IH]; intros acc; cbn [inliers_per_cluster_pair].
  - intros [= <-]. cbn. lia.
  - destruct (at_ (frame_matchings m) i) as [f0|]; [|done]. cbn.
    destruct (at_ (candidate_matchings m) i) as [c0|]; [|done]. cbn.
    intros Hrun. rewrite (IH _ Hrun), total_votes_vote. cbn [length]. lia.
Qed.

Lemma new_edges_weight est pairs :
  Forall (λ p, 1 ≤ p.2) pairs →
  5 * Z.of_nat (length (new_edges E est pairs)) ≤ total_weight (new_edges E est pairs) ∧
  total_weight (new_edges E est pairs) ≤ total_votes pairs.
Proof.
  induction 1 as [|[[f c] n] rest Hn _ [IH1 IH2]]; [cbn; lia|].
  change (new_edges E est ((f, c, n) :: rest))
    with ((if 5 <=? n then [addEdge c f (edge_transform E est f c) n] else [])
          ++ new_edges E est rest).
  cbn in Hn. cbn [total_votes foldr snd].
  fold (total_votes rest).
  destruct (5 <=? n) eqn:H5; cbn [app].
  - apply Z.leb_le in H5. cbn [length total_weight foldr call_weight].
    fold (total_weight (new_edges E est rest)). lia.
  - lia.
Qed.

(** X6.  Every inlier votes once: the votes of stage 5 add up to the number
    of inliers.  So the edges of a verification that reaches stage 6 weigh
    together no more than RANSAC found inliers, and there are at most a
    fifth as many edges as inliers. *)
Theorem votes_add_up_to_inliers st candidate m rvec tvec inliers pairs :
  reaches_stage6 st candidate m rvec tvec inliers pairs →
  total_votes pairs = Z.of_nat (length inliers) ∧
  ∃ st' edges,
    closeLoopWithCluster st candidate = Some (true, st') ∧
    graph_log st' = graph_log st ++ edges ++ [update] ∧
    5 * Z.of_nat (length edges) ≤ total_weight edges ∧
    total_weight edges ≤ Z.of_nat (length inliers).
Proof.
  intros Hreach.
  pose proof Hreach as (_ & _ & _ & _ & _ & Hp).
  pose proof (inliers_per_cluster_pair_total _ _ _ _ Hp) as Htotal. cbn in Htotal.
  split; [lia|].
  destruct (inliers_per_cluster_pair_spec _ _ _ _ Hp) as (_ & Hpos & _);
    [apply NoDup_nil_2|constructor|].
  set (est := tf_inverse E (buildTransformation E rvec tvec)).
  destruct (new_edges_weight est pairs Hpos) as [Hw1 Hw2].
  destruct (closeLoopWithCluster_cases E st candidate)
    as [[Hab Hrun]|[(m' & rvec' & tvec' & inliers' & pairs' & Hreach' & Hrun)|[Hout Hrun]]].
  - exfalso. destruct Hreach as ((p & Hp1 & G1) & G2 & Hm & Hr & G3 & _).
    destruct Hab as [(p' & Hp' & ?)|[[_ ?]|(_ & _ & m' & Hm' & ?)]]; [| lia |].
    + rewrite Hp1 in Hp'. injection Hp' as <-. lia.
    + rewrite Hm in Hm'. injection Hm' as <-. rewrite Hr in *. cbn in *. lia.
  - destruct Hreach as (_ & _ & Hm & Hr & _ & _).
    destruct Hreach' as (_ & _ & Hm' & Hr' & _ & Hp').
    rewrite Hm in Hm'. injection Hm' as <-.
    rewrite Hr in Hr'. injection Hr' as <- <- <-.
    rewrite Hp in Hp'. injection Hp' as <-.
    destruct (finish_loop_add_edges E est pairs st) as (H1 & _).
    eexists. exists (new_edges E est pairs).
    split; [exact Hrun|]. split; [exact H1|]. split; [exact Hw1|lia].
  - exfalso. destruct Hreach as ((p & Hp1 & _) & _ & Hm & Hr & _ & _).
    destruct Hout as [Hn|(_ & _ & [Hn|(m' & Hm' & _ & Hn)])]; [congruence..|].
    rewrite Hm in Hm'. injection Hm' as <-. rewrite Hr in Hn. cbn in Hn. congruence.
Qed.

Lemma inliers_per_cluster_pair_one_pair m inliers f c k :
  (∀ i, i ∈ inliers → supports m f c i = true) →
  inliers_per_cluster_pair m inliers [(f, c, k)] =
    Some [(f, c, k + Z.of_nat (length inliers))].
Proof.
  revert k. induction inliers as [|i rest IH]; intros k Hall; cbn [inliers_per_cluster_pair].
  - cbn. by rewrite Z.add_0_r.
  - pose proof (Hall i ltac:(by left)) as Hi. unfold supports in Hi.
    destruct (at_ (frame_matchings m) i) as [f0|]; [|done].
    destruct (at_ (candidate_matchings m) i) as [c0|]; [|done].
    apply andb_true_iff in Hi as [->%Z.eqb_eq ->%Z.eqb_eq].
    cbn. rewrite !Z.eqb_refl. cbn.
    rewrite IH by (intros j Hj; apply Hall; by right).
    do 3 f_equal. cbn [length]. lia.
Qed.

(** X8.  When all the inliers of a verification support one pair and the
    inlier minimum is 5 or more, the verification adds exactly one edge,
    weighted by the number of inliers, and one record, then calls
    [update]: with such a minimum, a success without an edge takes inliers
    spread over several pairs. *)
Theorem one_pair_one_edge st candidate m rvec tvec inliers pairs f c :
  reaches_stage6 st candidate m rvec tvec inliers pairs →
  (5 ≤ LC_MIN_INLIERS E)%nat →
  (∀ i, i ∈ inliers → supports m f c i = true) →
  ∃ st',
    closeLoopWithCluster st candidate = Some (true, st') ∧
    graph_log st' =
      graph_log st ++
      [addEdge c f
         (edge_transform E (tf_inverse E (buildTransformation E rvec tvec)) f c)
         (Z.of_nat (length inliers));
       update] ∧
    lc_found_ st' = lc_found_ st ++ [(f, c)].
Proof.
  intros Hreach Hmin Hall.
  pose proof Hreach as (_ & _ & _ & _ & G3 & Hp).
  assert (pairs = [(f, c, Z.of_nat (length inliers))]) as ->.
  { destruct inliers as [|i rest]; [cbn in G3; lia|].
    pose proof (Hall i ltac:(by left)) as Hi. unfold supports in Hi.
    cbn [inliers_per_cluster_pair] in Hp.
    destruct (at_ (frame_matchings m) i) as [f0|]; [|done].
    destruct (at_ (candidate_matchings m) i) as [c0|]; [|done].
    apply andb_true_iff in Hi as [->%Z.eqb_eq ->%Z.eqb_eq].
    cbn in Hp. rewrite inliers_per_cluster_pair_one_pair in Hp
      by (intros j Hj; apply Hall; by right).
    injection Hp as <-. do 3 f_equal. cbn [length]. lia. }
  set (est := tf_inverse E (buildTransformation E rvec tvec)).
  destruct (closeLoopWithCluster_cases E st candidate)
    as [[Hab Hrun]|[(m' & rvec' & tvec' & inliers' & pairs' & Hreach' & Hrun)|[Hout Hrun]]].
  - exfalso. destruct Hreach as ((p & Hp1 & G1) & G2 & Hm & Hr & _ & _).
    destruct Hab as [(p' & Hp' & ?)|[[_ ?]|(_ & _ & m' & Hm' & ?)]]; [| lia |].
    + rewrite Hp1 in Hp'. injection Hp' as <-. lia.
    + rewrite Hm in Hm'. injection Hm' as <-. rewrite Hr in *. cbn in *. lia.
  - destruct Hreach as (_ & _ & Hm & Hr & _ & _).
    destruct Hreach' as (_ & _ & Hm' & Hr' & _ & Hp').
    rewrite Hm in Hm'. injection Hm' as <-.
    rewrite Hr in Hr'. injection Hr' as <- <- <-.
    rewrite Hp in Hp'. injection Hp' as <-.
    destruct (finish_loop_add_edges E est [(f, c, Z.of_nat (length inliers))] st)
      as (H1 & H2 & _).
    eexists. split; [exact Hrun|].
    assert ((5 <=? Z.of_nat (length inliers)) = true) as H5 by (apply Z.leb_le; lia).
    subst est. rewrite H1, H2. unfold new_edges, new_records. cbn. rewrite H5. done.
  - exfalso. destruct Hreach as ((p & Hp1 & _) & _ & Hm & Hr & _ & _).
    destruct Hout as [Hn|(_ & _ & [Hn|(m' & Hm' & _ & Hn)])]; [congruence..|].
    rewrite Hm in Hm'. injection Hm' as <-. rewrite Hr in Hn. cbn in Hn. congruence.
Qed.

(** ** More on the hash candidates *)

Lemma all_matchings_ids st q hash_q :
  sublist
    (flat_map (hash_matching st q (no_candidates_of (lc_found_ st) q) hash_q)
       (hash_table_ st)).*1
    (hash_table_ st).*1.
Proof.
  induction (hash_table_ st) as [|entry rest IH]; [done|].
  cbn [flat_map]. rewrite fmap_app, fmap_cons. unfold hash_matching at 1.
  destruct ((q - LC_DISCARD_WINDOW E <? entry.1) && (entry.1 <? q + LC_DISCARD_WINDOW E));
    [by apply sublist_cons|].
  destruct (entry.1 =? q); [by apply sublist_cons|].
  case_bool_decide; [by apply sublist_cons|].
  cbn. by apply sublist_skip.
Qed.

(** X9.  No candidate is proposed twice: with a [std::sort] that sorts and
    a table of distinct cluster ids, the ids [getCandidates] returns are
    distinct. *)
Theorem candidates_are_distinct st q candidates :
  std_sort_spec E sortByMatching →
  NoDup (hash_table_ st).*1 →
  getCandidates st q = Some candidates →
  NoDup candidates.*1.
Proof.
  intros Hsort Hnd Hrun.
  destruct (decide (Z.of_nat (length (hash_table_ st)) ≤ LC_DISCARD_WINDOW E)) as [Hfew|Hmany].
  { rewrite getCandidates_few in Hrun by done. injection Hrun as <-. apply NoDup_nil_2. }
  apply getCandidates_enough in Hrun as (e & _ & ->); [|lia].
  set (all := flat_map _ _). destruct (Hsort all) as [Hperm _].
  rewrite fmap_take.
  apply (sublist_NoDup _ (std_sort E sortByMatching all).*1); [|apply sublist_take].
  rewrite Hperm. apply (sublist_NoDup _ _ Hnd), all_matchings_ids.
Qed.

(** X10.  The hash search honours the list of loop closures in both
    directions: once a and b are recorded together, in either order, and
    whatever the sort does with ties, [getCandidates] proposes neither b
    for a nor a for b. *)
Theorem hash_search_skips_recorded_pairs st a b :
  std_sort_spec E sortByMatching →
  (a, b) ∈ lc_found_ st →
  (∀ candidates, getCandidates st a = Some candidates → b ∉ candidates.*1) ∧
  (∀ candidates, getCandidates st b = Some candidates → a ∉ candidates.*1).
Proof.
  intros Hsort Hrec.
  assert (∀ q x candidates, recorded (lc_found_ st) q x →
            getCandidates st q = Some candidates → x ∉ candidates.*1) as Hskip.
  { intros q x candidates Hqx Hrun.
    destruct (decide (Z.of_nat (length (hash_table_ st)) ≤ LC_DISCARD_WINDOW E)) as [Hfew|Hmany].
    { rewrite getCandidates_few in Hrun by done. injection Hrun as <-. apply not_elem_of_nil. }
    apply getCandidates_enough in Hrun as (e & _ & ->); [|lia].
    set (all := flat_map _ _). destruct (Hsort all) as [Hperm _].
    intros (y & -> & Hy%elem_of_take_1)%list_elem_of_fmap.
    rewrite Hperm in Hy. apply elem_of_all_matchings in Hy as (h & _ & _ & _ & _ & Hn).
    by apply Hn. }
  split; intros candidates; apply Hskip; [by left|by right].
Qed.

(** ** The frustum filter *)

Section FrustumProperties.

Variable camera_model_ : Camera E.

Lemma isInFrustum_bounds point camera_pose :
  isInFrustum camera_model_ point camera_pose = true ↔
  let pixels :=
    project3dToPixel camera_model_
      (transformPoint camera_model_ point (tf_inverse E camera_pose)) in
  (0 <= pixels.1 ∧ pixels.1 <= inject_Z (fullResolution camera_model_).1 ∧
   0 <= pixels.2 ∧ pixels.2 <= inject_Z (fullResolution camera_model_).2)%Q.
Proof.
  unfold isInFrustum, Qlt_bool. cbn zeta.
  set (pixels := project3dToPixel _ _).
  rewrite <- !Qle_bool_iff.
  destruct (Qle_bool 0 pixels.1), (Qle_bool pixels.1 (inject_Z (fullResolution camera_model_).1)),
           (Qle_bool 0 pixels.2), (Qle_bool pixels.2 (inject_Z (fullResolution camera_model_).2));
    cbn; split; (done || (intros (? & ? & ? & ?); done)).
Qed.

Lemma filterByFrustum_from_inv i desc points camera_pose out_desc out_points od op :
  filterByFrustum_from camera_model_ i desc points camera_pose out_desc out_points
    = Some (od, op) →
  ∃ rows_kept points_kept,
    od = out_desc ++ rows_kept ∧ op = out_points ++ points_kept ∧
    length rows_kept = length points_kept ∧
    points_kept = filter (λ p, isInFrustum camera_model_ p camera_pose = true) points ∧
    ∀ k row p, rows_kept !! k = Some row → points_kept !! k = Some p →
      ∃ j, at_ desc (i + Z.of_nat j) = Some row ∧ points !! j = Some p.
Proof.
  revert i out_desc out_points.
  induction points as [|p rest IH]; intros i out_desc out_points; cbn [filterByFrustum_from].
  - intros [= <- <-]. exists [], []. rewrite !app_nil_r. repeat split; done.
  - rewrite filter_cons.
    destruct (isInFrustum camera_model_ p camera_pose) eqn:Hp.
    + destruct (at_ desc i) as [row0|] eqn:Hrow; [|done]. cbn.
      intros (rk & pk & -> & -> & Hlen & Hpk & Hal)%IH.
      exists (row0 :: rk), (p :: pk). rewrite <- !app_assoc. cbn.
      case_decide; [|done]. repeat split; try done; [by rewrite Hlen|by rewrite Hpk|].
      intros [|k] row q Hk Hq; cbn in Hk, Hq.
      * injection Hk as <-. injection Hq as <-. exists 0%nat. by rewrite Z.add_0_r.
      * destruct (Hal k row q Hk Hq) as (j & Hj1 & Hj2). exists (S j).
        split; [|done]. by replace (i + Z.of_nat (S j)) with (i + 1 + Z.of_nat j) by lia.
    + intros (rk & pk & -> & -> & Hlen & Hpk & Hal)%IH.
      exists rk, pk. case_decide; [done|]. repeat split; try done.
      intros k row q Hk Hq. destruct (Hal k row q Hk Hq) as (j & Hj1 & Hj2). exists (S j).
      split; [|done]. by replace (i + Z.of_nat (S j)) with (i + 1 + Z.of_nat j) by lia.
Qed.

Lemma filterByFrustum_from_defined k desc points camera_pose out_desc out_points :
  (k + length points ≤ length desc)%nat →
  is_Some (filterByFrustum_from camera_model_ (Z.of_nat k) desc points camera_pose
             out_desc out_points).
Proof.
  revert k out_desc out_points.
  induction points as [|p rest IH]; intros k out_desc out_points Hlen;
    cbn [filterByFrustum_from]; [done|].
  cbn [length] in Hlen.
  replace (Z.of_nat k + 1) with (Z.of_nat (S k)) by lia.
  destruct (isInFrustum camera_model_ p camera_pose); [|apply IH; lia].
  rewrite at_lookup. destruct (lookup_lt_is_Some_2 desc k) as [row ->]; [lia|].
  cbn. apply IH. lia.
Qed.

Lemma filterByFrustum_from_visible pre rows_in points camera_pose out_desc out_points :
  length rows_in = length points →
  Forall (λ p, isInFrustum camera_model_ p camera_pose = true) points →
  filterByFrustum_from camera_model_ (Z.of_nat (length pre)) (pre ++ rows_in) points
    camera_pose out_desc out_points
  = Some (out_desc ++ rows_in, out_points ++ points).
Proof.
  revert pre rows_in out_desc out_points.
  induction points as [|p rest IH]; intros pre rows_in out_desc out_points Hlen Hall;
    cbn [filterByFrustum_from].
  - destruct rows_in; [|done]. by rewrite !app_nil_r.
  - destruct rows_in as [|row rows_in]; [done|].
    apply Forall_cons in Hall as [Hp Hall]. rewrite Hp.
    rewrite at_lookup, lookup_app_r, Nat.sub_diag by lia. cbn.
    replace (Z.of_nat (length pre) + 1) with (Z.of_nat (length (pre ++ [row])))
      by (rewrite length_app; cbn; lia).
    replace (pre ++ row :: rows_in) with ((pre ++ [row]) ++ rows_in)
      by (by rewrite <- app_assoc).
    rewrite IH; [|by injection Hlen|done]. by rewrite <- !app_assoc.
Qed.

(** X11.  [filterByFrustum], given a row for every point, returns the
    points the camera sees, in their order, each with the descriptor row
    that stood at its index: as many rows as points, and every point kept
    projects inside the image, borders included. *)
Theorem filterByFrustum_keeps_visible_points desc points camera_pose :
  (length points ≤ length desc)%nat →
  ∃ out_desc out_points,
    filterByFrustum camera_model_ desc points camera_pose = Some (out_desc, out_points) ∧
    out_points = filter (λ p, isInFrustum camera_model_ p camera_pose = true) points ∧
    length out_desc = length out_points ∧
    (∀ k row p, out_desc !! k = Some row → out_points !! k = Some p →
       ∃ j, desc !! j = Some row ∧ points !! j = Some p) ∧
    (∀ p, p ∈ out_points →
       let pixels :=
         project3dToPixel camera_model_
           (transformPoint camera_model_ p (tf_inverse E camera_pose)) in
       (0 <= pixels.1 ∧ pixels.1 <= inject_Z (fullResolution camera_model_).1 ∧
        0 <= pixels.2 ∧ pixels.2 <= inject_Z (fullResolution camera_model_).2)%Q).
Proof.
  intros Hlen. unfold filterByFrustum.
  destruct (filterByFrustum_from_defined 0 desc points camera_pose [] [])
    as [[od op] Hrun]; [lia|].
  cbn in Hrun. exists od, op. split; [exact Hrun|].
  apply filterByFrustum_from_inv in Hrun as (rk & pk & -> & -> & Hl & Hpk & Hal).
  cbn. split; [exact Hpk|]. split; [exact Hl|]. split.
  - intros k row p Hk Hp. destruct (Hal k row p Hk Hp) as (j & Hj1 & Hj2).
    exists j. rewrite Z.add_0_l, at_lookup in Hj1. done.
  - intros p Hp. rewrite Hpk in Hp. apply list_elem_of_filter in Hp as [Hp _].
    by apply isInFrustum_bounds in Hp.
Qed.

(** X12.  Filtering twice is filtering once: what [filterByFrustum]
    returns for a camera pose, it returns unchanged when given its own
    output for the same pose. *)
Theorem filterByFrustum_idempotent desc points camera_pose out_desc out_points :
  filterByFrustum camera_model_ desc points camera_pose = Some (out_desc, out_points) →
  filterByFrustum camera_model_ out_desc out_points camera_pose
    = Some (out_desc, out_points).
Proof.
  unfold filterByFrustum.
  intros (rk & pk & -> & -> & Hl & Hpk & _)%filterByFrustum_from_inv. cbn.
  apply (filterByFrustum_from_visible [] rk pk camera_pose [] [] Hl).
  rewrite Hpk. apply Forall_forall. by intros p [Hp _]%list_elem_of_filter.
Qed.

End FrustumProperties.

(** ** Shutdown *)

(** X13.  After [finalize] on a thread that had its scratch directory, no
    cluster can be read any more: every id reads as the empty cluster, so
    a search over any candidates verifies none of them and changes
    nothing, while the records, the table and the graph log stay as they
    were. *)
Theorem finalize_empties_the_store st :
  execution_dir_ok st = true →
  (∀ id, readCluster (finalize st) id = Cluster_default E) ∧
  (∀ ids, verify_candidates ids (finalize st) = Some (finalize st)) ∧
  searchByProximity (finalize st) = Some (finalize st) ∧
  lc_found_ (finalize st) = lc_found_ st ∧
  hash_table_ (finalize st) = hash_table_ st ∧
  graph_log (finalize st) = graph_log st ∧
  finalize (finalize st) = finalize st.
Proof.
  intros Hok. unfold finalize. rewrite Hok. cbn.
  assert (∀ id, readCluster
            (mkLoopClosing (cluster_queue_ st) (c_cluster_ st) (hash_ st) (hash_table_ st)
               (lc_found_ st) (num_loop_closures_ st) false ∅ (graph_log st)) id
          = Cluster_default E) as Hread.
  { intros id. apply readCluster_absent. left. apply lookup_empty. }
  assert (∀ ids, verify_candidates ids
            (mkLoopClosing (cluster_queue_ st) (c_cluster_ st) (hash_ st) (hash_table_ st)
               (lc_found_ st) (num_loop_closures_ st) false ∅ (graph_log st))
          = Some (mkLoopClosing (cluster_queue_ st) (c_cluster_ st) (hash_ st) (hash_table_ st)
               (lc_found_ st) (num_loop_closures_ st) false ∅ (graph_log st))) as Hverify.
  { intros ids. apply verify_candidates_all_empty. apply Forall_forall.
    intros id _. by rewrite Hread. }
  split; [exact Hread|]. split; [exact Hverify|]. split; [apply Hverify|done].
Qed.

(** ** The loop keeps the table dense *)

Lemma process_new_frame_inv st st' :
  process_new_frame st = Some st' →
  match cluster_queue_ st with
  | [] => st' = st
  | c :: queue =>
      c_cluster_ st' = c ∧ cluster_queue_ st' = queue ∧
      ∃ h, hash_table_ st' = hash_table_ st ++ [(getId c, h)]
  end.
Proof.
  unfold process_new_frame, checkNewClusterInQueue.
  destruct (cluster_queue_ st) as [|c queue] eqn:Hq; [by intros [= <-]|].
  destruct (processNewCluster st) as [st1|] eqn:H1; [|done]. cbn.
  destruct (searchByProximity st1) as [st2|] eqn:H2; [|done]. cbn. intros H3.
  apply processNewCluster_inv in H1 as (c' & queue' & Hq' & _ & Hc & Hqueue & _ & Htable & _).
  rewrite Hq in Hq'. injection Hq' as <- <-.
  apply verify_candidates_appends in H2 as (_ & _ & _ & _ & _ & A4 & A5 & _ & A7 & _).
  unfold searchByHash in H3.
  destruct (getCandidates st2 (getId (c_cluster_ st2))); [|discriminate].
  apply verify_candidates_appends in H3 as (_ & _ & _ & _ & _ & B4 & B5 & _ & B7 & _).
  rewrite B5, A5, B4, A4, B7, A7, Hc, Hqueue, Htable. eauto.
Qed.

Lemma numbered_from_tail {T} start (c : Cluster T) cs :
  numbered_from start (c :: cs) → getId c = Z.of_nat start ∧ numbered_from (S start) cs.
Proof.
  intros H. split.
  - rewrite (H 0%nat c eq_refl). f_equal. lia.
  - intros i c' Hi. rewrite (H (S i) c' Hi). f_equal. lia.
Qed.

(** X14.  The loop keeps cluster ids equal to table positions as long as
    the producer numbers its clusters in order: from a dense table, with
    the clusters waiting and arriving numbered from the table's length on,
    every run of the loop that returns leaves a dense table, has stored at
    most one cluster a round, has lost none, and leaves the clusters still
    waiting numbered from the new length on. *)
Theorem run_loop_keeps_ids_dense arrivals st out st' out' :
  dense (hash_table_ st) →
  numbered_from (length (hash_table_ st)) (cluster_queue_ st ++ concat arrivals) →
  run_loop arrivals st out = Some (st', out') →
  dense (hash_table_ st') ∧
  numbered_from (length (hash_table_ st')) (cluster_queue_ st') ∧
  (length (hash_table_ st') + length (cluster_queue_ st') =
   length (hash_table_ st) + length (cluster_queue_ st) + length (concat arrivals))%nat ∧
  (length (hash_table_ st') ≤ length (hash_table_ st) + length arrivals)%nat.
Proof.
  revert st out. induction arrivals as [|pushed later IH]; intros st out Hd Hnum; cbn.
  - intros [= <- <-]. rewrite app_nil_r in Hnum. repeat split; try done; lia.
  - set (st0 := fold_left addClusterToQueue pushed st).
    destruct (process_new_frame st0) as [st1|] eqn:Hstep; [|done]. cbn. intros Hrun.
    assert (cluster_queue_ st0 = cluster_queue_ st ++ pushed) as Hq0
      by apply cluster_queue_pushed.
    assert (hash_table_ st0 = hash_table_ st) as Ht0.
    { unfold st0. clear. revert st. induction pushed as [|c cs IH]; intros st; [done|].
      cbn [fold_left]. by rewrite IH. }
    cbn [concat] in Hnum. rewrite app_assoc, <- Hq0, <- Ht0 in Hnum. rewrite <- Ht0 in Hd.
    apply process_new_frame_inv in Hstep.
    destruct (cluster_queue_ st0) as [|c queue] eqn:Hq.
    + subst st1. rewrite <- Hq in Hnum.
      destruct (IH _ _ Hd Hnum Hrun) as (H1 & H2 & H3 & H4).
      rewrite Hq in H3. rewrite Ht0 in H3, H4.
      assert (length (cluster_queue_ st) + length pushed = 0)%nat as Hz.
      { rewrite <- length_app, <- Hq0. done. }
      repeat split; try done; rewrite ?length_app; cbn in *; lia.
    + destruct Hstep as (_ & Hq1 & h & Ht1).
      cbn [app] in Hnum. apply numbered_from_tail in Hnum as [Hid Hnum].
      assert (dense (hash_table_ st1)) as Hd1.
      { rewrite Ht1, Hid. by apply dense_snoc. }
      assert (length (hash_table_ st1) = S (length (hash_table_ st0))) as Hl1.
      { rewrite Ht1, length_app. cbn. lia. }
      rewrite <- Hq1, <- Hl1 in Hnum.
      destruct (IH _ _ Hd1 Hnum Hrun) as (H1 & H2 & H3 & H4).
      assert (S (length queue) = length (cluster_queue_ st) + length pushed)%nat as Hz.
      { rewrite <- length_app, <- Hq0. done. }
      rewrite Hq1, Hl1, Ht0 in H3. rewrite Hl1, Ht0 in H4.
      repeat split; try done; rewrite ?length_app; cbn in *; lia.
Qed.

End MoreProperties.

(** * stereo_slam_base.cpp *)

(** Membership in a list written with [::] and [++]. *)
Ltac find_elem :=
  lazymatch goal with
  | |- _ ∈ _ ++ _ => apply elem_of_app; first [left; find_elem | right; find_elem]
  | |- _ ∈ _ :: _ => apply elem_of_cons; first [left; reflexivity | right; find_elem]
  end.

Section BaseProperties.

Variable E : External.
Variable w : Base.World (Transform E).

Implicit Types (s : Base.Node (Transform E)).

(** ** initializeStereoSlam *)

Lemma string_length_append (s1 s2 : string) :
  String.length (s1 +:+ s2) = (String.length s1 + String.length s2)%nat.
Proof. induction s1 as [|c s1 IH]; [done|]. simpl. f_equal. exact IH. Qed.

Lemma last_char_append_slash (path : string) : Base.last_char (path +:+ "/") = Some "/"%char.
Proof.
  unfold Base.last_char. rewrite string_length_append. cbn.
  rewrite Nat.add_1_r.
  pose proof (String.append_correct2 path "/" 0) as H. cbn in H. by rewrite <- H.
Qed.

(** The path [initializeStereoSlam] settles on for a [files_path] with a
    last character. *)
Lemma normalised_path_ends_with_slash (path : string) c :
  Base.last_char path = Some c →
  Base.last_char (if negb (Ascii.eqb c "/") then path +:+ "/" else path) = Some "/"%char.
Proof.
  intros Hc. destruct (Ascii.eqb c "/") eqn:Heq; cbn.
  - apply Ascii.eqb_eq in Heq. by subst c.
  - apply last_char_append_slash.
Qed.

(** X15.  When [initializeStereoSlam] returns true, the node is fit to
    run: the solver is one of the two known, the matches threshold is at
    least 5, [files_path] ends with a slash (it is the given one, with a
    slash added if it had none), the update timer runs, the two graph
    files of that path have been removed, and if the database answered,
    its connection is good. *)
Theorem initialize_success_means_valid s s' acts :
  Base.initializeStereoSlam E w s = Some (true, s', acts) →
  let p := Base.params_ s in
  let p' := Base.params_ s' in
  (Base.g2o_algorithm p' = 0 ∨ Base.g2o_algorithm p' = 1) ∧
  5 ≤ Base.matches_threshold p' ∧
  Base.last_char (Base.files_path p') = Some "/"%char ∧
  (Base.files_path p' = Base.files_path p ∨
   Base.files_path p' = Base.files_path p +:+ "/") ∧
  (Base.isConnected w = true → Base.connection_ok w = true) ∧
  Base.createWallTimer (Base.update_rate p) ∈ acts ∧
  Base.remove (Base.files_path p' +:+ "graph_vertices.txt") ∈ acts ∧
  Base.remove (Base.files_path p' +:+ "graph_edges.txt") ∈ acts ∧
  Base.first_message_ s' = true ∧ Base.first_vertex_ s' = true ∧
  Base.block_update_ s' = false ∧ Base.block_insertion_ s' = false.
Proof.
  unfold Base.initializeStereoSlam, Base.database_initialization.
  destruct ((Base.g2o_algorithm (Base.params_ s) =? 0)
            || (Base.g2o_algorithm (Base.params_ s) =? 1)) eqn:Halg; cbn [negb];
    [|discriminate].
  assert (Base.g2o_algorithm (Base.params_ s) = 0 ∨ Base.g2o_algorithm (Base.params_ s) = 1)
    as Halg' by (apply orb_true_iff in Halg as [?%Z.eqb_eq|?%Z.eqb_eq]; tauto).
  destruct (Base.isConnected w) eqn:Hcon; cbn [negb].
  - destruct (Base.connection_ok w) eqn:Hok; cbn [negb]; [|discriminate].
    destruct (Base.matches_threshold (Base.params_ s) <? 5) eqn:Hmt; [discriminate|].
    apply Z.ltb_ge in Hmt.
    destruct (Base.last_char (Base.files_path (Base.params_ s))) as [c|] eqn:Hc; [|discriminate].
    cbn. intros [= <- <-]. cbn.
    split; [exact Halg'|]. split; [exact Hmt|].
    split; [by apply normalised_path_ends_with_slash|].
    split; [destruct (negb (Ascii.eqb c "/")); tauto|].
    split; [done|].
    split; [find_elem|]. split; [find_elem|]. split; [find_elem|]. done.
  - destruct (Base.matches_threshold (Base.params_ s) <? 5) eqn:Hmt; [discriminate|].
    apply Z.ltb_ge in Hmt.
    destruct (Base.last_char (Base.files_path (Base.params_ s))) as [c|] eqn:Hc; [|discriminate].
    cbn. intros [= <- <-]. cbn.
    split; [exact Halg'|]. split; [exact Hmt|].
    split; [by apply normalised_path_ends_with_slash|].
    split; [destruct (negb (Ascii.eqb c "/")); tauto|].
    split; [done|].
    split; [find_elem|]. split; [find_elem|]. split; [find_elem|]. done.
Qed.

(** X16.  The node a successful [initializeStereoSlam] returns is a fixed
    point of it: initialising it again gives the same node back and
    returns true, [files_path] getting no second slash, whatever the file
    system answers by then, unless the database then answers and its
    second connection fails.  Under the same answers it also does the
    same things. *)
Theorem initialize_is_idempotent s s' acts (w2 : Base.World (Transform E)) :
  Base.initializeStereoSlam E w s = Some (true, s', acts) →
  (Base.isConnected w2 = true → Base.connection_ok w2 = true) →
  (∃ acts2, Base.initializeStereoSlam E w2 s' = Some (true, s', acts2)) ∧
  Base.initializeStereoSlam E w s' = Some (true, s', acts).
Proof.
  intros Hinit Hdb. revert Hinit.
  unfold Base.initializeStereoSlam, Base.database_initialization.
  destruct ((Base.g2o_algorithm (Base.params_ s) =? 0)
            || (Base.g2o_algorithm (Base.params_ s) =? 1)) eqn:Halg; cbn [negb];
    [|discriminate].
  destruct (Base.isConnected w) eqn:Hcon; cbn [negb];
    [destruct (Base.connection_ok w) eqn:Hok; cbn [negb]; [|discriminate]|];
    (destruct (Base.matches_threshold (Base.params_ s) <? 5) eqn:Hmt; [discriminate|]);
    (destruct (Base.last_char (Base.files_path (Base.params_ s))) as [c|] eqn:Hc;
       [|discriminate]);
    cbn; intros [= <- <-]; cbn; rewrite Halg, Hmt; cbn;
    rewrite (normalised_path_ends_with_slash _ c Hc); cbn;
    (split; [|reflexivity]);
    (destruct (Base.isConnected w2); cbn; [rewrite (Hdb eq_refl); cbn|]);
    eexists; reflexivity.
Qed.

(** A list of actions holds no removal and no shell command. *)
Ltac no_such_action H :=
  lazymatch type of H with
  | _ ∈ [] => by apply elem_of_nil in H
  | _ ∈ _ :: _ => apply elem_of_cons in H as [H|H]; [discriminate H|no_such_action H]
  | _ ∈ _ ++ _ => apply elem_of_app in H as [H|H]; no_such_action H
  | _ ∈ (if ?b then _ else _) => destruct b; no_such_action H
  end.

(** X17.  When [initializeStereoSlam] returns false it has touched no
    file: it ran no shell command, removed nothing and left [files_path]
    as given.  It does so in three cases only: a solver that is neither 0
    nor 1, before the database and the timer; a database that answers but
    whose second connection fails, before the timer; a matches threshold
    below 5, which it has by then replaced by 6, after starting the
    timer. *)
Theorem initialize_failure_touches_no_file s s' acts :
  Base.initializeStereoSlam E w s = Some (false, s', acts) →
  let p := Base.params_ s in
  let p' := Base.params_ s' in
  (∀ file, Base.remove file ∉ acts) ∧
  (∀ command, Base.system command ∉ acts) ∧
  Base.files_path p' = Base.files_path p ∧
  ((Base.g2o_algorithm p ≠ 0 ∧ Base.g2o_algorithm p ≠ 1 ∧ p' = p ∧
    (∀ query, Base.PQexec query ∉ acts) ∧ (∀ period, Base.createWallTimer period ∉ acts)) ∨
   (Base.isConnected w = true ∧ Base.connection_ok w = false ∧ p' = p ∧
    (∀ period, Base.createWallTimer period ∉ acts)) ∨
   (Base.matches_threshold p < 5 ∧ Base.matches_threshold p' = 6 ∧
    Base.createWallTimer (Base.update_rate p) ∈ acts)).
Proof.
  unfold Base.initializeStereoSlam, Base.database_initialization.
  destruct ((Base.g2o_algorithm (Base.params_ s) =? 0)
            || (Base.g2o_algorithm (Base.params_ s) =? 1)) eqn:Halg; cbn [negb].
  - destruct (Base.isConnected w) eqn:Hcon; cbn [negb];
      [destruct (Base.connection_ok w) eqn:Hok; cbn [negb]|].
    + destruct (Base.matches_threshold (Base.params_ s) <? 5) eqn:Hmt.
      * apply Z.ltb_lt in Hmt. intros [= <- <-]. cbn.
        split; [intros file H; no_such_action H|].
        split; [intros command H; no_such_action H|].
        split; [done|]. right; right. split; [done|]. split; [done|]. find_elem.
      * destruct (Base.last_char (Base.files_path (Base.params_ s))); cbn; discriminate.
    + intros [= <- <-]. cbn.
      split; [intros file H; no_such_action H|].
      split; [intros command H; no_such_action H|].
      split; [done|]. right; left. split; [done|]. split; [done|]. split; [done|].
      intros period H; no_such_action H.
    + destruct (Base.matches_threshold (Base.params_ s) <? 5) eqn:Hmt.
      * apply Z.ltb_lt in Hmt. intros [= <- <-]. cbn.
        split; [intros file H; no_such_action H|].
        split; [intros command H; no_such_action H|].
        split; [done|]. right; right. split; [done|]. split; [done|]. find_elem.
      * destruct (Base.last_char (Base.files_path (Base.params_ s))); cbn; discriminate.
  - apply orb_false_iff in Halg as [H0%Z.eqb_neq H1%Z.eqb_neq].
    intros [= <- <-]. cbn.
    split; [intros file H; no_such_action H|].
    split; [intros command H; no_such_action H|].
    split; [done|]. left. split; [done|]. split; [done|]. split; [done|].
    split; [intros query H; no_such_action H|intros period H; no_such_action H].
Qed.

Lemma string_get_lt (str : string) n :
  (n < String.length str)%nat → is_Some (String.get n str).
Proof.
  revert n. induction str as [|a rest IH]; intros [|n] H; cbn in *; try lia; [eauto|].
  apply IH. lia.
Qed.

Lemma last_char_nonempty (str : string) : str ≠ ""%string → is_Some (Base.last_char str).
Proof.
  intros Hne. unfold Base.last_char.
  destruct (String.length str) as [|n] eqn:Hl; [by destruct str|].
  apply string_get_lt. lia.
Qed.

(** X18.  A database that cannot be reached does not stop the node: with
    a known solver, a matches threshold of 5 or more and a [files_path]
    that is not empty, [initializeStereoSlam] logs the failure to
    connect, sends no query, and returns true. *)
Theorem initialize_without_database s :
  Base.isConnected w = false →
  Base.g2o_algorithm (Base.params_ s) = 0 ∨ Base.g2o_algorithm (Base.params_ s) = 1 →
  5 ≤ Base.matches_threshold (Base.params_ s) →
  Base.files_path (Base.params_ s) ≠ ""%string →
  ∃ s' acts,
    Base.initializeStereoSlam E w s = Some (true, s', acts) ∧
    Base.ROS_ERROR "[StereoSlam:] Database failed to connect" ∈ acts ∧
    ∀ query, Base.PQexec query ∉ acts.
Proof.
  intros Hcon Halg Hmt Hpath.
  unfold Base.initializeStereoSlam, Base.database_initialization.
  assert ((Base.g2o_algorithm (Base.params_ s) =? 0)
          || (Base.g2o_algorithm (Base.params_ s) =? 1) = true) as ->.
  { apply orb_true_iff. destruct Halg as [->| ->]; [by left|by right]. }
  rewrite Hcon. cbn [negb].
  destruct (Base.matches_threshold (Base.params_ s) <? 5) eqn:Hlt;
    [apply Z.ltb_lt in Hlt; lia|].
  destruct (last_char_nonempty _ Hpath) as [c Hc]. rewrite Hc. cbn.
  eexists. eexists. split; [reflexivity|]. split; [find_elem|].
  intros query H. no_such_action H.
Qed.

(** ** saveGraph *)

Lemma vertex_lines_inv s lines :
  Base.vertex_lines E s = Some lines →
  length lines = size (Base.vertices s) ∧
  ∀ i line, lines !! i = Some line →
    Base.vl_index line = Z.of_nat i ∧
    Base.pose_history_stamp_ s !! i = Some (Base.vl_timestamp line) ∧
    Base.vertices s !! Z.of_nat i = Some (Base.vl_pose line) ∧
    Base.vl_frame_id line = Base.map_frame_id (Base.params_ s).
Proof.
  unfold Base.vertex_lines. intros H%mapM_Some.
  split.
  - apply Forall2_length in H. rewrite length_seqZ in H. lia.
  - intros i line Hi.
    destruct (Forall2_lookup_r _ _ _ _ _ H Hi) as (j & Hj & Hline).
    apply lookup_seqZ in Hj as [-> _]. cbv beta in Hline.
    rewrite Z.add_0_l, at_lookup in Hline.
    destruct (Base.pose_history_stamp_ s !! i) as [t|]; [|done]. cbn in Hline.
    destruct (Base.vertices s !! Z.of_nat i) as [pose|]; [|done]. cbn in Hline.
    by injection Hline as <-.
Qed.

Lemma vertex_lines_defined s :
  is_Some (Base.vertex_lines E s) ↔
  ∀ i, (i < size (Base.vertices s))%nat →
    is_Some (Base.pose_history_stamp_ s !! i) ∧ is_Some (Base.vertices s !! Z.of_nat i).
Proof.
  unfold Base.vertex_lines. split.
  - intros [lines H%mapM_Some] i Hi.
    assert (seqZ 0 (Z.of_nat (size (Base.vertices s))) !! i = Some (Z.of_nat i)) as Hj.
    { apply lookup_seqZ. lia. }
    destruct (Forall2_lookup_l _ _ _ _ _ H Hj) as (line & _ & Hline).
    cbv beta in Hline. rewrite at_lookup in Hline.
    destruct (Base.pose_history_stamp_ s !! i) as [t|]; [|done]. cbn in Hline.
    destruct (Base.vertices s !! Z.of_nat i) as [pose|]; [|done]. by split.
  - intros Hall. apply mapM_is_Some. apply Forall_forall.
    intros j [Hj0 Hj1]%elem_of_seqZ.
    destruct (Hall (Z.to_nat j)) as [[t Ht] [pose Hpose]]; [lia|].
    rewrite Z2Nat.id in Hpose by lia.
    unfold compose, at_. destruct (Z.ltb_spec j 0) as [?|_]; [lia|].
    rewrite Ht. cbn. rewrite Hpose. cbn. done.
Qed.

Lemma edge_lines_inv vs es counter lines :
  Base.edge_lines E vs es counter = Some lines →
  Base.el_counter <$> lines = seqZ counter (Z.of_nat (length lines)) ∧
  (λ line, (Some (Base.el_pose_0 line), Some (Base.el_pose_1 line))) <$> lines =
  (λ e, (vs !! e.1, vs !! e.2)) <$> Base.long_edges es.
Proof.
  revert counter lines. induction es as [|[v0 v1|] rest IH]; intros counter lines; cbn.
  - intros [= <-]. done.
  - destruct (1 <? Z.abs (v0 - v1)); [|apply IH].
    destruct (vs !! v0) as [pose_0|] eqn:H0; [|done]. cbn.
    destruct (vs !! v1) as [pose_1|] eqn:H1; [|done]. cbn.
    destruct (Base.edge_lines E vs rest (counter + 1)) as [lines'|] eqn:Hrest; [|done].
    cbn. intros [= <-]. destruct (IH _ _ Hrest) as [IH1 IH2]. cbn.
    rewrite IH1, IH2, ?H0, ?H1. split; [|done].
    rewrite (seqZ_cons counter) by lia. do 2 f_equal; lia.
  - apply IH.
Qed.

Lemma edge_lines_defined vs es counter :
  is_Some (Base.edge_lines E vs es counter) ↔
  ∀ e, e ∈ Base.long_edges es → is_Some (vs !! e.1) ∧ is_Some (vs !! e.2).
Proof.
  revert counter. induction es as [|[v0 v1|] rest IH]; intros counter; cbn.
  - split; [by intros _ e ?%elem_of_nil|done].
  - destruct (1 <? Z.abs (v0 - v1)); cbn; [|apply IH].
    split.
    + intros [lines H] e [->|He]%elem_of_cons.
      * cbn. destruct (vs !! v0); [|done]. destruct (vs !! v1); [|done]. by split.
      * destruct (vs !! v0); [|done]. destruct (vs !! v1); [|done]. cbn in H.
        destruct (Base.edge_lines E vs rest (counter + 1)) eqn:Hrest; [|done].
        apply (proj1 (IH (counter + 1))); [by rewrite Hrest|done].
    + intros Hall.
      destruct (Hall (v0, v1) ltac:(by left)) as [[p0 Hp0] [p1 Hp1]].
      cbn in Hp0, Hp1. rewrite Hp0, Hp1. cbn.
      destruct (proj2 (IH (counter + 1))) as [lines ->]; [|done].
      intros e He. apply Hall. by right.
  - apply IH.
Qed.

(** X19.  What [saveGraph] writes, when it returns: one line per vertex,
    in the order of the ids from 0, each with its index, the stamp of
    [pose_history_stamp_] at that index and the pose of the vertex; and
    one line for each SE3 edge between vertices whose ids differ by more
    than 1, in the order of the edges, numbered 0, 1, 2, ... with the
    poses of its two vertices.  Edges between a vertex and the next, or
    from a vertex to itself, are left out.  The block file is opened
    first and removed, and the function returns true. *)
Theorem saveGraph_writes_vertices_and_long_edges s r f_vertices f_edges acts :
  Base.saveGraph E w s = Some (r, f_vertices, f_edges, acts) →
  r = true ∧
  length f_vertices = size (Base.vertices s) ∧
  (∀ i line, f_vertices !! i = Some line →
     Base.vl_index line = Z.of_nat i ∧
     Base.pose_history_stamp_ s !! i = Some (Base.vl_timestamp line) ∧
     Base.vertices s !! Z.of_nat i = Some (Base.vl_pose line) ∧
     Base.vl_frame_id line = Base.map_frame_id (Base.params_ s)) ∧
  Base.el_counter <$> f_edges = seqZ 0 (Z.of_nat (length f_edges)) ∧
  (λ line, (Some (Base.el_pose_0 line), Some (Base.el_pose_1 line))) <$> f_edges =
  (λ e, (Base.vertices s !! e.1, Base.vertices s !! e.2)) <$> Base.long_edges (Base.edges s) ∧
  (∀ e, e ∈ Base.long_edges (Base.edges s) → 1 < Z.abs (e.1 - e.2)) ∧
  head acts = Some (Base.open_trunc (Base.files_path (Base.params_ s) +:+ ".block.txt")) ∧
  Base.remove (Base.files_path (Base.params_ s) +:+ ".block.txt") ∈ acts.
Proof.
  unfold Base.saveGraph.
  destruct (Base.vertex_lines E s) as [vl|] eqn:Hv; [|done]. cbn.
  destruct (Base.edge_lines E (Base.vertices s) (Base.edges s) 0) as [el|] eqn:He; [|done].
  cbn. intros [= <- <- <- <-].
  destruct (vertex_lines_inv _ _ Hv) as [H1 H2].
  destruct (edge_lines_inv _ _ _ _ He) as [H3 H4].
  split; [done|]. split; [exact H1|]. split; [exact H2|]. split; [exact H3|].
  split; [exact H4|]. split; [|split; [done|find_elem]].
  intros e. unfold Base.long_edges. rewrite list_elem_of_In, in_flat_map.
  intros ([v0 v1|] & _ & Hin); [|by destruct Hin].
  destruct (1 <? Z.abs (v0 - v1)) eqn:Hl; [|by destruct Hin].
  destruct Hin as [<-|[]]. cbn. by apply Z.ltb_lt.
Qed.

(** X20.  [saveGraph] returns exactly when every vertex index below the
    number of vertices has a stamp and a vertex, and both ends of every
    edge it writes are vertices; otherwise it reads past
    [pose_history_stamp_] or a vertex that is not there. *)
Theorem saveGraph_defined_iff s :
  is_Some (Base.saveGraph E w s) ↔
  (∀ i, (i < size (Base.vertices s))%nat →
     is_Some (Base.pose_history_stamp_ s !! i) ∧
     is_Some (Base.vertices s !! Z.of_nat i)) ∧
  (∀ e, e ∈ Base.long_edges (Base.edges s) →
     is_Some (Base.vertices s !! e.1) ∧ is_Some (Base.vertices s !! e.2)).
Proof.
  rewrite <- vertex_lines_defined, <- (edge_lines_defined _ _ 0).
  unfold Base.saveGraph.
  destruct (Base.vertex_lines E s) as [vl|]; cbn;
    [|split; [by intros [? ?]|by intros [[? ?] _]]].
  destruct (Base.edge_lines E (Base.vertices s) (Base.edges s) 0) as [el|]; cbn.
  - split; [by split|by eexists].
  - split; [by intros [? ?]|by intros [_ [? ?]]].
Qed.

(** X21.  The files agree after a successful start: the two files
    [saveGraph] truncates on the node [initializeStereoSlam] returned are
    the two files [initializeStereoSlam] removed, under a [files_path]
    that ends with a slash. *)
Theorem saveGraph_files_are_the_initialised_ones s s' acts r f_vertices f_edges acts' :
  Base.initializeStereoSlam E w s = Some (true, s', acts) →
  Base.saveGraph E w s' = Some (r, f_vertices, f_edges, acts') →
  ∃ path,
    path = Base.files_path (Base.params_ s') ∧
    Base.last_char path = Some "/"%char ∧
    Base.remove (path +:+ "graph_vertices.txt") ∈ acts ∧
    Base.remove (path +:+ "graph_edges.txt") ∈ acts ∧
    Base.open_trunc (path +:+ "graph_vertices.txt") ∈ acts' ∧
    Base.open_trunc (path +:+ "graph_edges.txt") ∈ acts'.
Proof.
  intros Hinit Hsave. exists (Base.files_path (Base.params_ s')). split; [done|].
  assert (Base.open_trunc (Base.files_path (Base.params_ s') +:+ "graph_vertices.txt") ∈ acts' ∧
          Base.open_trunc (Base.files_path (Base.params_ s') +:+ "graph_edges.txt") ∈ acts')
    as [S1 S2].
  { unfold Base.saveGraph in Hsave.
    destruct (Base.vertex_lines E s'); [|done]. cbn in Hsave.
    destruct (Base.edge_lines E (Base.vertices s') (Base.edges s') 0); [|done].
    cbn in Hsave. injection Hsave as <- <- <- <-. split; find_elem. }
  revert Hinit. unfold Base.initializeStereoSlam, Base.database_initialization.
  destruct ((Base.g2o_algorithm (Base.params_ s) =? 0)
            || (Base.g2o_algorithm (Base.params_ s) =? 1)); cbn [negb]; [|discriminate].
  destruct (Base.isConnected w); cbn [negb];
    [destruct (Base.connection_ok w); cbn [negb]; [|discriminate]|];
    (destruct (Base.matches_threshold (Base.params_ s) <? 5); [discriminate|]);
    (destruct (Base.last_char (Base.files_path (Base.params_ s))) as [c|] eqn:Hc;
       [|discriminate]);
    cbn; intros [= <- <-]; cbn in *;
    (split; [by apply normalised_path_ends_with_slash|]);
    (split; [find_elem|]); (split; [find_elem|]); done.
Qed.

(** ** msgsCallback *)

Lemma corrected_pose_defined s current_pose :
  is_Some (Base.corrected_pose E w s current_pose) ↔
  Base.pose_history_ s = [] ∨ size (Base.vertices s) = 0%nat ∨
  ((size (Base.vertices s) ≤ length (Base.pose_history_ s))%nat ∧
   is_Some (Base.vertices s !! (Z.of_nat (size (Base.vertices s)) - 1))).
Proof.
  unfold Base.corrected_pose.
  destruct (Z.ltb_spec 0 (Z.of_nat (length (Base.pose_history_ s)))) as [Hh|Hh]; cbn [andb].
  2:{ split; [|by eexists]. intros _. left.
      destruct (Base.pose_history_ s); [done|cbn in Hh; lia]. }
  destruct (Z.leb_spec 0 (Z.of_nat (size (Base.vertices s)) - 1)) as [Hv|Hv].
  2:{ split; [|by eexists]. intros _. right. left. lia. }
  unfold at_. destruct (Z.ltb_spec (Z.of_nat (size (Base.vertices s)) - 1) 0) as [?|_]; [lia|].
  split.
  - intros [r Hr]. right. right.
    destruct (Base.pose_history_ s !! _) as [lo|] eqn:Hlo; [|done]. cbn in Hr.
    destruct (Base.vertices s !! _) as [lv|] eqn:Hlv; [|done].
    split; [|done]. apply lookup_lt_Some in Hlo. lia.
  - intros [He|[He|[Hle [lv Hlv]]]].
    + rewrite He in Hh. cbn in Hh. lia.
    + lia.
    + destruct (lookup_lt_is_Some_2 (Base.pose_history_ s)
                  (Z.to_nat (Z.of_nat (size (Base.vertices s)) - 1))) as [lo ->]; [lia|].
      cbn. rewrite Hlv. cbn. by eexists.
Qed.

(** X22.  When insertion is not blocked, [msgsCallback] returns exactly
    when the history is empty, or the graph has no vertex, or the history
    is at least as long as the graph has vertices and the vertex with the
    last id is there.  Otherwise [pose_history_.at(last_vertex_idx)] is
    past the history, or the last vertex is missing. *)
Theorem msgsCallback_defined_iff s current_pose stamp :
  Base.block_insertion_ s = false →
  is_Some (Base.msgsCallback E w s current_pose stamp) ↔
  Base.pose_history_ s = [] ∨ size (Base.vertices s) = 0%nat ∨
  ((size (Base.vertices s) ≤ length (Base.pose_history_ s))%nat ∧
   is_Some (Base.vertices s !! (Z.of_nat (size (Base.vertices s)) - 1))).
Proof.
  intros Hb. rewrite <- (corrected_pose_defined s current_pose).
  unfold Base.msgsCallback. rewrite Hb.
  destruct (Base.corrected_pose E w s current_pose) as [[corrected pose_diff]|]; cbn.
  2:{ split; by intros [? ?]. }
  split; [by eexists|]. intros _.
  destruct (Qlt_bool _ _ || _); [|by eexists].
  destruct (negb _); [by eexists|].
  destruct (Base.vertexInsertion w s corrected) as [[] s1]; by eexists.
Qed.

(** X23.  As long as the optimizer has not moved the last vertex (its
    pose is the pose the history has for it), the pose [msgsCallback]
    publishes is the odometry pose itself, for transforms where
    [a * (a.inverse() * b)] is [b]. *)
Theorem msgsCallback_publishes_odometry_until_optimised
    s current_pose stamp s' acts pose :
  (∀ a b, tf_mul E a (tf_mul E (tf_inverse E a) b) = b) →
  at_ (Base.pose_history_ s) (Z.of_nat (size (Base.vertices s)) - 1) =
    Base.vertices s !! (Z.of_nat (size (Base.vertices s)) - 1) →
  Base.msgsCallback E w s current_pose stamp = Some (s', acts, Some pose) →
  pose = current_pose.
Proof.
  intros Hlaw Hsame. unfold Base.msgsCallback.
  destruct (Base.block_insertion_ s); [done|].
  destruct (Base.corrected_pose E w s current_pose) as [[corrected pose_diff]|] eqn:Hc;
    [|done].
  assert (corrected = current_pose) as ->.
  { revert Hc. unfold Base.corrected_pose.
    destruct (_ && _); [|by intros [= <- _]].
    rewrite Hsame.
    destruct (Base.vertices s !! _) as [lv|]; [|done]. cbn.
    intros [= <- _]. apply Hlaw. }
  cbn.
  destruct (Qlt_bool _ _ || _).
  - destruct (negb _); [done|].
    destruct (Base.vertexInsertion w s current_pose) as [[] s1];
      destruct (0 <? Base.getNumSubscribers w); by intros [= _ _ <-].
  - destruct (0 <? Base.getNumSubscribers w); by intros [= _ _ <-].
Qed.

(** X24.  [msgsCallback] never shortens the two histories and keeps them
    in step: given that [vertexInsertion] leaves them alone, they come
    back unchanged, or each one entry longer, with the odometry pose (not
    the corrected one) and the stamp of the message at the end; and the
    second only when [vertexInsertion] returned true. *)
Theorem msgsCallback_history_in_step s current_pose stamp s' acts published :
  (∀ s0 pose,
     Base.pose_history_ (Base.vertexInsertion w s0 pose).2 = Base.pose_history_ s0 ∧
     Base.pose_history_stamp_ (Base.vertexInsertion w s0 pose).2 =
       Base.pose_history_stamp_ s0) →
  Base.msgsCallback E w s current_pose stamp = Some (s', acts, published) →
  (Base.pose_history_ s' = Base.pose_history_ s ∧
   Base.pose_history_stamp_ s' = Base.pose_history_stamp_ s) ∨
  (Base.pose_history_ s' = Base.pose_history_ s ++ [current_pose] ∧
   Base.pose_history_stamp_ s' = Base.pose_history_stamp_ s ++ [stamp] ∧
   ∃ corrected, (Base.vertexInsertion w s corrected).1 = true).
Proof.
  intros Hframe. unfold Base.msgsCallback.
  destruct (Base.block_insertion_ s); [intros [= <- _ _]; by left|].
  destruct (Base.corrected_pose E w s current_pose) as [[corrected pose_diff]|]; [|done].
  cbn.
  destruct (Qlt_bool _ _ || _); [|intros [= <- _ _]; by left].
  destruct (negb _); [intros [= <- _ _]; by left|].
  specialize (Hframe s corrected).
  destruct (Base.vertexInsertion w s corrected) as [[] s1] eqn:Hins;
    cbn in Hframe; destruct Hframe as [H1 H2]; intros [= <- _ _].
  - right. cbn. rewrite H1, H2. repeat split. exists corrected. by rewrite Hins.
  - by left.
Qed.

(** X25.  With no vertex in the graph (or no pose in the history), after
    the first message and with a [min_displacement] of -1 or more,
    [msgsCallback] inserts nothing: the pose difference stays at -1, the
    node is unchanged, [vertexInsertion] is not called, and the odometry
    pose is published as it came. *)
Theorem msgsCallback_empty_graph_after_first_message s current_pose stamp :
  Base.block_insertion_ s = false →
  Base.first_message_ s = false →
  Base.pose_history_ s = [] ∨ size (Base.vertices s) = 0%nat →
  (-1 <= Base.min_displacement (Base.params_ s))%Q →
  Base.msgsCallback E w s current_pose stamp =
  Some (s, [], if 0 <? Base.getNumSubscribers w then Some current_pose else None).
Proof.
  intros Hb Hf Hempty Hmin. unfold Base.msgsCallback, Base.corrected_pose.
  rewrite Hb, Hf.
  assert ((0 <? Z.of_nat (length (Base.pose_history_ s)))
          && (0 <=? Z.of_nat (size (Base.vertices s)) - 1) = false) as ->.
  { destruct Hempty as [->| ->]; [done|]. apply andb_false_r. }
  cbn.
  assert (Qlt_bool (Base.min_displacement (Base.params_ s)) (-1) = false) as ->; [|done].
  unfold Qlt_bool. apply negb_false_iff, Qle_bool_iff, Hmin.
Qed.

End BaseProperties.

(** * The rest of the program at work *)

(** ** The thread *)

Lemma queue_first_in_first_out_witness :
  ∃ st',
    processNewCluster (fold_left (@addClusterToQueue revisit_world) [cluster_13] arrival) = Some st' ∧
    c_cluster_ st' :: cluster_queue_ st' = cluster_queue_ arrival ++ [cluster_13] ∧
    checkNewClusterInQueue st' = true.
Proof.
  eassert (processNewCluster (fold_left (@addClusterToQueue revisit_world) [cluster_13] arrival) = Some _)
    as Hrun by (vm_compute; reflexivity).
  destruct (queue_first_in_first_out revisit_world arrival [cluster_13] _ Hrun)
    as (H1 & _ & H3).
  eexists. split; [exact Hrun|]. split; [exact H1|]. apply H3. cbn. lia.
Defined.

Lemma hash_initialised_once_witness :
  ∃ st',
    processNewCluster arrival = Some st' ∧
    hash_isInitialized revisit_world (hash_ st') = true ∧
    hash_ st' = hash_ arrival.
Proof.
  eassert (processNewCluster arrival = Some _) as Hrun by (vm_compute; reflexivity).
  destruct (hash_initialised_once revisit_world arrival _ (λ _ _, eq_refl) Hrun)
    as (H1 & H2 & _).
  eexists. split; [exact Hrun|]. split; [exact H1|]. apply H2. reflexivity.
Defined.

Lemma processNewCluster_keeps_other_files_witness :
  ∃ st',
    processNewCluster (addClusterToQueue revisit cluster_13) = Some st' ∧
    0 ≠ getId (c_cluster_ st') ∧
    readCluster st' 0 = readCluster (addClusterToQueue revisit cluster_13) 0.
Proof.
  eassert (processNewCluster (addClusterToQueue revisit cluster_13) = Some _)
    as Hrun by (vm_compute; reflexivity).
  eexists. split; [exact Hrun|].
  assert (0 ≠ 13) as Hne by lia.
  split; [exact Hne|].
  exact (proj2 (processNewCluster_keeps_other_files revisit_world _ _ 0 Hrun Hne)).
Defined.

Lemma searches_append_only_witness :
  ∃ st' records calls,
    searchByProximity revisit = Some st' ∧
    lc_found_ st' = lc_found_ revisit ++ records ∧
    graph_log st' = graph_log revisit ++ calls ∧
    length (filter (λ call, is_addEdge call = true) calls) = length records.
Proof.
  eassert (searchByProximity revisit = Some _) as Hrun by (vm_compute; reflexivity).
  destruct (searches_append_only revisit_world revisit _ (or_introl Hrun))
    as (records & calls & H1 & H2 & H3 & _).
  eexists. exists records, calls. split; [exact Hrun|]. split; [exact H1|].
  split; [exact H2|exact H3].
Defined.

Lemma stage1_gate_in_counts_witness :
  0 < rows (getLdb (c_cluster_ revisit)) ∧
  0 < rows (getLdb (readCluster revisit 0)) ∧
  passes_stage1 revisit (readCluster revisit 0).
Proof.
  assert (0 < rows (getLdb (c_cluster_ revisit))) as Hc by (vm_compute; reflexivity).
  assert (0 < rows (getLdb (readCluster revisit 0))) as Hn by (vm_compute; reflexivity).
  split; [exact Hc|]. split; [exact Hn|].
  apply (proj2 (stage1_gate_in_counts revisit_world revisit (readCluster revisit 0) Hc Hn)).
  apply Z.leb_le. vm_compute. reflexivity.
Defined.

Lemma records_tie_frame_to_candidate_witness :
  ∃ st' records,
    closeLoopWithCluster revisit (readCluster revisit 0) = Some (true, st') ∧
    lc_found_ st' = lc_found_ revisit ++ records ∧
    ∀ f c, (f, c) ∈ records → f = 12 ∧ (c = 0 ∨ c = 1).
Proof.
  eassert (closeLoopWithCluster revisit (readCluster revisit 0) = Some (true, _))
    as Hrun by (vm_compute; reflexivity).
  destruct (records_tie_frame_to_candidate revisit_world revisit _ _ _ Hrun)
    as (records & H1 & H2).
  eexists. exists records. split; [exact Hrun|]. split; [exact H1|].
  intros f c Hin. destruct (H2 f c Hin) as [[Hf|Hf] [Hc|Hc]].
  - split; [exact Hf|]. left. exact Hc.
  - split; [exact Hf|]. right. cbn in Hc. by apply list_elem_of_singleton in Hc.
  - cbn in Hf. by apply elem_of_nil in Hf.
  - cbn in Hf. by apply elem_of_nil in Hf.
Defined.

Lemma votes_add_up_to_inliers_witness :
  total_votes [(12, 0, 5); (12, 1, 5)] = 10 ∧
  ∃ st' edges,
    closeLoopWithCluster revisit (readCluster revisit 0) = Some (true, st') ∧
    graph_log st' = graph_log revisit ++ edges ++ [update] ∧
    5 * Z.of_nat (length edges) ≤ total_weight edges ∧
    total_weight edges ≤ 10.
Proof.
  exact (votes_add_up_to_inliers revisit_world revisit (readCluster revisit 0) _ _ _ _ _
           revisit_reaches_stage6).
Defined.

Lemma plain_revisit_reaches_stage6 :
  reaches_stage6 plain_revisit (readCluster plain_revisit 0)
    (mkMatchings (replicate 6 12) (replicate 6 0)
       (map pt (getKp (c_cluster_ plain_revisit))) (map pt (getKp (c_cluster_ plain_revisit)))
       (getPoints (c_cluster_ plain_revisit)))
    [] [] (seqZ 0 6) [(12, 0, 6)].
Proof.
  split; [exists 100; split; [vm_compute; reflexivity|lia]|].
  split; [vm_compute; lia|].
  split; [vm_compute; reflexivity|].
  split; [vm_compute; reflexivity|].
  split; [vm_compute; lia|].
  vm_compute; reflexivity.
Qed.

Lemma one_pair_one_edge_witness :
  ∃ st',
    closeLoopWithCluster plain_revisit (readCluster plain_revisit 0) = Some (true, st') ∧
    graph_log st' = [addEdge 0 12 (-2) 6; update] ∧
    lc_found_ st' = [(12, 0)].
Proof.
  assert (∀ i, i ∈ seqZ 0 6 →
            supports (mkMatchings (replicate 6 12) (replicate 6 0)
                        (map pt (getKp (c_cluster_ plain_revisit)))
                        (map pt (getKp (c_cluster_ plain_revisit)))
                        (getPoints (c_cluster_ plain_revisit))) 12 0 i = true) as Hall.
  { intros i Hi. apply elem_of_seqZ in Hi.
    assert (i = 0 ∨ i = 1 ∨ i = 2 ∨ i = 3 ∨ i = 4 ∨ i = 5) as Hcases by lia.
    destruct Hcases as [->|[->|[->|[->|[->| ->]]]]]; reflexivity. }
  assert (5 ≤ LC_MIN_INLIERS revisit_world)%nat as Hmin by (cbn; lia).
  exact (one_pair_one_edge revisit_world plain_revisit (readCluster plain_revisit 0)
           _ _ _ _ _ 12 0 plain_revisit_reaches_stage6 Hmin Hall).
Defined.

Lemma candidates_are_distinct_witness :
  NoDup (hash_table_ revisit).*1 ∧
  ∃ candidates, getCandidates revisit 12 = Some candidates ∧ NoDup candidates.*1.
Proof.
  assert (NoDup (hash_table_ revisit).*1) as Hnd.
  { apply (bool_decide_unpack _). vm_compute. reflexivity. }
  split; [exact Hnd|].
  eassert (getCandidates revisit 12 = Some _) as Hrun by (vm_compute; reflexivity).
  eexists. split; [exact Hrun|].
  exact (candidates_are_distinct revisit_world revisit 12 _
           (insertion_sort_sorts 10 6 revisit_closest true) Hnd Hrun).
Defined.

Lemma hash_search_skips_recorded_pairs_witness :
  (500, 3) ∈ lc_found_ scenario_C ∧
  ∃ candidates, getCandidates scenario_C 500 = Some candidates ∧ 3 ∉ candidates.*1.
Proof.
  assert ((500, 3) ∈ lc_found_ scenario_C) as Hin by (by left).
  split; [exact Hin|].
  eassert (getCandidates scenario_C 500 = Some _) as Hrun by (vm_compute; reflexivity).
  eexists. split; [exact Hrun|].
  exact (proj1 (hash_search_skips_recorded_pairs scenario_C_world scenario_C 500 3
                  (insertion_sort_sorts 50 6 (λ _, []) true) Hin) _ Hrun).
Defined.

Lemma filterByFrustum_keeps_visible_points_witness :
  ∃ out_desc out_points,
    filterByFrustum (demo_camera revisit_world)
      (map bit_row [0; 1; 2]%nat) [demo_point 0; mkPoint3f 700 0 1; demo_point 2] 0
      = Some (out_desc, out_points) ∧
    out_points = [demo_point 0; demo_point 2] ∧
    length out_desc = 2%nat.
Proof.
  destruct (filterByFrustum_keeps_visible_points revisit_world (demo_camera revisit_world)
              (map bit_row [0; 1; 2]%nat) [demo_point 0; mkPoint3f 700 0 1; demo_point 2] 0)
    as (out_desc & out_points & Hrun & Hpoints & Hlen & _).
  { cbn. lia. }
  exists out_desc, out_points. split; [exact Hrun|].
  assert (out_points = [demo_point 0; demo_point 2]) as Hp.
  { rewrite Hpoints. vm_compute. reflexivity. }
  split; [exact Hp|]. rewrite Hlen, Hp. reflexivity.
Defined.

Lemma filterByFrustum_idempotent_witness :
  ∃ out_desc out_points,
    filterByFrustum (demo_camera revisit_world)
      (map bit_row [0; 1; 2]%nat) [demo_point 0; mkPoint3f 700 0 1; demo_point 2] 0
      = Some (out_desc, out_points) ∧
    filterByFrustum (demo_camera revisit_world) out_desc out_points 0
      = Some (out_desc, out_points).
Proof.
  eassert (filterByFrustum (demo_camera revisit_world)
             (map bit_row [0; 1; 2]%nat) [demo_point 0; mkPoint3f 700 0 1; demo_point 2] 0
           = Some (_, _)) as Hrun by (vm_compute; reflexivity).
  eexists. eexists. split; [exact Hrun|].
  exact (filterByFrustum_idempotent revisit_world (demo_camera revisit_world) _ _ _ _ _ Hrun).
Defined.

Lemma finalize_empties_the_store_witness :
  execution_dir_ok revisit = true ∧
  readCluster (finalize revisit) 0 = Cluster_default revisit_world ∧
  searchByProximity (finalize revisit) = Some (finalize revisit).
Proof.
  split; [reflexivity|].
  destruct (finalize_empties_the_store revisit_world revisit eq_refl) as (H1 & _ & H3 & _).
  split; [apply H1|exact H3].
Defined.

Lemma run_loop_keeps_ids_dense_witness :
  ∃ st' out',
    @run_loop revisit_world [[cluster_13]; []] arrival [] = Some (st', out') ∧
    dense (hash_table_ st') ∧
    length (hash_table_ st') = 14%nat ∧
    cluster_queue_ st' = [].
Proof.
  eassert (@run_loop revisit_world [[cluster_13]; []] arrival [] = Some (_, _))
    as Hrun by (vm_compute; reflexivity).
  assert (numbered_from (length (hash_table_ arrival))
            (cluster_queue_ arrival ++ concat [[cluster_13]; []])) as Hnum.
  { intros [|[|i]] c [= <-]; reflexivity. }
  destruct (run_loop_keeps_ids_dense revisit_world [[cluster_13]; []] arrival [] _ _
              (demo_table_dense 12) Hnum Hrun) as (Hd & _ & _ & _).
  eexists. eexists. split; [exact Hrun|]. split; [exact Hd|]. split; reflexivity.
Defined.

(** ** The node *)

Lemma initialize_success_means_valid_witness :
  ∃ s' acts,
    Base.initializeStereoSlam revisit_world Base.demo_world Base.demo_node
      = Some (true, s', acts) ∧
    Base.last_char (Base.files_path (Base.params_ s')) = Some "/"%char ∧
    Base.files_path (Base.params_ s') = "/tmp/slam/"%string.
Proof.
  eassert (Base.initializeStereoSlam revisit_world Base.demo_world Base.demo_node
           = Some (true, _, _)) as Hrun by (vm_compute; reflexivity).
  destruct (initialize_success_means_valid revisit_world Base.demo_world _ _ _ Hrun)
    as (_ & _ & Hslash & _).
  eexists. eexists. split; [exact Hrun|]. split; [exact Hslash|reflexivity].
Defined.

Lemma initialize_is_idempotent_witness :
  ∃ s' acts,
    Base.initializeStereoSlam revisit_world Base.demo_world Base.demo_node
      = Some (true, s', acts) ∧
    Base.initializeStereoSlam revisit_world Base.demo_world s' = Some (true, s', acts).
Proof.
  eassert (Base.initializeStereoSlam revisit_world Base.demo_world Base.demo_node
           = Some (true, _, _)) as Hrun by (vm_compute; reflexivity).
  eexists. eexists. split; [exact Hrun|].
  refine (proj2 (initialize_is_idempotent revisit_world Base.demo_world _ _ _
                   Base.demo_world Hrun _)).
  discriminate.
Defined.

Lemma initialize_failure_touches_no_file_witness :
  ∃ s' acts,
    Base.initializeStereoSlam revisit_world Base.demo_world Base.solver_2_node
      = Some (false, s', acts) ∧
    (∀ file, Base.remove file ∉ acts) ∧
    (∀ command, Base.system command ∉ acts) ∧
    Base.files_path (Base.params_ s') = "/tmp/slam"%string.
Proof.
  eassert (Base.initializeStereoSlam revisit_world Base.demo_world Base.solver_2_node
           = Some (false, _, _)) as Hrun by (vm_compute; reflexivity).
  destruct (initialize_failure_touches_no_file revisit_world Base.demo_world _ _ _ Hrun)
    as (H1 & H2 & H3 & _).
  eexists. eexists. split; [exact Hrun|]. split; [exact H1|]. split; [exact H2|exact H3].
Defined.

Lemma initialize_without_database_witness :
  ∃ s' acts,
    Base.initializeStereoSlam revisit_world Base.demo_world Base.demo_node
      = Some (true, s', acts) ∧
    Base.ROS_ERROR "[StereoSlam:] Database failed to connect" ∈ acts ∧
    ∀ query, Base.PQexec query ∉ acts.
Proof.
  apply (initialize_without_database revisit_world Base.demo_world Base.demo_node).
  - reflexivity.
  - right. reflexivity.
  - apply Z.leb_le. reflexivity.
  - discriminate.
Defined.

Lemma saveGraph_writes_vertices_and_long_edges_witness :
  ∃ f_vertices f_edges acts,
    Base.saveGraph revisit_world Base.demo_world Base.demo_node
      = Some (true, f_vertices, f_edges, acts) ∧
    length f_vertices = 3%nat ∧
    Base.el_counter <$> f_edges = seqZ 0 (Z.of_nat (length f_edges)) ∧
    f_edges = [Base.mkEdgeLine 0 20 0].
Proof.
  eassert (Base.saveGraph revisit_world Base.demo_world Base.demo_node
           = Some (true, _, _, _)) as Hrun by (vm_compute; reflexivity).
  destruct (saveGraph_writes_vertices_and_long_edges revisit_world Base.demo_world
              _ _ _ _ _ Hrun) as (_ & Hlen & _ & Hcount & _).
  eexists. eexists. eexists. split; [exact Hrun|]. split; [exact Hlen|].
  split; [exact Hcount|reflexivity].
Defined.

Lemma saveGraph_files_are_the_initialised_ones_witness :
  ∃ s' acts f_vertices f_edges acts',
    Base.initializeStereoSlam revisit_world Base.demo_world Base.demo_node
      = Some (true, s', acts) ∧
    Base.saveGraph revisit_world Base.demo_world s' = Some (true, f_vertices, f_edges, acts') ∧
    Base.remove "/tmp/slam/graph_vertices.txt" ∈ acts ∧
    Base.open_trunc "/tmp/slam/graph_vertices.txt" ∈ acts'.
Proof.
  eassert (Base.initializeStereoSlam revisit_world Base.demo_world Base.demo_node
           = Some (true, _, _)) as Hinit by (vm_compute; reflexivity).
  lazymatch type of Hinit with
  | _ = Some (_, ?s', _) =>
      eassert (Base.saveGraph revisit_world Base.demo_world s' = Some (true, _, _, _))
        as Hsave by (vm_compute; reflexivity)
  end.
  destruct (saveGraph_files_are_the_initialised_ones revisit_world Base.demo_world
              _ _ _ _ _ _ _ Hinit Hsave) as (path & Hpath & _ & H1 & _ & H3 & _).
  subst path.
  eexists. eexists. eexists. eexists. eexists.
  split; [exact Hinit|]. split; [exact Hsave|]. split; [exact H1|exact H3].
Defined.

Lemma msgsCallback_defined_iff_witness :
  Base.block_insertion_ Base.demo_node = false ∧
  is_Some (Base.msgsCallback revisit_world Base.demo_world Base.demo_node 31 4).
Proof.
  split; [reflexivity|].
  apply (msgsCallback_defined_iff revisit_world Base.demo_world Base.demo_node 31 4 eq_refl).
  right. right. split; [vm_compute; lia|]. by eexists.
Defined.

Lemma msgsCallback_publishes_odometry_until_optimised_witness :
  ∃ s' acts pose,
    Base.msgsCallback revisit_world Base.demo_world Base.demo_node 31 4
      = Some (s', acts, Some pose) ∧
    pose = 31.
Proof.
  eassert (Base.msgsCallback revisit_world Base.demo_world Base.demo_node 31 4
           = Some (_, _, Some _)) as Hrun by (vm_compute; reflexivity).
  eexists. eexists. eexists. split; [exact Hrun|].
  refine (msgsCallback_publishes_odometry_until_optimised revisit_world Base.demo_world
            Base.demo_node 31 4 _ _ _ _ _ Hrun); [|reflexivity].
  intros a b. cbn. lia.
Defined.

Lemma msgsCallback_history_in_step_witness :
  ∃ s' acts published,
    Base.msgsCallback revisit_world Base.demo_world Base.demo_node 31 4
      = Some (s', acts, published) ∧
    Base.pose_history_ s' = [0; 10; 20; 31] ∧
    Base.pose_history_stamp_ s' = [1; 2; 3; 4]%Q.
Proof.
  eassert (Base.msgsCallback revisit_world Base.demo_world Base.demo_node 31 4
           = Some (_, _, _)) as Hrun by (vm_compute; reflexivity).
  destruct (msgsCallback_history_in_step revisit_world Base.demo_world Base.demo_node 31 4
              _ _ _ (λ _ _, conj eq_refl eq_refl) Hrun) as [[H1 H2]|(H1 & H2 & _)].
  - eexists. eexists. eexists. split; [exact Hrun|]. split; reflexivity.
  - eexists. eexists. eexists. split; [exact Hrun|]. split; [exact H1|exact H2].
Defined.

Lemma msgsCallback_empty_graph_after_first_message_witness :
  Base.msgsCallback revisit_world Base.demo_world Base.empty_node 31 4
    = Some (Base.empty_node, [], Some 31).
Proof.
  apply (msgsCallback_empty_graph_after_first_message revisit_world Base.demo_world
           Base.empty_node 31 4).
  - reflexivity.
  - reflexivity.
  - left. reflexivity.
  - discriminate.
Defined.
